(** * Invoice-OCR-Processor: the field extractor, the OCR worker and
      the window

    A shallow embedding of [src/invoice_ocr.py]:
    - [Py]: the Python string operations the program calls
      ([str.upper], [str.split], [str.strip], [str.isdigit], ...);
    - [Re]: the fragment of Python's [re] module used by the program's
      regular expressions, as a backtracking matcher;
    - [InvoiceProcessor.extract_invoice_fields] (lines 99-211), with the
      exceptions its steps could raise made explicit;
    - [InvoiceProcessor.pdf_to_images], the two OCR adapters and
      [OCRWorker.run] (lines 49-97 and 224-268), over an explicit world
      (temporary files, emitted signals, call trace) and an environment
      that fixes what the external libraries answer: PyMuPDF, the
      writing of a page image, OpenCV, the two OCR engines, [os.remove]
      and the delivery of Qt signals;
    - [InvoiceOCRApp]: the handlers of the window that work on the
      results (lines 512-645 and 676-688), over the contents of the
      widgets.  The construction of the widgets, the style sheet, the
      JSON export and [main] are not modelled.

    Text is a list of Unicode code points.  The character tables
    (case mapping, [\s], [\d], [isdigit]) are Python's on U+0000..U+00FF
    and on the euro sign; this covers the alphabet of the OCR back-ends
    (the Tesseract whitelist of line 57 and line breaks).  Code points
    outside that range are treated as caseless symbols, which Python
    does not always do: a property that depends on the tables is stated
    for the texts of that alphabet, [Py.covered].  What the program
    prints is not modelled. *)

From Stdlib Require Import NArith Ascii String.
From stdpp Require Import gmap strings list fin_maps.

Local Open Scope N_scope.

(** ** Python strings *)

Module Py.

Abbreviation char := N.
Abbreviation str := (list char).

(** Decoding of the UTF-8 bytes of a literal into code points, so that
    the patterns and the examples can be written as text. *)
Fixpoint utf8 (bs : list N) : str :=
  match bs with
  | [] => []
  | b :: rest =>
    if b <? 128 then b :: utf8 rest
    else if b <? 224 then
      match rest with
      | b2 :: r2 => ((b mod 32) * 64 + b2 mod 64) :: utf8 r2
      | _ => []
      end
    else if b <? 240 then
      match rest with
      | b2 :: b3 :: r3 =>
          ((b mod 16) * 4096 + (b2 mod 64) * 64 + b3 mod 64) :: utf8 r3
      | _ => []
      end
    else
      match rest with
      | b2 :: b3 :: b4 :: r4 =>
          ((b mod 8) * 262144 + (b2 mod 64) * 4096 + (b3 mod 64) * 64
           + b4 mod 64) :: utf8 r4
      | _ => []
      end
  end.

Definition lit (s : string) : str :=
  utf8 (map N_of_ascii (list_ascii_of_string s)).

Definition between (lo hi c : char) : bool := (lo <=? c) && (c <=? hi).

(** The alphabet on which the four tables below are Python's:
    U+0000..U+00FF and the euro sign. *)
Definition in_charset (c : char) : bool := (c <=? 255) || (c =? 8364).

Definition covered (s : str) : bool := forallb in_charset s.

(** [str.isspace] on one code point of the alphabet, which is also [\s]
    of [re]. *)
Definition is_space (c : char) : bool :=
  between 9 13 c || between 28 32 c || (c =? 133) || (c =? 160).

(** [\d] of [re] on the alphabet: the decimal digits (category Nd). *)
Definition is_decimal (c : char) : bool := between 48 57 c.

(** [str.isdigit] on one code point of the alphabet: the decimal digits
    and the superscript digits. *)
Definition is_digit (c : char) : bool :=
  is_decimal c || (c =? 178) || (c =? 179) || (c =? 185).

(** [str.upper] on one code point of the alphabet; the sharp s expands
    to two letters. *)
Definition upper_char (c : char) : str :=
  if between 97 122 c then [c - 32]
  else if c =? 181 then [924]
  else if c =? 223 then [83; 83]
  else if c =? 255 then [376]
  else if between 224 254 c && negb (c =? 247) then [c - 32]
  else [c].

Definition lower_char (c : char) : str :=
  if between 65 90 c then [c + 32]
  else if between 192 222 c && negb (c =? 215) then [c + 32]
  else [c].

Definition upper (s : str) : str := flat_map upper_char s.
Definition lower (s : str) : str := flat_map lower_char s.

Definition str_eqb (a b : str) : bool := bool_decide (a = b).

Fixpoint startswith (p s : str) : bool :=
  match p, s with
  | [], _ => true
  | x :: p', y :: s' => (x =? y) && startswith p' s'
  | _ :: _, [] => false
  end.

Definition endswith (p s : str) : bool :=
  startswith (rev p) (rev s).

(** [sub in s] *)
Fixpoint contains (sub s : str) : bool :=
  startswith sub s ||
  match s with
  | [] => false
  | _ :: s' => contains sub s'
  end.

(** [s.split(sep)] for a one-character separator. *)
Fixpoint split (sep : char) (s : str) : list str :=
  match s with
  | [] => [[]]
  | c :: s' =>
    if c =? sep then [] :: split sep s'
    else match split sep s' with
         | l :: ls => (c :: l) :: ls
         | [] => [[c]]
         end
  end.

Fixpoint lstrip (s : str) : str :=
  match s with
  | c :: s' => if is_space c then lstrip s' else s
  | [] => []
  end.

Definition strip (s : str) : str := rev (lstrip (rev (lstrip s))).

(** [sep.join(parts)] *)
Fixpoint join (sep : str) (parts : list str) : str :=
  match parts with
  | [] => []
  | [p] => p
  | p :: rest => p ++ sep ++ join sep rest
  end.

(** [s.replace(c, '')] for a one-character [c]. *)
Definition remove_char (c : char) (s : str) : str :=
  filter (fun x => x ≠ c) s.

Definition isdigit (s : str) : bool :=
  match s with
  | [] => false
  | _ => forallb is_digit s
  end.

(** Truth value of a string or of a list: non-empty. *)
Definition truthy {A} (l : list A) : bool :=
  match l with [] => false | _ => true end.

(** [str(n)] for a non-negative integer. *)
Fixpoint digits_fuel (fuel : nat) (n : N) (acc : str) : str :=
  match fuel with
  | O => acc
  | S f =>
    let acc' := (48 + n mod 10) :: acc in
    if n <? 10 then acc' else digits_fuel f (n / 10) acc'
  end.

Definition str_of_nat (n : nat) : str :=
  digits_fuel (S n) (N.of_nat n) [].

End Py.

Import Py.

(** ** Regular expressions

    The fragment of [re] the program uses: literals, character classes,
    greedy quantifiers on a class, optional items, ordered alternatives,
    sequences and one capturing group per pattern.  The matcher
    backtracks as [re] does: a quantifier takes as many characters as it
    can and gives them back one at a time, [r?] tries [r] before the
    empty match, and [a|b] tries [a] before [b]. *)

Module Re.

Inductive citem :=
| One (c : char)              (* a single character *)
| Range (lo hi : char)        (* [lo-hi] *)
| Digit                       (* \d *)
| Space.                      (* \s *)

Definition cset := list citem.

Definition in_citem (i : citem) (c : char) : bool :=
  match i with
  | One x => c =? x
  | Range lo hi => between lo hi c
  | Digit => is_decimal c
  | Space => is_space c
  end.

Definition in_cset (cs : cset) (c : char) : bool :=
  existsb (fun i => in_citem i c) cs.

Inductive regex :=
| Lit (l : str)                               (* the characters of l *)
| Cls (cs : cset)                             (* one character of a class *)
| Rep (cs : cset) (lo : nat) (hi : option nat) (* cs{lo,hi}, greedy *)
| Opt (r : regex)                             (* r? and (?:r)? *)
| Alt (r1 r2 : regex)                         (* r1|r2 *)
| Seq (r1 r2 : regex)                         (* r1 r2 *)
| Grp (r : regex).                            (* (r), group 1 *)

Declare Scope re_scope.
Delimit Scope re_scope with re.
Bind Scope re_scope with regex.
Notation "r1 ⋅ r2" := (Seq r1 r2) (at level 41, right associativity) : re_scope.
Notation "r1 <|> r2" := (Alt r1 r2) (at level 42, right associativity) : re_scope.
Abbreviation star cs := (Rep cs 0%nat None).
Abbreviation plus cs := (Rep cs 1%nat None).
Abbreviation times cs lo hi := (Rep cs lo%nat (Some hi%nat)).

(** The state of group 1: unset, or the text it captured. *)
Definition caps := option str.

(** [l] is a prefix of [s]: what is left of [s]. *)
Fixpoint strip_prefix (l s : str) : option str :=
  match l with
  | [] => Some s
  | x :: l' =>
    match s with
    | y :: s' => if x =? y then strip_prefix l' s' else None
    | [] => None
    end
  end.

Definition can_take (hi : option nat) : bool :=
  match hi with
  | Some O => false
  | _ => true
  end.

Definition dec (hi : option nat) : option nat :=
  match hi with
  | Some n => Some (pred n)
  | None => None
  end.

Section Matcher.
Context {R : Type}.

(** In [rep] and [rmatch], [s] is the text still to read, [acc] the
    characters read since the start of the enclosing group (or of the
    match), last one first, and [k] what remains to be matched. *)
Fixpoint rep (cs : cset) (lo : nat) (hi : option nat) (s acc : str) (c : caps)
    (k : str → str → caps → option R) {struct s} : option R :=
  let stop := match lo with O => k s acc c | S _ => None end in
  if can_take hi then
    match s with
    | x :: s' =>
      if in_cset cs x then
        match rep cs (pred lo) (dec hi) s' (x :: acc) c k with
        | Some res => Some res
        | None => stop
        end
      else stop
    | [] => stop
    end
  else stop.

Fixpoint rmatch (r : regex) (s acc : str) (c : caps)
    (k : str → str → caps → option R) {struct r} : option R :=
  match r with
  | Lit l =>
    match strip_prefix l s with
    | Some s' => k s' (rev l ++ acc) c
    | None => None
    end
  | Cls cs =>
    match s with
    | x :: s' => if in_cset cs x then k s' (x :: acc) c else None
    | [] => None
    end
  | Rep cs lo hi => rep cs lo hi s acc c k
  | Opt r1 =>
    match rmatch r1 s acc c k with
    | Some res => Some res
    | None => k s acc c
    end
  | Alt r1 r2 =>
    match rmatch r1 s acc c k with
    | Some res => Some res
    | None => rmatch r2 s acc c k
    end
  | Seq r1 r2 => rmatch r1 s acc c (fun s1 acc1 c1 => rmatch r2 s1 acc1 c1 k)
  | Grp r1 =>
    rmatch r1 s [] c (fun s1 acc1 _ => k s1 (acc1 ++ acc) (Some (rev acc1)))
  end.

End Matcher.

(** A match object: [group()], [group(1)] and the text after the match. *)
Record rmatch_obj := MatchObj {
  group0 : str;
  group1 : option str;
  after : str
}.

(** [pattern.match(s)]: a match that starts at the first character. *)
Definition match_at (r : regex) (s : str) : option rmatch_obj :=
  rmatch r s [] None (fun s' acc c => Some (MatchObj (rev acc) c s')).

(** [re.search(r, s)]: the match at the leftmost position that has one. *)
Fixpoint search (r : regex) (s : str) : option rmatch_obj :=
  match match_at r s with
  | Some m => Some m
  | None =>
    match s with
    | [] => None
    | _ :: s' => search r s'
    end
  end.

(** [re.findall(r, s)] for a pattern with one group: the texts of group
    1 of the successive non-overlapping matches, scanning from the left;
    [skip] counts the characters of the last match still to be passed.
    An unset group contributes the empty string. *)
Fixpoint findall_from (r : regex) (skip : nat) (s : str) {struct s} : list str :=
  match skip with
  | S n =>
    match s with
    | [] => []
    | _ :: s' => findall_from r n s'
    end
  | O =>
    match match_at r s with
    | Some m =>
      default [] (group1 m) ::
      match s with
      | [] => []
      | _ :: s' => findall_from r (pred (length (group0 m))) s'
      end
    | None =>
      match s with
      | [] => []
      | _ :: s' => findall_from r 0 s'
      end
    end
  end.

Definition findall (r : regex) (s : str) : list str := findall_from r 0 s.

(** [re.sub(class, '', s)]: every character of the class is removed. *)
Definition sub_cset (cs : cset) (s : str) : str :=
  filter (fun x => in_cset cs x = false) s.

End Re.

Import Re.
Local Open Scope re_scope.

(** ** Exceptions *)

Inductive exn :=
| AttributeError    (* a method called on None *)
| TypeError         (* None passed where a string is expected *)
| IndexError        (* a list index out of range *)
| RuntimeError.     (* raised by an external library *)

Inductive result (A : Type) :=
| Ok (a : A)
| Raise (e : exn).
Arguments Ok {A} a.
Arguments Raise {A} e.

Definition rbind {A B} (m : result A) (f : A → result B) : result B :=
  match m with
  | Ok a => f a
  | Raise e => Raise e
  end.

Notation "'let*' x := m 'in' f" := (rbind m (fun x => f))
  (at level 10, x name, m at level 100, f at level 200).

(** [m.group(1)] is None when the group took no part in the match; the
    program uses it at once as a string, which raises [e] on None. *)
Definition group1_str (e : exn) (m : rmatch_obj) : result str :=
  match group1 m with
  | Some g => Ok g
  | None => Raise e
  end.

(** [l[i]] *)
Definition index {A} (l : list A) (i : nat) : result A :=
  match l !! i with
  | Some x => Ok x
  | None => Raise IndexError
  end.

(** ** The field extractor *)

Module InvoiceProcessor.

Abbreviation fields_t := (gmap string str).

Definition nl : char := 10.
Definition pound : char := 163.
Definition euro : char := 8364.

(** [[A-Z0-9\-]] *)
Definition token_cs : cset := [Range 65 90; Range 48 57; One 45].
(** [[/\-\.]] *)
Definition sep_cs : cset := [One 47; One 45; One 46].
(** [[A-Za-z]] *)
Definition alpha_cs : cset := [Range 65 90; Range 97 122].
(** [[£$€]] *)
Definition sym_cs : cset := [One pound; One 36; One euro].
(** [[\d,]] *)
Definition num_cs : cset := [Digit; One 44].
(** [[£$€,\s]] *)
Definition strip_cs : cset := [One pound; One 36; One euro; One 44; Space].

Definition L (s : string) : regex := Lit (lit s).

Definition space_str : str := Eval cbv in lit " ".
Definition bill_to_kw : str := Eval cbv in lit "BILL TO".

(** Lines 118-123:
      INVOICE\s*(?:NO|NUMBER|#)?\s*:?\s*([A-Z0-9\-]+)
      INV\s*(?:NO|#)?\s*:?\s*([A-Z0-9\-]+)
      INVOICE\s+([A-Z0-9\-]+)
      #\s*([A-Z0-9\-]+) *)
Definition invoice_patterns : list regex := Eval cbv in
  [ L "INVOICE" ⋅ star [Space] ⋅ Opt (L "NO" <|> L "NUMBER" <|> L "#") ⋅
      star [Space] ⋅ Opt (L ":") ⋅ star [Space] ⋅ Grp (plus token_cs);
    L "INV" ⋅ star [Space] ⋅ Opt (L "NO" <|> L "#") ⋅
      star [Space] ⋅ Opt (L ":") ⋅ star [Space] ⋅ Grp (plus token_cs);
    L "INVOICE" ⋅ plus [Space] ⋅ Grp (plus token_cs);
    L "#" ⋅ star [Space] ⋅ Grp (plus token_cs) ].

(** Lines 132-136:
      (\d{1,2}[/\-\.]\d{1,2}[/\-\.]\d{2,4})
      (\d{1,2}\s+[A-Za-z]{3,9}\s+\d{2,4})
      (\d{2,4}[/\-\.]\d{1,2}[/\-\.]\d{1,2}) *)
Definition date_patterns : list regex := Eval cbv in
  [ Grp (times [Digit] 1 2 ⋅ Cls sep_cs ⋅ times [Digit] 1 2 ⋅ Cls sep_cs ⋅
         times [Digit] 2 4);
    Grp (times [Digit] 1 2 ⋅ plus [Space] ⋅ times alpha_cs 3 9 ⋅
         plus [Space] ⋅ times [Digit] 2 4);
    Grp (times [Digit] 2 4 ⋅ Cls sep_cs ⋅ times [Digit] 1 2 ⋅ Cls sep_cs ⋅
         times [Digit] 1 2) ].

(** [(?:GBP|USD|EUR|\$|£|€)?] *)
Definition currency_opt : regex :=
  Opt (L "GBP" <|> L "USD" <|> L "EUR" <|> L "$" <|> L "£" <|> L "€").

(** The capturing group of the amount patterns:
    [£$€]? \s* [\d,]+ \.? \d* *)
Definition amount_grp : regex :=
  Grp (Opt (Cls sym_cs) ⋅ star [Space] ⋅ plus num_cs ⋅ Opt (L ".") ⋅
       star [Digit]).

(** Lines 175-180, each followed by the amount group:
      TOTAL\s*(?:GBP|USD|EUR|\$|£|€)?:?\s*
      AMOUNT\s+DUE\s*(?:GBP|USD|EUR|\$|£|€)?:?\s*
      SUBTOTAL\s*:?\s*
      TAX\s*(?:\d+%)?:?\s* *)
Definition amount_patterns : list regex := Eval cbv in
  [ L "TOTAL" ⋅ star [Space] ⋅ currency_opt ⋅ Opt (L ":") ⋅ star [Space] ⋅
      amount_grp;
    L "AMOUNT" ⋅ plus [Space] ⋅ L "DUE" ⋅ star [Space] ⋅ currency_opt ⋅
      Opt (L ":") ⋅ star [Space] ⋅ amount_grp;
    L "SUBTOTAL" ⋅ star [Space] ⋅ Opt (L ":") ⋅ star [Space] ⋅ amount_grp;
    L "TAX" ⋅ star [Space] ⋅ Opt (plus [Digit] ⋅ L "%") ⋅ Opt (L ":") ⋅
      star [Space] ⋅ amount_grp ].

(** [[£$€]|GBP|USD|EUR], line 183. *)
Definition currency_pattern : regex := Eval cbv in
  Cls sym_cs <|> L "GBP" <|> L "USD" <|> L "EUR".

(** Line 185. *)
Definition currency_symbols : list (str * str) := Eval cbv in
  [ (lit "£", lit "GBP"); (lit "$", lit "USD"); (lit "€", lit "EUR") ].

(** [d.get(key, dflt)] on the literal dictionary above. *)
Fixpoint dict_get (d : list (str * str)) (key dflt : str) : str :=
  match d with
  | [] => dflt
  | (k, v) :: d' => if str_eqb k key then v else dict_get d' key dflt
  end.

(** Lines 101-112. *)
Definition fields_init : fields_t :=
  <["currency" := []]> (<["tax_amount" := []]> (<["subtotal" := []]>
  (<["total_amount" := []]> (<["bill_to" := []]> (<["vendor_address" := []]>
  (<["vendor_name" := []]> (<["due_date" := []]> (<["invoice_date" := []]>
  (<["invoice_number" := []]> ∅))))))))).

(** Lines 125-129: the first pattern with a match decides, and the loop
    is left. *)
Fixpoint invoice_number_loop (patterns : list regex) (text_upper : str)
    (fields : fields_t) : result fields_t :=
  match patterns with
  | [] => Ok fields
  | pattern :: rest =>
    match search pattern text_upper with
    | Some m =>
      let* g := group1_str AttributeError m in
      Ok (<["invoice_number" := strip g]> fields)
    | None => invoice_number_loop rest text_upper fields
    end
  end.

(** Lines 138-140. *)
Definition dates_found (text : str) : list str :=
  flat_map (fun pattern => findall pattern text) date_patterns.

(** Lines 142-144. *)
Definition set_dates (found : list str) (fields : fields_t)
    : result fields_t :=
  if truthy found then
    let* d0 := (if 0 <? length found then index found 0 else Ok [])%nat in
    let fields := <["invoice_date" := d0]> fields in
    let* d1 := (if 1 <? length found then index found 1 else Ok [])%nat in
    Ok (<["due_date" := d1]> fields)
  else Ok fields.

Definition vendor_keywords : list str := Eval cbv in
  [lit "INVOICE"; lit "BILL TO"; lit "DATE"].

(** Lines 147-152. *)
Fixpoint vendor_loop (lines : list str) (vendor_lines : list str)
    : list str :=
  match lines with
  | [] => vendor_lines
  | line :: rest =>
    if truthy (strip line) &&
       negb (existsb (fun keyword => contains keyword (upper line))
                     vendor_keywords)
    then
      let vendor_lines := vendor_lines ++ [strip line] in
      if (3 <=? length vendor_lines)%nat then vendor_lines
      else vendor_loop rest vendor_lines
    else vendor_loop rest vendor_lines
  end.

(** Lines 154-156. *)
Definition set_vendor (vendor_lines : list str) (fields : fields_t)
    : result fields_t :=
  if truthy vendor_lines then
    let* name := index vendor_lines 0 in
    let fields := <["vendor_name" := name]> fields in
    Ok (<["vendor_address" := join space_str (drop 1 vendor_lines)]> fields)
  else Ok fields.

(** Lines 159-163: the index of the first line with BILL TO, if any
    (the program keeps -1 for none). *)
Fixpoint bill_to_start_from (i : nat) (lines : list str) : option nat :=
  match lines with
  | [] => None
  | line :: rest =>
    if contains bill_to_kw (upper line) then Some i
    else bill_to_start_from (S i) rest
  end.

(** Lines 167-171, over the indices of the [range]. *)
Fixpoint bill_to_loop (text_lines : list str) (idxs : list nat)
    (bill_to_lines : list str) : result (list str) :=
  match idxs with
  | [] => Ok bill_to_lines
  | i :: rest =>
    let* line := index text_lines i in
    if truthy (strip line)
    then bill_to_loop text_lines rest (bill_to_lines ++ [strip line])
    else Ok bill_to_lines
  end.

(** [range(a, b)] *)
Definition range (a b : nat) : list nat := seq a (b - a).

(** Lines 165-172. *)
Definition set_bill_to (text_lines : list str) (fields : fields_t)
    : result fields_t :=
  match bill_to_start_from 0 text_lines with
  | Some bill_to_start =>
    let* bill_to_lines :=
      bill_to_loop text_lines
        (range (bill_to_start + 1)
               (Nat.min (bill_to_start + 6) (length text_lines))) [] in
    Ok (<["bill_to" := join space_str bill_to_lines]> fields)
  | None => Ok fields
  end.

(** Lines 183-186. *)
Definition set_currency (text_upper : str) (fields : fields_t) : fields_t :=
  match search currency_pattern text_upper with
  | Some currency_match =>
    <["currency" := dict_get currency_symbols (group0 currency_match)
                             (group0 currency_match)]> fields
  | None => fields
  end.

(** Lines 192-193, 200-201 and 207-208: the cleaned amount when it
    passes the digit test. *)
Definition clean_amount (m : rmatch_obj) : result (option str) :=
  let* g := group1_str TypeError m in
  let amount := sub_cset strip_cs g in
  Ok (if isdigit (remove_char 46 amount) then Some amount else None).

(** Lines 189-195: the loop is left only when an amount is accepted. *)
Fixpoint total_amount_loop (patterns : list regex) (text_upper : str)
    (fields : fields_t) : result fields_t :=
  match patterns with
  | [] => Ok fields
  | pattern :: rest =>
    match search pattern text_upper with
    | Some m =>
      let* a := clean_amount m in
      match a with
      | Some amount => Ok (<["total_amount" := amount]> fields)
      | None => total_amount_loop rest text_upper fields
      end
    | None => total_amount_loop rest text_upper fields
    end
  end.

(** Lines 198-202 and 205-209. *)
Definition set_amount (key : string) (pattern : regex) (text_upper : str)
    (fields : fields_t) : result fields_t :=
  match search pattern text_upper with
  | Some m =>
    let* a := clean_amount m in
    match a with
    | Some amount => Ok (<[key := amount]> fields)
    | None => Ok fields
    end
  | None => Ok fields
  end.

(** Lines 99-211. *)
Definition extract_invoice_fields (text : str) : result fields_t :=
  let fields := fields_init in
  let text_lines := split nl text in
  let text_upper := upper text in
  let* fields := invoice_number_loop invoice_patterns text_upper fields in
  let* fields := set_dates (dates_found text) fields in
  let* fields := set_vendor (vendor_loop (take 10 text_lines) []) fields in
  let* fields := set_bill_to text_lines fields in
  let fields := set_currency text_upper fields in
  let* fields := total_amount_loop (take 2 amount_patterns) text_upper fields in
  let* p2 := index amount_patterns 2 in
  let* fields := set_amount "subtotal" p2 text_upper fields in
  let* p3 := index amount_patterns 3 in
  set_amount "tax_amount" p3 text_upper fields.

End InvoiceProcessor.

Import InvoiceProcessor.

(** ** The OCR worker *)

Module OCRWorker.

(** The dictionary handed to [finished], lines 250-254. *)
Record ocr_result := OcrResult {
  full_text : str;
  fields : gmap string str;
  file_path : str
}.

(** The three signals of the worker, lines 214-216. *)
Inductive signal :=
| Progress (msg : str)
| Finished (res : ocr_result)
| Error (msg : str).

(** Calls into the components, recorded in the order they are made. *)
Inductive call :=
| Rasterize (pdf_path : str)             (* pdf_to_images *)
| Recognize (engine image_path : str)    (* extract_text_tesseract/easyocr *)
| ExtractFields (text : str)             (* extract_invoice_fields *)
| Remove (path : str).                   (* os.remove *)

Record world := World {
  files : gset str;          (* the temporary files on disk *)
  signals : list signal;     (* the signals emitted, oldest first *)
  trace : list call
}.

(** Writing a page image, lines 90-91. *)
Inductive write_outcome :=
| Written        (* the file holds the image *)
| OpenFails      (* open raises: no file is created *)
| WriteFails.    (* f.write raises: the file was created *)

(** What the external libraries and the system answer. *)
Record env := Env {
  (* fitz.open: None when it raises, else for each page whether
     load_page/get_pixmap/tobytes succeed *)
  fitz_open : str → option (list bool);
  (* open(path, 'wb') and f.write of lines 90-91 *)
  file_write : str → write_outcome;
  (* cv2.imread decodes the image *)
  cv2_imread : str → bool;
  (* pytesseract.image_to_string: None when it raises *)
  image_to_string : str → option str;
  (* easyocr readtext: None when it raises, else the detected texts, each
     with whether its confidence is above 0.3 *)
  readtext : str → option (list (str * bool));
  (* os.remove succeeds on an existing file *)
  os_remove_ok : str → bool;
  (* the signal is delivered; otherwise emit raises *)
  emit_ok : signal → bool
}.

Definition exn_str (e : exn) : str := Eval cbv in
  match e with
  | AttributeError => lit "'NoneType' object has no attribute 'strip'"
  | TypeError => lit "expected string or bytes-like object"
  | IndexError => lit "list index out of range"
  | RuntimeError => lit "wrapped C/C++ object has been deleted"
  end.

(** The texts of the signals and the names of the engines. *)
Definition msg_start : str := Eval cbv in lit "Starting OCR processing...".
Definition msg_convert : str := Eval cbv in lit "Converting PDF to images...".
Definition msg_no_pages : str := Eval cbv in
  lit "Failed to convert PDF to images".
Definition msg_engine_pre : str := Eval cbv in lit "Extracting text using ".
Definition dots : str := Eval cbv in lit "...".
Definition msg_engine (ocr_engine : str) : str :=
  msg_engine_pre ++ ocr_engine ++ dots.
Definition msg_fields : str := Eval cbv in lit "Extracting invoice fields...".
Definition msg_done : str := Eval cbv in lit "OCR processing completed!".
Definition msg_failed_pre : str := Eval cbv in lit "OCR processing failed: ".
Definition msg_failed (e : exn) : str := msg_failed_pre ++ exn_str e.
Definition temp_pre : str := Eval cbv in lit "temp_page_".
Definition dot_png : str := Eval cbv in lit ".png".
Definition tesseract : str := Eval cbv in lit "Tesseract".
Definition easyocr : str := Eval cbv in lit "EasyOCR".
Definition dot_pdf : str := Eval cbv in lit ".pdf".

(** Computations that read and change the world and may raise. *)
Definition M (A : Type) := world → result A * world.

Definition ret {A} (a : A) : M A := fun w => (Ok a, w).

Definition bind {A B} (m : M A) (f : A → M B) : M B :=
  fun w =>
    match m w with
    | (Ok a, w') => f a w'
    | (Raise e, w') => (Raise e, w')
    end.

Notation "'do' x <- m ; f" := (bind m (fun x => f))
  (at level 10, x name, m at level 100, f at level 200).
Notation "m >> f" := (bind m (fun _ => f))
  (at level 90, right associativity).

Definition lift {A} (r : result A) : M A := fun w => (r, w).

Definition try_except {A} (body : M A) (handler : exn → M A) : M A :=
  fun w =>
    match body w with
    | (Ok a, w') => (Ok a, w')
    | (Raise e, w') => handler e w'
    end.

Definition record (c : call) : M unit :=
  fun w => (Ok tt, World (files w) (signals w) (trace w ++ [c])).

Section Worker.
Variable E : env.

(** Lines 90-91.  The exception is an [OSError]; [pdf_to_images] catches
    it whatever it is. *)
Definition write_file (path : str) : M unit :=
  fun w =>
    match file_write E path with
    | Written => (Ok tt, World ({[path]} ∪ files w) (signals w) (trace w))
    | OpenFails => (Raise RuntimeError, w)
    | WriteFails =>
      (Raise RuntimeError, World ({[path]} ∪ files w) (signals w) (trace w))
    end.

Definition emit (s : signal) : M unit :=
  fun w =>
    if emit_ok E s
    then (Ok tt, World (files w) (signals w ++ [s]) (trace w))
    else (Raise RuntimeError, w).

(** Line 89. *)
Definition temp_path (page_num : nat) : str :=
  temp_pre ++ str_of_nat page_num ++ dot_png.

(** Lines 82-92: the pages in order; a page that cannot be rendered
    raises before its file is written, and a file that cannot be written
    raises before its path is appended. *)
Fixpoint render_pages (pages : list bool) (page_num : nat)
    (images : list str) : M (list str) :=
  match pages with
  | [] => ret images
  | rendered :: rest =>
    if rendered then
      write_file (temp_path page_num) >>
      render_pages rest (S page_num) (images ++ [temp_path page_num])
    else lift (Raise RuntimeError)
  end.

(** Lines 77-97. *)
Definition pdf_to_images (pdf_path : str) : M (list str) :=
  record (Rasterize pdf_path) >>
  try_except
    (match fitz_open E pdf_path with
     | Some pages => render_pages pages 0 []
     | None => lift (Raise RuntimeError)
     end)
    (fun _ => ret []).

(** Lines 49-62. *)
Definition extract_text_tesseract (image_path : str) : M str :=
  record (Recognize tesseract image_path) >>
  try_except
    (if cv2_imread E image_path then
       match image_to_string E image_path with
       | Some text => ret (strip text)
       | None => lift (Raise RuntimeError)
       end
     else ret [])
    (fun _ => ret []).

(** Lines 64-75. *)
Definition extract_text_easyocr (image_path : str) : M str :=
  record (Recognize easyocr image_path) >>
  try_except
    (match readtext E image_path with
     | Some results =>
       ret (join [nl] (map fst (filter (fun r => snd r = true) results)))
     | None => lift (Raise RuntimeError)
     end)
    (fun _ => ret []).

Definition is_pdf (path : str) : bool := endswith dot_pdf (lower path).

Definition os_remove (path : str) : M unit :=
  record (Remove path) >>
  fun w =>
    if os_remove_ok E path && bool_decide (path ∈ files w)
    then (Ok tt, World (files w ∖ {[path]}) (signals w) (trace w))
    else (Raise RuntimeError, w).

(** Lines 261-265. *)
Fixpoint cleanup (images : list str) : M unit :=
  match images with
  | [] => ret tt
  | img_path :: rest =>
    try_except (os_remove img_path) (fun _ => ret tt) >>
    cleanup rest
  end.

(** Lines 240-265: from the chosen image on.  For an image input the
    source leaves [images] unbound and never reads it; the empty list
    stands for it here. *)
Definition recognize_and_extract (path ocr_engine image_path : str)
    (images : list str) : M unit :=
  emit (Progress (msg_engine ocr_engine)) >>
  do text <- (if str_eqb ocr_engine tesseract
          then extract_text_tesseract image_path
          else extract_text_easyocr image_path) ;
  emit (Progress msg_fields) >>
  record (ExtractFields text) >>
  do flds <- lift (extract_invoice_fields text) ;
  emit (Progress msg_done) >>
  emit (Finished (OcrResult text flds path)) >>
  if is_pdf path then cleanup images else ret tt.

(** Lines 226-265, the body of the [try]. *)
Definition run_body (path ocr_engine : str) : M unit :=
  emit (Progress msg_start) >>
  if is_pdf path then
    emit (Progress msg_convert) >>
    do images <- pdf_to_images path ;
    if negb (truthy images) then
      emit (Error msg_no_pages)
    else
      do image_path <- lift (index images 0) ;
      recognize_and_extract path ocr_engine image_path images
  else
    recognize_and_extract path ocr_engine path [].

(** Lines 224-268. *)
Definition run (path ocr_engine : str) : M unit :=
  try_except (run_body path ocr_engine)
    (fun e => emit (Error (msg_failed e))).

End Worker.

End OCRWorker.

Import OCRWorker.

(** ** The window

    The handlers of [InvoiceOCRApp] that work on the results, lines
    512-688, over the contents of the widgets they set.  The file
    dialogs are answered by the argument [chosen] (empty when the dialog
    is cancelled).  An export is the list of the records handed to the
    [csv] writer; the text of the file is the library's. *)

Module InvoiceOCRApp.

(** The message boxes. *)
Inductive dialog :=
| Warning (title text : str)
| Critical (title text : str)
| Information (title text : str).

(** The dictionary of lines 682-685. *)
Record preview_data := PreviewData {
  preview_file_name : str;
  preview_fields : gmap string str
}.

(** The window: its attributes, and what its widgets hold. *)
Record app := App {
  (* the results kept for the exports *)
  processed_invoices : list ocr_result;
  current_result : option ocr_result;
  (* self.file_path, unset until a file is chosen *)
  selected_file : option str;
  (* the file and the engine of the worker started last *)
  worker : option (str * str);
  file_label : str;
  (* the button is enabled *)
  process_btn : bool;
  (* the bar is visible *)
  progress_bar : bool;
  status_label : str;
  (* the text of each field input *)
  field_inputs : gmap string str;
  full_text_display : str;
  (* the rows of the table *)
  results_table : list (list str);
  (* the data whose JSON text the preview shows, None when it is empty *)
  export_preview : option preview_data;
  current_tab : nat;
  (* the message boxes shown, oldest first *)
  dialogs : list dialog;
  (* the CSV files written: path and records *)
  saved : list (str * list (list str))
}.

(** Assignment to one attribute or widget. *)
Definition set_processed_invoices (v : list ocr_result) (a : app) : app :=
  App v (current_result a) (selected_file a) (worker a) (file_label a)
      (process_btn a) (progress_bar a) (status_label a) (field_inputs a)
      (full_text_display a) (results_table a) (export_preview a)
      (current_tab a) (dialogs a) (saved a).

Definition set_current_result (v : option ocr_result) (a : app) : app :=
  App (processed_invoices a) v (selected_file a) (worker a) (file_label a)
      (process_btn a) (progress_bar a) (status_label a) (field_inputs a)
      (full_text_display a) (results_table a) (export_preview a)
      (current_tab a) (dialogs a) (saved a).

Definition set_selected_file (v : option str) (a : app) : app :=
  App (processed_invoices a) (current_result a) v (worker a) (file_label a)
      (process_btn a) (progress_bar a) (status_label a) (field_inputs a)
      (full_text_display a) (results_table a) (export_preview a)
      (current_tab a) (dialogs a) (saved a).

Definition set_worker (v : option (str * str)) (a : app) : app :=
  App (processed_invoices a) (current_result a) (selected_file a) v
      (file_label a) (process_btn a) (progress_bar a) (status_label a)
      (field_inputs a) (full_text_display a) (results_table a)
      (export_preview a) (current_tab a) (dialogs a) (saved a).

Definition set_file_label (v : str) (a : app) : app :=
  App (processed_invoices a) (current_result a) (selected_file a) (worker a) v
      (process_btn a) (progress_bar a) (status_label a) (field_inputs a)
      (full_text_display a) (results_table a) (export_preview a)
      (current_tab a) (dialogs a) (saved a).

Definition set_process_btn (v : bool) (a : app) : app :=
  App (processed_invoices a) (current_result a) (selected_file a) (worker a)
      (file_label a) v (progress_bar a) (status_label a) (field_inputs a)
      (full_text_display a) (results_table a) (export_preview a)
      (current_tab a) (dialogs a) (saved a).

Definition set_progress_bar (v : bool) (a : app) : app :=
  App (processed_invoices a) (current_result a) (selected_file a) (worker a)
      (file_label a) (process_btn a) v (status_label a) (field_inputs a)
      (full_text_display a) (results_table a) (export_preview a)
      (current_tab a) (dialogs a) (saved a).

Definition set_status_label (v : str) (a : app) : app :=
  App (processed_invoices a) (current_result a) (selected_file a) (worker a)
      (file_label a) (process_btn a) (progress_bar a) v (field_inputs a)
      (full_text_display a) (results_table a) (export_preview a)
      (current_tab a) (dialogs a) (saved a).

Definition set_field_inputs (v : gmap string str) (a : app) : app :=
  App (processed_invoices a) (current_result a) (selected_file a) (worker a)
      (file_label a) (process_btn a) (progress_bar a) (status_label a) v
      (full_text_display a) (results_table a) (export_preview a)
      (current_tab a) (dialogs a) (saved a).

Definition set_full_text_display (v : str) (a : app) : app :=
  App (processed_invoices a) (current_result a) (selected_file a) (worker a)
      (file_label a) (process_btn a) (progress_bar a) (status_label a)
      (field_inputs a) v (results_table a) (export_preview a) (current_tab a)
      (dialogs a) (saved a).

Definition set_results_table (v : list (list str)) (a : app) : app :=
  App (processed_invoices a) (current_result a) (selected_file a) (worker a)
      (file_label a) (process_btn a) (progress_bar a) (status_label a)
      (field_inputs a) (full_text_display a) v (export_preview a)
      (current_tab a) (dialogs a) (saved a).

Definition set_export_preview (v : option preview_data) (a : app) : app :=
  App (processed_invoices a) (current_result a) (selected_file a) (worker a)
      (file_label a) (process_btn a) (progress_bar a) (status_label a)
      (field_inputs a) (full_text_display a) (results_table a) v
      (current_tab a) (dialogs a) (saved a).

Definition set_current_tab (v : nat) (a : app) : app :=
  App (processed_invoices a) (current_result a) (selected_file a) (worker a)
      (file_label a) (process_btn a) (progress_bar a) (status_label a)
      (field_inputs a) (full_text_display a) (results_table a)
      (export_preview a) v (dialogs a) (saved a).

Definition set_dialogs (v : list dialog) (a : app) : app :=
  App (processed_invoices a) (current_result a) (selected_file a) (worker a)
      (file_label a) (process_btn a) (progress_bar a) (status_label a)
      (field_inputs a) (full_text_display a) (results_table a)
      (export_preview a) (current_tab a) v (saved a).

Definition set_saved (v : list (str * list (list str))) (a : app) : app :=
  App (processed_invoices a) (current_result a) (selected_file a) (worker a)
      (file_label a) (process_btn a) (progress_bar a) (status_label a)
      (field_inputs a) (full_text_display a) (results_table a)
      (export_preview a) (current_tab a) (dialogs a) v.

(** What the system answers to the window. *)
Record gui_env := GuiEnv {
  (* os.path.basename *)
  basename : str → str;
  (* open(path, 'w'): the text of the exception when it raises *)
  open_error : str → option str;
  (* str(e) for the ValueError of the csv writer, from the offending keys *)
  value_error : gset string → str
}.

Definition txt_no_file : str := Eval cbv in lit "No file selected".
Definition txt_ready : str := Eval cbv in lit "Ready to process invoices".
Definition txt_warning : str := Eval cbv in lit "Warning".
Definition txt_select_first : str := Eval cbv in
  lit "Please select a file first!".
Definition txt_completed : str := Eval cbv in
  lit "Processing completed successfully!".
Definition txt_ocr_error : str := Eval cbv in lit "OCR Error".
Definition txt_error_occurred : str := Eval cbv in
  lit "An error occurred during processing:" ++ [nl].
Definition txt_failed : str := Eval cbv in lit "Processing failed!".
Definition txt_processed : str := Eval cbv in lit "Processed".
Definition txt_cleared : str := Eval cbv in
  lit "Results cleared. Ready to process invoices.".
Definition txt_no_data : str := Eval cbv in lit "No data to export!".
Definition txt_success : str := Eval cbv in lit "Success".
Definition txt_exported_to : str := Eval cbv in lit "Data exported to ".
Definition txt_export_error : str := Eval cbv in lit "Export Error".
Definition txt_failed_csv : str := Eval cbv in
  lit "Failed to export CSV:" ++ [nl].

(** Lines 409-420: the keys of the field inputs. *)
Definition field_input_keys : list string :=
  [ "invoice_number"; "invoice_date"; "due_date"; "vendor_name";
    "vendor_address"; "bill_to"; "currency"; "subtotal"; "tax_amount";
    "total_amount" ]%string.

(** Lines 631-633. *)
Definition fieldnames : list string :=
  [ "file_name"; "invoice_number"; "invoice_date"; "due_date"; "vendor_name";
    "vendor_address"; "bill_to"; "currency"; "subtotal"; "tax_amount";
    "total_amount" ]%string.

(** Lines 270-319: the window as built. *)
Definition init : app :=
  App [] None None None txt_no_file false false txt_ready
      (list_to_map (map (λ k, (k, [])) field_input_keys))
      [] [] None 0%nat [] [].

Section Window.
Variable G : gui_env.

(** Lines 512-521. *)
Definition select_file (chosen : str) (a : app) : app :=
  if truthy chosen then
    let a := set_file_label (basename G chosen) a in
    let a := set_selected_file (Some chosen) a in
    set_process_btn true a
  else a.

(** Lines 523-538. *)
Definition process_invoice (ocr_engine : str) (a : app) : app :=
  match selected_file a with
  | None =>
    set_dialogs (dialogs a ++ [Warning txt_warning txt_select_first]) a
  | Some path =>
    let a := set_process_btn false a in
    let a := set_progress_bar true a in
    set_worker (Some (path, ocr_engine)) a
  end.

(** [d.get(key, '')] *)
Definition get (d : gmap string str) (key : string) : str :=
  default [] (d !! key).

(** Lines 577-596: one more row. *)
Definition add_to_results_table (result : ocr_result) (a : app) : app :=
  let fields := fields result in
  let items :=
    [ basename G (file_path result);
      get fields "invoice_number"; get fields "invoice_date";
      get fields "vendor_name"; get fields "bill_to"; get fields "currency";
      get fields "subtotal"; get fields "tax_amount";
      get fields "total_amount"; txt_processed ] in
  set_results_table (results_table a ++ [items]) a.

(** Lines 676-688. *)
Definition update_export_preview (a : app) : app :=
  match last (processed_invoices a) with
  | None => a
  | Some result =>
    set_export_preview
      (Some (PreviewData (basename G (file_path result)) (fields result))) a
  end.

(** Lines 544-546: every field that has an input is shown in it. *)
Definition show_fields (fields inputs : gmap string str) : gmap string str :=
  filter (λ kv, kv.1 ∈ dom inputs) fields ∪ inputs.

(** Lines 540-566. *)
Definition on_ocr_finished (result : ocr_result) (a : app) : app :=
  let a := set_current_result (Some result) a in
  let a := set_field_inputs (show_fields (fields result) (field_inputs a)) a in
  let a := set_full_text_display (full_text result) a in
  let a := add_to_results_table result a in
  let a := set_processed_invoices (processed_invoices a ++ [result]) a in
  let a := update_export_preview a in
  let a := set_progress_bar false a in
  let a := set_process_btn true a in
  let a := set_status_label txt_completed a in
  set_current_tab 0%nat a.

(** Lines 568-572. *)
Definition on_ocr_error (error_msg : str) (a : app) : app :=
  let a := set_dialogs
             (dialogs a ++ [Critical txt_ocr_error
                                     (txt_error_occurred ++ error_msg)]) a in
  let a := set_progress_bar false a in
  let a := set_process_btn true a in
  set_status_label txt_failed a.

(** Lines 574-575. *)
Definition update_status (message : str) (a : app) : app :=
  set_status_label message a.

(** Lines 598-616. *)
Definition clear_results (a : app) : app :=
  let a := set_field_inputs ((λ _, []) <$> field_inputs a) a in
  let a := set_full_text_display [] a in
  let a := set_results_table [] a in
  let a := set_processed_invoices [] a in
  let a := set_export_preview None a in
  set_status_label txt_cleared a.

(** [csv.DictWriter._dict_to_list]: a key outside the field names raises
    ValueError; a missing one gives the empty string. *)
Definition dict_to_list (rowdict : gmap string str)
    : list str + gset string :=
  let wrong_fields := dom rowdict ∖ list_to_set fieldnames in
  if decide (wrong_fields = ∅)
  then inl (map (get rowdict) fieldnames)
  else inr wrong_fields.

(** Lines 638-641: the records written, and the keys that stopped the
    loop if any. *)
Fixpoint write_rows (invoices : list ocr_result) (records : list (list str))
    : list (list str) * option (gset string) :=
  match invoices with
  | [] => (records, None)
  | result :: rest =>
    let row := <["file_name" := basename G (file_path result)]>
                 (fields result) in
    match dict_to_list row with
    | inl cells => write_rows rest (records ++ [cells])
    | inr wrong_fields => (records, Some wrong_fields)
    end
  end.

(** The header row of [writeheader]. *)
Definition header : list str := map lit fieldnames.

(** Lines 618-645. *)
Definition export_csv (chosen : str) (a : app) : app :=
  if negb (truthy (processed_invoices a)) then
    set_dialogs (dialogs a ++ [Warning txt_warning txt_no_data]) a
  else if truthy chosen then
    match open_error G chosen with
    | Some e =>
      set_dialogs
        (dialogs a ++ [Critical txt_export_error (txt_failed_csv ++ e)]) a
    | None =>
      match write_rows (processed_invoices a) [header] with
      | (records, None) =>
        let a := set_saved (saved a ++ [(chosen, records)]) a in
        set_dialogs
          (dialogs a ++ [Information txt_success (txt_exported_to ++ chosen)])
          a
      | (records, Some wrong_fields) =>
        let a := set_saved (saved a ++ [(chosen, records)]) a in
        set_dialogs
          (dialogs a ++ [Critical txt_export_error
                           (txt_failed_csv ++ value_error G wrong_fields)]) a
      end
    end
  else a.

(** Lines 535-537: the slot of each signal of the worker. *)
Definition slot (s : signal) (a : app) : app :=
  match s with
  | Progress message => update_status message a
  | Finished result => on_ocr_finished result a
  | Error error_msg => on_ocr_error error_msg a
  end.

(** What can happen to the window. *)
Inductive event :=
| SelectFile (chosen : str)
| ProcessInvoice (ocr_engine : str)
| Signal (s : signal)
| ClearResults
| ExportCsv (chosen : str).

Definition handle (a : app) (ev : event) : app :=
  match ev with
  | SelectFile chosen => select_file chosen a
  | ProcessInvoice ocr_engine => process_invoice ocr_engine a
  | Signal s => slot s a
  | ClearResults => clear_results a
  | ExportCsv chosen => export_csv chosen a
  end.

End Window.

End InvoiceOCRApp.

(** * Properties *)

(** ** The matcher *)

(** The capturing group is the last item of the pattern. *)
Fixpoint ends_with_group (r : regex) : bool :=
  match r with
  | Grp _ => true
  | Seq _ r2 => ends_with_group r2
  | _ => false
  end.


(** *** What a match returns

    The continuation of a match receives the rest of the text and the
    characters read; read and rest together are the text the match began
    with, and the group, when it is the last item, holds the last
    characters read. *)

Lemma rep_inv {R} cs s : ∀ lo hi acc c (k : str → str → caps → option R) res,
  rep cs lo hi s acc c k = Some res →
  ∃ s1 acc1, k s1 acc1 c = Some res ∧ rev acc1 ++ s1 = rev acc ++ s.
Proof.
  induction s as [|x s IH]; intros lo hi acc c k res; simpl.
  - destruct (can_take hi), lo; eauto; discriminate.
  - destruct (can_take hi); [|destruct lo; [eauto | discriminate]].
    destruct (in_cset cs x); [|destruct lo; [eauto | discriminate]].
    destruct (rep cs (pred lo) (dec hi) s (x :: acc) c k) eqn:Hrec.
    + intros [= <-]. apply IH in Hrec as (s1 & acc1 & Hk & Heq).
      exists s1, acc1. split; [done|]. rewrite Heq. simpl.
      by rewrite <- (assoc_L (++)).
    + destruct lo; [eauto | discriminate].
Qed.

Lemma strip_prefix_app l : ∀ s s', strip_prefix l s = Some s' → s = l ++ s'.
Proof.
  induction l as [|x l IH]; intros s s'; simpl; [by intros [= ->]|].
  destruct s as [|y s]; [discriminate|].
  destruct (x =? y) eqn:Hxy; [|discriminate].
  apply N.eqb_eq in Hxy as ->. intros H. by rewrite (IH _ _ H).
Qed.

Lemma rmatch_inv {R} r : ∀ s acc c (k : str → str → caps → option R) res,
  rmatch r s acc c k = Some res →
  ∃ s1 acc1 c1, k s1 acc1 c1 = Some res ∧ rev acc1 ++ s1 = rev acc ++ s.
Proof.
  induction r as [l|cs|cs lo hi|r1 IH1|r1 IH1 r2 IH2|r1 IH1 r2 IH2|r1 IH1];
    intros s acc c k res; simpl.
  - destruct (strip_prefix l s) as [s'|] eqn:Hl; [|discriminate].
    apply strip_prefix_app in Hl as ->. intros H.
    exists s', (rev l ++ acc), c. split; [done|].
    by rewrite rev_app_distr, rev_involutive, <- (assoc_L (++)).
  - destruct s as [|x s]; [discriminate|].
    destruct (in_cset cs x); [|discriminate]. intros H.
    exists s, (x :: acc), c. split; [done|]. simpl.
    by rewrite <- (assoc_L (++)).
  - intros H. apply rep_inv in H as (s1 & acc1 & H & Heq). eauto.
  - destruct (rmatch r1 s acc c k) eqn:H1.
    + intros [= <-]. eapply IH1, H1.
    + eauto.
  - destruct (rmatch r1 s acc c k) eqn:H1.
    + intros [= <-]. eapply IH1, H1.
    + apply IH2.
  - intros H. apply IH1 in H as (s1 & acc1 & c1 & H & Heq1).
    apply IH2 in H as (s2 & acc2 & c2 & H & Heq2).
    exists s2, acc2, c2. split; [done|]. by rewrite Heq2.
  - intros H. apply IH1 in H as (s1 & acc1 & c1 & H & Heq1).
    exists s1, (acc1 ++ acc), (Some (rev acc1)). split; [done|].
    rewrite rev_app_distr, <- (assoc_L (++)), Heq1. done.
Qed.

Lemma rmatch_group_inv {R} r :
  ∀ s acc c (k : str → str → caps → option R) res,
  ends_with_group r = true →
  rmatch r s acc c k = Some res →
  ∃ s1 acc1 g u, k s1 acc1 (Some g) = Some res ∧
                 rev acc1 ++ s1 = rev acc ++ s ∧ rev acc1 = u ++ g.
Proof.
  induction r as [l|cs|cs lo hi|r1 IH1|r1 IH1 r2 IH2|r1 IH1 r2 IH2|r1 IH1];
    intros s acc c k res; simpl; try discriminate.
  - intros Hg H. apply rmatch_inv in H as (s1 & acc1 & c1 & H & Heq1).
    apply IH2 in H as (s2 & acc2 & g & u & H & Heq2 & Hu); [|done].
    exists s2, acc2, g, u. split; [done|]. split; [by rewrite Heq2 | done].
  - intros _ H. apply rmatch_inv in H as (s1 & acc1 & c1 & H & Heq1).
    exists s1, (acc1 ++ acc), (rev acc1), (rev acc). split; [done|].
    rewrite rev_app_distr. split; [|done].
    by rewrite <- (assoc_L (++)), Heq1.
Qed.

Lemma match_at_inv r s m :
  ends_with_group r = true → match_at r s = Some m →
  ∃ g u, group1 m = Some g ∧ group0 m = u ++ g ∧ group0 m ++ after m = s.
Proof.
  intros Hg H. apply rmatch_group_inv in H; [|done].
  destruct H as (s1 & acc1 & g & u & [= <-] & Heq & Hu). simpl.
  exists g, u. done.
Qed.

Lemma match_at_group1 r s m :
  ends_with_group r = true → match_at r s = Some m → is_Some (group1 m).
Proof.
  intros Hg H. destruct (match_at_inv _ _ _ Hg H) as (g & u & Hg1 & _).
  eauto.
Qed.

Lemma search_group1 r s m :
  ends_with_group r = true → search r s = Some m → is_Some (group1 m).
Proof.
  intros Hg. induction s as [|x s IH]; simpl.
  - destruct (match_at r []) eqn:H; [|discriminate].
    intros [= <-]. eapply match_at_group1; eauto.
  - destruct (match_at r (x :: s)) eqn:H; [|done].
    intros [= <-]. eapply match_at_group1; eauto.
Qed.

Lemma group1_str_ok e r s m :
  ends_with_group r = true → search r s = Some m →
  group1_str e m = Ok (default [] (group1 m)).
Proof.
  intros Hg H. destruct (search_group1 _ _ _ Hg H) as [g Hgrp].
  unfold group1_str. by rewrite Hgrp.
Qed.

(** A search skips the positions where the pattern has no match. *)
Lemma search_app r (pre s : str) :
  (∀ i, (i < length pre)%nat → match_at r (drop i (pre ++ s)) = None) →
  search r (pre ++ s) = search r s.
Proof.
  induction pre as [|x pre IH]; intros H; [done|].
  change ((x :: pre) ++ s) with (x :: (pre ++ s)).
  cbn [search]. pose proof (H 0%nat ltac:(simpl; lia)) as H0.
  rewrite drop_0 in H0. change ((x :: pre) ++ s) with (x :: (pre ++ s)) in H0.
  rewrite H0. apply IH. intros i Hi. apply (H (S i)). simpl. lia.
Qed.

Lemma search_here r s m : match_at r s = Some m → search r s = Some m.
Proof. intros H. destruct s; simpl; by rewrite H. Qed.

(** The match depends on its continuation through its values only. *)
Lemma rep_ext {R} cs s : ∀ lo hi acc c (k k' : str → str → caps → option R),
  (∀ s1 a1 c1, k s1 a1 c1 = k' s1 a1 c1) →
  rep cs lo hi s acc c k = rep cs lo hi s acc c k'.
Proof.
  induction s as [|x s IH]; intros lo hi acc c k k' Hk; simpl.
  - by rewrite (Hk [] acc c).
  - rewrite (IH (pred lo) (dec hi) (x :: acc) c k k' Hk).
    by rewrite (Hk (x :: s) acc c).
Qed.

Lemma rmatch_ext {R} r : ∀ s acc c (k k' : str → str → caps → option R),
  (∀ s1 a1 c1, k s1 a1 c1 = k' s1 a1 c1) →
  rmatch r s acc c k = rmatch r s acc c k'.
Proof.
  induction r as [l|cs|cs lo hi|r1 IH1|r1 IH1 r2 IH2|r1 IH1 r2 IH2|r1 IH1];
    intros s acc c k k' Hk; simpl.
  - destruct (strip_prefix l s); [apply Hk | done].
  - destruct s as [|x s]; [done|]. destruct (in_cset cs x); [apply Hk | done].
  - by apply rep_ext.
  - by rewrite (IH1 s acc c k k' Hk), Hk.
  - by rewrite (IH1 s acc c k k' Hk), (IH2 s acc c k k' Hk).
  - apply IH1. intros s1 a1 c1. by apply IH2.
  - apply IH1. intros s1 a1 c1. apply Hk.
Qed.

(** The match does not depend on the characters read so far when its
    continuation does not. *)
Lemma rep_acc {R} cs s : ∀ lo hi acc acc' c (k k' : str → str → caps → option R),
  (∀ s1 a1 a1' c1, k s1 a1 c1 = k' s1 a1' c1) →
  rep cs lo hi s acc c k = rep cs lo hi s acc' c k'.
Proof.
  induction s as [|x s IH]; intros lo hi acc acc' c k k' Hk; simpl.
  - by rewrite (Hk [] acc acc' c).
  - rewrite (IH (pred lo) (dec hi) (x :: acc) (x :: acc') c k k' Hk).
    by rewrite (Hk (x :: s) acc acc' c).
Qed.

Lemma rmatch_acc {R} r : ∀ s acc acc' c (k k' : str → str → caps → option R),
  (∀ s1 a1 a1' c1, k s1 a1 c1 = k' s1 a1' c1) →
  rmatch r s acc c k = rmatch r s acc' c k'.
Proof.
  induction r as [l|cs|cs lo hi|r1 IH1|r1 IH1 r2 IH2|r1 IH1 r2 IH2|r1 IH1];
    intros s acc acc' c k k' Hk; simpl.
  - destruct (strip_prefix l s); [apply Hk | done].
  - destruct s as [|x s]; [done|]. destruct (in_cset cs x); [apply Hk | done].
  - by apply rep_acc.
  - by rewrite (IH1 s acc acc' c k k' Hk), (Hk s acc acc' c).
  - by rewrite (IH1 s acc acc' c k k' Hk), (IH2 s acc acc' c k k' Hk).
  - apply IH1. intros s1 a1 a1' c1. by apply IH2.
  - apply rmatch_ext. intros s1 a1 c1. apply Hk.
Qed.

(** A greedy run: when the text begins with characters of the class and
    goes on with a character outside it (or ends), and the continuation
    accepts the whole run, so does the quantifier. *)
Definition ends_run (cs : cset) (rest : str) : bool :=
  match rest with
  | [] => true
  | x :: _ => negb (in_cset cs x)
  end.

Lemma rep_run {R} cs run : ∀ lo rest acc c (k : str → str → caps → option R) res,
  forallb (in_cset cs) run = true → (lo ≤ length run)%nat →
  ends_run cs rest = true →
  k rest (rev run ++ acc) c = Some res →
  rep cs lo None (run ++ rest) acc c k = Some res.
Proof.
  induction run as [|y run IH]; intros lo rest acc c k res Hrun Hlo Hend Hk.
  - simpl in Hlo. assert (lo = 0%nat) as -> by lia. simpl in Hk.
    destruct rest as [|x rest]; simpl; [done|].
    simpl in Hend. apply negb_true_iff in Hend. by rewrite Hend.
  - simpl in Hrun. apply andb_prop in Hrun as [Hy Hrun].
    cbn [app rep can_take dec]. rewrite Hy.
    rewrite (IH (pred lo) rest (y :: acc) c k res); try done.
    + simpl in Hlo. lia.
    + rewrite <- Hk. simpl. by rewrite <- (assoc_L (++)).
Qed.

(** Mapping the result of the continuation maps the result of the
    match. *)
Lemma rep_fmap {R T} (f : R → T) cs s :
  ∀ lo hi acc c (k : str → str → caps → option R),
  rep cs lo hi s acc c (λ s1 a1 c1, f <$> k s1 a1 c1) =
    f <$> rep cs lo hi s acc c k.
Proof.
  induction s as [|x s IH]; intros lo hi acc c k; simpl.
  - by destruct (can_take hi), lo.
  - destruct (can_take hi); [|by destruct lo].
    destruct (in_cset cs x); [|by destruct lo].
    rewrite IH. destruct (rep cs (pred lo) (dec hi) s (x :: acc) c k);
      [done | by destruct lo].
Qed.

Lemma rmatch_fmap {R T} (f : R → T) r :
  ∀ s acc c (k : str → str → caps → option R),
  rmatch r s acc c (λ s1 a1 c1, f <$> k s1 a1 c1) =
    f <$> rmatch r s acc c k.
Proof.
  induction r as [l|cs|cs lo hi|r1 IH1|r1 IH1 r2 IH2|r1 IH1 r2 IH2|r1 IH1];
    intros s acc c k; simpl.
  - by destruct (strip_prefix l s).
  - destruct s as [|x s]; [done|]. by destruct (in_cset cs x).
  - apply rep_fmap.
  - rewrite IH1. by destruct (rmatch r1 s acc c k).
  - rewrite IH1, IH2. by destruct (rmatch r1 s acc c k).
  - rewrite <- IH1. apply rmatch_ext. intros s1 a1 c1. apply IH2.
  - apply (IH1 s [] c (λ s1 acc1 _, k s1 (acc1 ++ acc) (Some (rev acc1)))).
Qed.

(** The shape of a match: the lengths of [group()] and of [group(1)]. *)
Definition shape (r : regex) (s : str) : option (nat * option nat) :=
  rmatch r s [] None (λ _ acc c, Some (length (rev acc), length <$> c)).

Lemma shape_match_at r s :
  shape r s =
    (λ m, (length (group0 m), length <$> group1 m)) <$> match_at r s.
Proof.
  unfold shape, match_at.
  by rewrite <- (rmatch_fmap (λ m, (length (group0 m), length <$> group1 m))).
Qed.

Lemma match_at_of_shape r s n0 n1 :
  ends_with_group r = true →
  shape r s = Some (n0, Some n1) →
  match_at r s =
    Some (MatchObj (take n0 s) (Some (drop (n0 - n1) (take n0 s))) (drop n0 s)).
Proof.
  intros Hg. rewrite shape_match_at.
  destruct (match_at r s) as [m|] eqn:Hm; [|discriminate].
  destruct (match_at_inv _ _ _ Hg Hm) as (g & u & Hg1 & Hu & Hs).
  destruct m as [g0 g1 aft]. simpl in *. subst g1. simpl.
  intros [= <- <-]. subst s. do 2 f_equal.
  - by rewrite take_app_length.
  - rewrite take_app_length. subst g0. rewrite length_app.
    replace (length u + length g - length g)%nat with (length u) by lia.
    by rewrite drop_app_length.
  - by rewrite drop_app_length.
Qed.

Lemma match_at_of_shape_none r s :
  shape r s = None → match_at r s = None.
Proof. rewrite shape_match_at. by destruct (match_at r s). Qed.

(** *** Texts that a pattern cannot tell apart

    When every character of one text passes the same tests of the
    pattern as the character at its place in the other, the matches on
    the two texts have the same shape. *)

Section Similar.
Variable sim : char → char → Prop.

Fixpoint respects (r : regex) : Prop :=
  match r with
  | Lit l => ∀ c c' x, sim c c' → x ∈ l → (x =? c) = (x =? c')
  | Cls cs | Rep cs _ _ => ∀ c c', sim c c' → in_cset cs c = in_cset cs c'
  | Opt r1 | Grp r1 => respects r1
  | Alt r1 r2 | Seq r1 r2 => respects r1 ∧ respects r2
  end.

(** Two continuations that agree on similar texts. *)
Definition agree {T} (k k' : str → str → caps → option T) : Prop :=
  ∀ s1 s1' a1 a1' c1 c1',
    Forall2 sim s1 s1' → length a1 = length a1' →
    length <$> c1 = length <$> c1' →
    k s1 a1 c1 = k' s1' a1' c1'.

Lemma rep_sim {T} cs (Hcs : ∀ c c', sim c c' → in_cset cs c = in_cset cs c')
    s s' :
  Forall2 sim s s' →
  ∀ lo hi acc acc' c c' (k k' : str → str → caps → option T),
    length acc = length acc' → length <$> c = length <$> c' → agree k k' →
    rep cs lo hi s acc c k = rep cs lo hi s' acc' c' k'.
Proof.
  induction 1 as [|x x' s s' Hx Hs IH]; intros lo hi acc acc' c c' k k' Ha Hc Hk.
  - simpl. destruct (can_take hi), lo; try done; by apply Hk.
  - simpl. rewrite <- (Hcs _ _ Hx).
    assert (Hstop : match lo with
                    | O => k (x :: s) acc c | S _ => None end =
                    match lo with
                    | O => k' (x' :: s') acc' c' | S _ => None end).
    { destruct lo; [|done]. apply Hk; [by constructor | done | done]. }
    destruct (can_take hi); [|done].
    destruct (in_cset cs x); [|done].
    rewrite (IH (pred lo) (dec hi) (x :: acc) (x' :: acc') c c' k k');
      [|simpl; lia|done|done].
    by rewrite Hstop.
Qed.

Lemma strip_prefix_sim l
    (Hl : ∀ c c' x, sim c c' → x ∈ l → (x =? c) = (x =? c')) :
  ∀ s s', Forall2 sim s s' →
    match strip_prefix l s, strip_prefix l s' with
    | Some t, Some t' => Forall2 sim t t'
    | None, None => True
    | _, _ => False
    end.
Proof.
  induction l as [|x l IH]; intros s s' Hs; simpl; [done|].
  destruct Hs as [|y y' s s' Hy Hs]; [done|].
  rewrite <- (Hl y y' x Hy) by apply list_elem_of_here.
  destruct (x =? y); [|done].
  apply IH; [|done]. intros c c' z Hc Hz. apply Hl; [done|].
  by apply list_elem_of_further.
Qed.

Lemma rmatch_sim {T} r : respects r →
  ∀ s s' acc acc' c c' (k k' : str → str → caps → option T),
    Forall2 sim s s' → length acc = length acc' →
    length <$> c = length <$> c' → agree k k' →
    rmatch r s acc c k = rmatch r s' acc' c' k'.
Proof.
  induction r as [l|cs|cs lo hi|r1 IH1|r1 IH1 r2 IH2|r1 IH1 r2 IH2|r1 IH1];
    intros Hr s s' acc acc' c c' k k' Hs Ha Hc Hk; simpl in *.
  - pose proof (strip_prefix_sim l Hr s s' Hs) as Hp.
    destruct (strip_prefix l s), (strip_prefix l s'); try done.
    apply Hk; [done| |done]. rewrite !length_app. lia.
  - destruct Hs as [|x x' s s' Hx Hs]; [done|].
    rewrite <- (Hr _ _ Hx). destruct (in_cset cs x); [|done].
    apply Hk; [done|simpl; lia|done].
  - by apply rep_sim.
  - rewrite (IH1 Hr s s' acc acc' c c' k k') by done.
    destruct (rmatch r1 s' acc' c' k'); [done|]. by apply Hk.
  - destruct Hr as [Hr1 Hr2].
    rewrite (IH1 Hr1 s s' acc acc' c c' k k') by done.
    destruct (rmatch r1 s' acc' c' k'); [done|]. by apply IH2.
  - destruct Hr as [Hr1 Hr2]. apply IH1; try done.
    intros s1 s1' a1 a1' c1 c1' Hs1 Ha1 Hc1. by apply IH2.
  - apply IH1; try done.
    intros s1 s1' a1 a1' c1 c1' Hs1 Ha1 Hc1. apply Hk; [done| |].
    + rewrite !length_app. lia.
    + simpl. by rewrite !length_rev, Ha1.
Qed.

Lemma shape_sim r s s' :
  respects r → Forall2 sim s s' → shape r s = shape r s'.
Proof.
  intros Hr Hs. unfold shape. apply rmatch_sim; try done.
  intros s1 s1' a1 a1' c1 c1' Hs1 Ha1 Hc1. by rewrite !length_rev, Ha1, Hc1.
Qed.

End Similar.

(** Similar for the tests of the classes [css]. *)
Definition simc (css : list cset) (c c' : char) : Prop :=
  Forall (λ cs, in_cset cs c = in_cset cs c') css.

Lemma simc_refl css c : simc css c c.
Proof. by apply Forall_forall. Qed.

Lemma simc_in css cs c c' :
  cs ∈ css → simc css c c' → in_cset cs c = in_cset cs c'.
Proof. intros Hin H. by apply (proj1 (Forall_forall _ _) H). Qed.

Lemma Forall2_simc_refl css s : Forall2 (simc css) s s.
Proof. induction s; constructor; [apply simc_refl | done]. Qed.

(** *** Scanning *)

Lemma findall_from_drop r n : ∀ s,
  (n ≤ length s)%nat → findall_from r n s = findall_from r 0 (drop n s).
Proof.
  induction n as [|n IH]; intros s Hn; [by rewrite drop_0|].
  destruct s as [|x s]; [simpl in Hn; lia|].
  cbn [findall_from drop]. apply IH. simpl in Hn. lia.
Qed.

Lemma findall_from_none r s :
  (∀ i, (i ≤ length s)%nat → match_at r (drop i s) = None) →
  findall_from r 0 s = [].
Proof.
  induction s as [|x s IH]; intros H.
  - cbn [findall_from]. pose proof (H 0%nat ltac:(simpl; lia)) as H0.
    rewrite drop_0 in H0. by rewrite H0.
  - cbn [findall_from]. pose proof (H 0%nat ltac:(simpl; lia)) as H0.
    rewrite drop_0 in H0. rewrite H0. apply IH.
    intros i Hi. apply (H (S i)). simpl. lia.
Qed.

Lemma findall_from_app r pre s :
  (∀ i, (i < length pre)%nat → match_at r (drop i (pre ++ s)) = None) →
  findall_from r 0 (pre ++ s) = findall_from r 0 s.
Proof.
  induction pre as [|x pre IH]; intros H; [done|].
  change ((x :: pre) ++ s) with (x :: (pre ++ s)).
  cbn [findall_from]. pose proof (H 0%nat ltac:(simpl; lia)) as H0.
  rewrite drop_0 in H0. change ((x :: pre) ++ s) with (x :: (pre ++ s)) in H0.
  rewrite H0. apply IH. intros i Hi. apply (H (S i)). simpl. lia.
Qed.

(** The pattern has a match that starts at position [i]. *)
Definition matches_at (r : regex) (s : str) (i : nat) : bool :=
  match match_at r (drop i s) with
  | Some _ => true
  | None => false
  end.

(** The pattern has a match that starts before position [n]. *)
Definition matches_before (r : regex) (s : str) (n : nat) : bool :=
  existsb (matches_at r s) (seq 0 n).

Lemma matches_before_spec r s n i :
  matches_before r s n = false → (i < n)%nat →
  match_at r (drop i s) = None.
Proof.
  unfold matches_before. intros H Hi.
  destruct (match_at r (drop i s)) eqn:Hm; [|done].
  apply not_true_iff_false in H. destruct H.
  apply existsb_exists. exists i. split; [apply in_seq; lia|].
  unfold matches_at. by rewrite Hm.
Qed.

(** The search finds the match at position [length a] when there is
    none before. *)
Lemma search_at r (a s : str) m :
  matches_before r (a ++ s) (length a) = false →
  match_at r s = Some m →
  search r (a ++ s) = Some m.
Proof.
  intros Hb Hm. rewrite search_app.
  - by apply search_here.
  - intros i Hi. by eapply matches_before_spec.
Qed.

(** A text with one match: nothing before it, nothing from its end on. *)
Lemma findall_single r pre s n n1 :
  ends_with_group r = true →
  (∀ i, (i < length pre)%nat → match_at r (drop i (pre ++ s)) = None) →
  shape r s = Some (n, Some n1) → (0 < n ≤ length s)%nat →
  (∀ i, (n ≤ i ≤ length s)%nat → match_at r (drop i s) = None) →
  findall r (pre ++ s) = [drop (n - n1) (take n s)].
Proof.
  intros Hg Hpre Hshape Hn Hpost. unfold findall.
  rewrite findall_from_app by done.
  pose proof (match_at_of_shape _ _ _ _ Hg Hshape) as Hm.
  destruct s as [|x s]; [simpl in Hn; lia|].
  cbn [findall_from]. rewrite Hm. cbn [group0 group1 default from_option id].
  f_equal. rewrite length_take, Nat.min_l by lia.
  rewrite findall_from_drop by (simpl in Hn; lia).
  apply findall_from_none. intros i Hi. rewrite drop_drop.
  pose proof (Hpost (S (pred n + i))) as Hp.
  rewrite length_drop in Hi. simpl in Hn.
  cbn [drop] in Hp. apply Hp. simpl. lia.
Qed.

Lemma findall_nowhere r s :
  (∀ i, (i ≤ length s)%nat → match_at r (drop i s) = None) →
  findall r s = [].
Proof. apply findall_from_none. Qed.

(** ** The steps of the extractor

    Each step either leaves the dictionary as it is or assigns one of
    its keys; [upd] is that assignment, and the functions below give the
    value each step assigns. *)

Definition upd (k : string) (o : option str) (f : gmap string str)
    : gmap string str :=
  match o with
  | Some v => <[k := v]> f
  | None => f
  end.

Definition field_names : list string :=
  [ "invoice_number"; "invoice_date"; "due_date"; "vendor_name";
    "vendor_address"; "bill_to"; "total_amount"; "subtotal"; "tax_amount";
    "currency" ]%string.

Lemma lookup_upd_ne k k' o (f : gmap string str) :
  k ≠ k' → upd k o f !! k' = f !! k'.
Proof. intros Hne. destruct o; simpl; [by rewrite lookup_insert_ne | done]. Qed.

Lemma lookup_upd_eq k o (f : gmap string str) :
  upd k o f !! k = match o with Some v => Some v | None => f !! k end.
Proof. destruct o; simpl; [by rewrite lookup_insert_eq | done]. Qed.

Lemma dom_upd k o (f : gmap string str) :
  k ∈ dom f → dom (upd k o f) = dom f.
Proof.
  intros Hk. destruct o; simpl; [|done].
  rewrite dom_insert_L. apply subseteq_union_1_L, singleton_subseteq_l, Hk.
Qed.

(** The accepted form of a captured amount. *)
Definition accepted (g : str) : option str :=
  let amount := sub_cset strip_cs g in
  if isdigit (remove_char 46 amount) then Some amount else None.

Fixpoint first_token (patterns : list regex) (text_upper : str) : option str :=
  match patterns with
  | [] => None
  | pattern :: rest =>
    match search pattern text_upper with
    | Some m => Some (strip (default [] (group1 m)))
    | None => first_token rest text_upper
    end
  end.

Definition amount_of (pattern : regex) (text_upper : str) : option str :=
  match search pattern text_upper with
  | Some m => accepted (default [] (group1 m))
  | None => None
  end.

Fixpoint first_amount (patterns : list regex) (text_upper : str) : option str :=
  match patterns with
  | [] => None
  | pattern :: rest =>
    match amount_of pattern text_upper with
    | Some amount => Some amount
    | None => first_amount rest text_upper
    end
  end.

Fixpoint bill_to_collect (text_lines : list str) (idxs : list nat)
    (bill_to_lines : list str) : list str :=
  match idxs with
  | [] => bill_to_lines
  | i :: rest =>
    let line := default ([] : str) (text_lines !! i) in
    if truthy (strip line)
    then bill_to_collect text_lines rest (bill_to_lines ++ [strip line])
    else bill_to_lines
  end.

Definition bill_to_of (text_lines : list str) : option str :=
  match bill_to_start_from 0 text_lines with
  | Some start =>
    Some (join space_str
            (bill_to_collect text_lines
               (range (start + 1) (Nat.min (start + 6) (length text_lines)))
               []))
  | None => None
  end.

Definition currency_of (text_upper : str) : option str :=
  match search currency_pattern text_upper with
  | Some m => Some (dict_get currency_symbols (group0 m) (group0 m))
  | None => None
  end.

Lemma invoice_number_loop_eq patterns text_upper f :
  forallb ends_with_group patterns = true →
  invoice_number_loop patterns text_upper f =
    Ok (upd "invoice_number" (first_token patterns text_upper) f).
Proof.
  induction patterns as [|p ps IH]; simpl; [done|].
  intros [Hp Hps]%andb_prop.
  destruct (search p text_upper) as [m|] eqn:Hs; [|auto].
  by rewrite (group1_str_ok _ _ _ _ Hp Hs).
Qed.

Lemma clean_amount_eq r s m :
  ends_with_group r = true → search r s = Some m →
  clean_amount m = Ok (accepted (default [] (group1 m))).
Proof.
  intros Hg Hs. unfold clean_amount.
  by rewrite (group1_str_ok _ _ _ _ Hg Hs).
Qed.

Lemma total_amount_loop_eq patterns text_upper f :
  forallb ends_with_group patterns = true →
  total_amount_loop patterns text_upper f =
    Ok (upd "total_amount" (first_amount patterns text_upper) f).
Proof.
  induction patterns as [|p ps IH]; simpl; [done|].
  intros [Hp Hps]%andb_prop. unfold amount_of.
  destruct (search p text_upper) as [m|] eqn:Hs; [|auto].
  rewrite (clean_amount_eq _ _ _ Hp Hs). simpl.
  destruct (accepted _); [done | auto].
Qed.

Lemma set_amount_eq key pattern text_upper f :
  ends_with_group pattern = true →
  set_amount key pattern text_upper f =
    Ok (upd key (amount_of pattern text_upper) f).
Proof.
  intros Hp. unfold set_amount, amount_of.
  destruct (search pattern text_upper) as [m|] eqn:Hs; [|done].
  rewrite (clean_amount_eq _ _ _ Hp Hs). simpl.
  by destruct (accepted _).
Qed.

Lemma set_dates_eq found f :
  set_dates found f =
    Ok (match found with
        | [] => f
        | d0 :: rest =>
          <["due_date" := nth 0 rest []]> (<["invoice_date" := d0]> f)
        end).
Proof. destruct found as [|d0 [|d1 rest]]; reflexivity. Qed.

Lemma set_vendor_eq vendor_lines f :
  set_vendor vendor_lines f =
    Ok (match vendor_lines with
        | [] => f
        | name :: rest =>
          <["vendor_address" := join space_str rest]>
            (<["vendor_name" := name]> f)
        end).
Proof. destruct vendor_lines; reflexivity. Qed.

Lemma bill_to_loop_eq text_lines idxs : ∀ acc,
  Forall (λ i, (i < length text_lines)%nat) idxs →
  bill_to_loop text_lines idxs acc = Ok (bill_to_collect text_lines idxs acc).
Proof.
  induction idxs as [|i idxs IH]; intros acc Hall; [done|].
  inversion Hall as [|? ? Hi Hrest]; subst.
  destruct (lookup_lt_is_Some_2 _ _ Hi) as [line Hline].
  cbn [bill_to_loop bill_to_collect]. unfold index. rewrite Hline.
  cbn [rbind default from_option id]. destruct (truthy (strip line)); [by apply IH | done].
Qed.

Lemma range_lt a b n : (b ≤ n)%nat → Forall (λ i, (i < n)%nat) (range a b).
Proof.
  intros Hb. apply Forall_forall. intros i Hi%list_elem_of_In.
  unfold range in Hi. apply in_seq in Hi. lia.
Qed.

Lemma set_bill_to_eq text_lines f :
  set_bill_to text_lines f = Ok (upd "bill_to" (bill_to_of text_lines) f).
Proof.
  unfold set_bill_to, bill_to_of.
  destruct (bill_to_start_from 0 text_lines) as [start|]; [|done].
  rewrite bill_to_loop_eq; [done|]. apply range_lt. lia.
Qed.

Lemma set_currency_eq text_upper f :
  set_currency text_upper f = upd "currency" (currency_of text_upper) f.
Proof.
  unfold set_currency, currency_of. by destruct (search _ _).
Qed.

(** The dictionary that [extract_invoice_fields] returns. *)
Definition fields_of (text : str) : gmap string str :=
  let text_lines := split nl text in
  let text_upper := upper text in
  let f := upd "invoice_number" (first_token invoice_patterns text_upper)
               fields_init in
  let f := match dates_found text with
           | [] => f
           | d0 :: rest =>
             <["due_date" := nth 0 rest []]> (<["invoice_date" := d0]> f)
           end in
  let f := match vendor_loop (take 10 text_lines) [] with
           | [] => f
           | name :: rest =>
             <["vendor_address" := join space_str rest]>
               (<["vendor_name" := name]> f)
           end in
  let f := upd "bill_to" (bill_to_of text_lines) f in
  let f := upd "currency" (currency_of text_upper) f in
  let f := upd "total_amount"
             (first_amount (take 2 amount_patterns) text_upper) f in
  let f := upd "subtotal"
             (amount_of (nth 2 amount_patterns (Lit [])) text_upper) f in
  upd "tax_amount" (amount_of (nth 3 amount_patterns (Lit [])) text_upper) f.

(** The extractor raises on no text. *)
Lemma extract_invoice_fields_eq text :
  extract_invoice_fields text = Ok (fields_of text).
Proof.
  unfold extract_invoice_fields, fields_of.
  rewrite invoice_number_loop_eq by reflexivity. cbn [rbind].
  rewrite set_dates_eq. cbn [rbind].
  rewrite set_vendor_eq. cbn [rbind].
  rewrite set_bill_to_eq. cbn [rbind]. rewrite set_currency_eq.
  rewrite total_amount_loop_eq by reflexivity. cbn [rbind].
  change (index amount_patterns 2) with (Ok (nth 2 amount_patterns (Lit []))).
  cbn [rbind]. rewrite set_amount_eq by reflexivity. cbn [rbind].
  change (index amount_patterns 3) with (Ok (nth 3 amount_patterns (Lit []))).
  cbn [rbind]. rewrite set_amount_eq by reflexivity.
  reflexivity.
Qed.

(** ** The dictionary of fields *)

Lemma dom_fields_init : dom fields_init = list_to_set field_names.
Proof.
  unfold fields_init, field_names. rewrite !dom_insert_L, dom_empty_L.
  simpl. set_solver.
Qed.


Lemma dom_insert_keep (K : gset string) k (v : str) (f : gmap string str) :
  k ∈ K → dom f = K → dom (<[k := v]> f) = K.
Proof.
  intros Hk <-. rewrite dom_insert_L.
  by apply subseteq_union_1_L, singleton_subseteq_l.
Qed.

Lemma dom_upd_keep (K : gset string) k o (f : gmap string str) :
  k ∈ K → dom f = K → dom (upd k o f) = K.
Proof. intros Hk <-. by apply dom_upd. Qed.

Lemma dom_fields_of text : dom (fields_of text) = list_to_set field_names.
Proof.
  unfold fields_of.
  repeat (apply dom_upd_keep; [unfold field_names; set_solver |]).
  destruct (vendor_loop _ _);
    repeat (apply dom_insert_keep; [unfold field_names; set_solver |]);
    (destruct (dates_found text);
     repeat (apply dom_insert_keep; [unfold field_names; set_solver |]);
     (apply dom_upd_keep; [unfold field_names; set_solver |]);
     apply dom_fields_init).
Qed.

(** C1. On every text the extractor returns a dictionary (it raises on
    none); its keys are exactly the ten field names, and every one of
    them is bound to a string. *)
Theorem extract_invoice_fields_total_ten_keys (text : str) :
  ∃ flds : gmap string str,
    extract_invoice_fields text = Ok flds ∧
    dom flds = list_to_set field_names ∧
    length field_names = 10%nat ∧ NoDup field_names ∧
    ∀ k, k ∈ field_names → ∃ v : str, flds !! k = Some v.
Proof.
  exists (fields_of text). split; [apply extract_invoice_fields_eq|].
  split; [apply dom_fields_of|]. split; [reflexivity|].
  split; [apply (bool_decide_unpack (NoDup field_names)); vm_compute; exact I|].
  intros k Hk. apply elem_of_dom. rewrite dom_fields_of.
  by apply elem_of_list_to_set.
Qed.

(** [extract_invoice_fields(text)[k]]; [None] would mean that the call
    raised or that the key is missing. *)
Definition extracted (text : str) (k : string) : option str :=
  match extract_invoice_fields text with
  | Ok flds => flds !! k
  | Raise _ => None
  end.

Lemma extracted_eq text k : extracted text k = fields_of text !! k.
Proof. unfold extracted. by rewrite extract_invoice_fields_eq. Qed.

(** The theorem at the text TOTAL: 5 and the key currency. *)
Lemma extract_invoice_fields_total_ten_keys_witness :
  ∃ v, extracted (lit "TOTAL: 5") "currency" = Some v.
Proof.
  destruct (extract_invoice_fields_total_ten_keys (lit "TOTAL: 5"))
    as (flds & Hok & _ & _ & _ & Hall).
  destruct (Hall "currency") as [v Hv].
  - unfold field_names. rewrite !elem_of_cons. auto 20.
  - exists v. unfold extracted. rewrite Hok. exact Hv.
Defined.

Ltac peel :=
  repeat first
    [ rewrite lookup_upd_ne by done
    | rewrite lookup_insert_ne by done
    | match goal with
      | |- context [match ?x with [] => _ | _ :: _ => _ end] => destruct x
      end ].

Lemma extracted_invoice_number text :
  extracted text "invoice_number" =
    Some (default [] (first_token invoice_patterns (upper text))).
Proof.
  rewrite extracted_eq. unfold fields_of. peel;
    rewrite lookup_upd_eq; by destruct (first_token _ _).
Qed.

Lemma extracted_dates text :
  extracted text "invoice_date" = Some (nth 0 (dates_found text) []) ∧
  extracted text "due_date" = Some (nth 1 (dates_found text) []).
Proof.
  rewrite !extracted_eq. unfold fields_of.
  destruct (dates_found text) as [|d0 rest]; split; peel;
    rewrite ?lookup_insert_eq; try done;
    rewrite ?lookup_upd_ne by done; done.
Qed.

Lemma extracted_total_amount text :
  extracted text "total_amount" =
    Some (default [] (first_amount (take 2 amount_patterns) (upper text))).
Proof.
  rewrite extracted_eq. unfold fields_of. peel;
    rewrite lookup_upd_eq; destruct (first_amount _ _); try done; peel; done.
Qed.

Lemma dates_found_app text :
  dates_found text =
    findall (nth 0 date_patterns (Lit [])) text ++
    findall (nth 1 date_patterns (Lit [])) text ++
    findall (nth 2 date_patterns (Lit [])) text.
Proof. unfold dates_found. simpl. by rewrite app_nil_r. Qed.

(** ** Dates *)




(** ** The total amount *)

Definition pat_total : regex := nth 0 amount_patterns (Lit []).
Definition pat_amount_due : regex := nth 1 amount_patterns (Lit []).

(** The claim as the specification words it: AMOUNT DUE is consulted only
    when TOTAL has no match, and a matched token that fails the digit
    test leaves the field empty. *)
Definition spec_total_amount (text_upper : str) : str :=
  match search pat_total text_upper with
  | Some m => default [] (accepted (default [] (group1 m)))
  | None =>
    match search pat_amount_due text_upper with
    | Some m => default [] (accepted (default [] (group1 m)))
    | None => []
    end
  end.

(** C4, as stated, fails: a TOTAL line whose token is a lone comma is a
    match that fails the digit test, and the AMOUNT DUE line is then
    still consulted. *)
Lemma total_amount_spec_counterexample :
  ¬ (∀ text : str,
       extracted text "total_amount" = Some (spec_total_amount (upper text))).
Proof.
  intros H.
  specialize (H (lit "TOTAL, INCL VAT" ++ [nl] ++ lit "AMOUNT DUE: 50")).
  vm_compute in H. discriminate H.
Qed.

(** C4, amended.  For a text of the alphabet, total_amount is the
    accepted amount of the TOTAL pattern; when TOTAL has no match, or its
    token fails the digit test, it is the accepted amount of the AMOUNT
    DUE pattern; otherwise it stays empty.  A token is accepted, stripped
    of currency symbols, commas and whitespace, when what is left without
    its decimal points is a non-empty run of digits. *)
Theorem total_amount_first_accepted :
  (∀ text : str,
     covered text = true →
     extracted text "total_amount" =
       Some match amount_of pat_total (upper text) with
            | Some amount => amount
            | None =>
              match amount_of pat_amount_due (upper text) with
              | Some amount => amount
              | None => []
              end
            end) ∧
  (∀ (pattern : regex) (text : str),
     covered text = true →
     amount_of pattern (upper text) =
       match search pattern (upper text) with
       | Some m =>
         let amount := sub_cset strip_cs (default [] (group1 m)) in
         if isdigit (remove_char 46 amount) then Some amount else None
       | None => None
       end) ∧
  extracted (lit "TOTAL: £1,234.56") "total_amount" = Some (lit "1234.56") ∧
  extracted (lit "TOTAL: N/A") "total_amount" = Some [] ∧
  extracted (lit "TOTAL, INCL VAT" ++ [nl] ++ lit "AMOUNT DUE: 50")
    "total_amount" = Some (lit "50").
Proof.
  split; [|split; [reflexivity|repeat split; vm_compute; reflexivity]].
  intros text _. rewrite extracted_total_amount.
  change (take 2 amount_patterns) with [pat_total; pat_amount_due].
  cbn [first_amount].
  destruct (amount_of pat_total (upper text)); [done|].
  by destruct (amount_of pat_amount_due (upper text)).
Qed.

(** The theorem at a text in which the word TOTAL is followed by no
    number. *)
Definition text_total_due : str := Eval cbv in
  lit "Total due: n/a" ++ [nl] ++ lit "Amount due: £75.00".

Lemma total_amount_first_accepted_witness :
  covered text_total_due = true ∧
  extracted text_total_due "total_amount" = Some (lit "75.00").
Proof.
  split; [reflexivity|].
  rewrite (proj1 total_amount_first_accepted text_total_due eq_refl).
  vm_compute. reflexivity.
Defined.

(** ** The worker *)

Section WorkerFacts.
Variable E : env.

(** Every signal is delivered. *)
Definition delivers : Prop := ∀ s, emit_ok E s = true.

Lemma emit_delivered s w :
  delivers →
  emit E s w = (Ok tt, World (files w) (signals w ++ [s]) (trace w)).
Proof. intros H. unfold emit. by rewrite H. Qed.


Definition temp_paths (first count : nat) : list str :=
  map temp_path (seq first count).

Definition is_written (o : write_outcome) : bool :=
  match o with Written => true | _ => false end.

(** Lines 82-92 from page [n] on: every page is rendered and written. *)
Fixpoint all_done (pages : list bool) (n : nat) : bool :=
  match pages with
  | [] => true
  | rendered :: rest =>
    rendered && is_written (file_write E (temp_path n)) &&
    all_done rest (S n)
  end.

(** The files the loop creates from page [n] on, up to the page at which
    it stops. *)
Fixpoint created (pages : list bool) (n : nat) : list str :=
  match pages with
  | true :: rest =>
    match file_write E (temp_path n) with
    | Written => temp_path n :: created rest (S n)
    | OpenFails => []
    | WriteFails => [temp_path n]
    end
  | _ => []
  end.

Lemma render_pages_eq pages : ∀ n images w,
  render_pages E pages n images w =
    (if all_done pages n
     then Ok (images ++ temp_paths n (length pages))
     else Raise RuntimeError,
     World (list_to_set (created pages n) ∪ files w) (signals w) (trace w)).
Proof.
  unfold temp_paths.
  induction pages as [|[] pages IH]; intros n images w.
  - simpl. rewrite app_nil_r, (left_id_L ∅ (∪)). by destruct w.
  - cbn [render_pages all_done created andb]. unfold bind at 1.
    unfold write_file at 1.
    destruct (file_write E (temp_path n)); cbn [is_written].
    + rewrite IH. cbn [files signals trace length seq map list_to_set].
      rewrite <- (assoc_L (++)). cbn [app].
      by rewrite (assoc_L (∪)), (comm_L (∪) _ {[temp_path n]}).
    + cbn [list_to_set]. rewrite (left_id_L ∅ (∪)). by destruct w.
    + cbn [list_to_set]. by rewrite (right_id_L ∅ (∪)).
  - simpl. rewrite (left_id_L ∅ (∪)). by destruct w.
Qed.

(** The page images [pdf_to_images] returns, and the files it writes. *)
Definition rasterized (pdf_path : str) : list str :=
  match fitz_open E pdf_path with
  | Some pages =>
    if all_done pages 0 then temp_paths 0 (length pages) else []
  | None => []
  end.

Definition written (pdf_path : str) : gset str :=
  match fitz_open E pdf_path with
  | Some pages => list_to_set (created pages 0)
  | None => ∅
  end.

Lemma pdf_to_images_eq pdf_path w :
  pdf_to_images E pdf_path w =
    (Ok (rasterized pdf_path),
     World (written pdf_path ∪ files w) (signals w)
           (trace w ++ [Rasterize pdf_path])).
Proof.
  unfold pdf_to_images, rasterized, written, bind, record, try_except.
  destruct (fitz_open E pdf_path) as [pages|].
  - rewrite render_pages_eq. cbn [files signals trace].
    by destruct (all_done pages 0).
  - unfold lift, ret. cbn [files signals trace].
    by rewrite (left_id_L ∅ (∪)).
Qed.






(** The text the chosen adapter returns. *)
Definition ocr_text (ocr_engine image_path : str) : str :=
  if str_eqb ocr_engine tesseract then
    if cv2_imread E image_path then
      match image_to_string E image_path with
      | Some text => strip text
      | None => []
      end
    else []
  else
    match readtext E image_path with
    | Some results =>
      join [nl] (map fst (filter (fun r => snd r = true) results))
    | None => []
    end.

Definition engine_name (ocr_engine : str) : str :=
  if str_eqb ocr_engine tesseract
  then tesseract else easyocr.

Lemma recognize_eq ocr_engine image_path w :
  (if str_eqb ocr_engine tesseract
   then extract_text_tesseract E image_path
   else extract_text_easyocr E image_path) w =
    (Ok (ocr_text ocr_engine image_path),
     World (files w) (signals w)
           (trace w ++ [Recognize (engine_name ocr_engine) image_path])).
Proof.
  unfold ocr_text, engine_name.
  destruct (str_eqb ocr_engine tesseract).
  - unfold extract_text_tesseract, bind, record, try_except, lift, ret.
    cbn [files signals trace].
    destruct (cv2_imread E image_path); [|done].
    by destruct (image_to_string E image_path).
  - unfold extract_text_easyocr, bind, record, try_except, lift, ret.
    cbn [files signals trace].
    by destruct (readtext E image_path).
Qed.


End WorkerFacts.

Section RunFacts.
Variable E : env.

Lemma os_remove_swallowed img_path w :
  try_except (os_remove E img_path) (fun _ => ret tt) w =
    (Ok tt,
     World (if os_remove_ok E img_path then files w ∖ {[img_path]} else files w)
           (signals w) (trace w ++ [Remove img_path])).
Proof.
  unfold try_except, os_remove, bind, record, ret. cbn [files signals trace].
  destruct (os_remove_ok E img_path); [|done]. cbn [andb].
  case_bool_decide as Hin; [done|].
  do 2 f_equal. symmetry. apply difference_disjoint_L. set_solver.
Qed.

(** Lines 261-265: every file that can be removed is removed, failures
    are swallowed, and the loop itself never raises. *)
Lemma cleanup_eq images : ∀ w,
  cleanup E images w =
    (Ok tt,
     World (files w ∖ list_to_set (filter (λ p, os_remove_ok E p = true) images))
           (signals w) (trace w ++ map Remove images)).
Proof.
  induction images as [|p images IH]; intros w.
  - simpl. unfold ret. rewrite app_nil_r, difference_empty_L. by destruct w.
  - cbn [cleanup]. unfold bind at 1. rewrite os_remove_swallowed.
    rewrite IH. cbn [files signals trace map].
    rewrite <- (assoc_L (++)). cbn [app]. do 2 f_equal.
    rewrite filter_cons. destruct (os_remove_ok E p) eqn:Hp.
    + rewrite decide_True by done. rewrite list_to_set_cons.
      by rewrite difference_difference_l_L.
    + by rewrite decide_False by done.
Qed.


End RunFacts.

Lemma run_empty_delivered E path ocr_engine w :
  delivers E → is_pdf path = true → rasterized E path = [] →
  run E path ocr_engine w =
    (Ok tt,
     World (written E path ∪ files w)
           (signals w ++
            [Progress msg_start; Progress msg_convert; Error msg_no_pages])
           (trace w ++ [Rasterize path])).
Proof.
  intros Hd Hpdf Hras. unfold run, try_except, run_body. rewrite Hpdf.
  unfold bind at 1. rewrite emit_delivered by done.
  unfold bind at 1. rewrite emit_delivered by done.
  unfold bind at 1. rewrite pdf_to_images_eq, Hras.
  cbn [truthy negb files signals trace].
  rewrite emit_delivered by done. cbn [files signals trace].
  by rewrite <- !(assoc_L (++)).
Qed.

(** *** Some environments *)

Definition invoice_pdf : str := Eval cbv in lit "invoice.pdf".
Definition world0 : world := World ∅ [] [].

(** A PDF of two pages whose second page cannot be rendered. *)
Definition env_corrupt_page : env :=
  Env (λ _, Some [true; false]) (λ _, Written) (λ _, true) (λ _, Some [])
      (λ _, Some []) (λ _, true) (λ _, true).

(** A PDF of two sound pages, and a [finished] signal that cannot be
    delivered. *)
Definition env_finished_lost : env :=
  Env (λ _, Some [true; true]) (λ _, Written) (λ _, true) (λ _, Some [])
      (λ _, Some []) (λ _, true)
      (λ s, match s with Finished _ => false | _ => true end).

(** A PDF of two sound pages, every call succeeding. *)
Definition env_sound : env :=
  Env (λ _, Some [true; true]) (λ _, Written) (λ _, true) (λ _, Some [])
      (λ _, Some []) (λ _, true) (λ _, true).

Definition scan_pdf : str := Eval cbv in lit "scan.PDF".

(** A PDF that opens and has no page, every call succeeding. *)
Definition env_no_pages : env :=
  Env (λ _, Some []) (λ _, Written) (λ _, true) (λ _, Some [])
      (λ _, Some []) (λ _, true) (λ _, true).

Definition is_attempt (c : call) : bool :=
  match c with
  | Recognize _ _ | ExtractFields _ => true
  | _ => false
  end.

(** C6. A PDF whose rasterization gives no page: the run ends with the
    error signal "Failed to convert PDF to images", after the two
    progress signals, and the only component called is the rasterizer;
    even when signals cannot be delivered, neither text recognition nor
    field extraction is called. *)
Theorem empty_rasterization_fails (E : env) (path ocr_engine : str) (w : world) :
  is_pdf path = true →
  (pdf_to_images E path w).1 = Ok [] →
  let w' := (run E path ocr_engine w).2 in
  (∃ calls, trace w' = trace w ++ calls ∧ existsb is_attempt calls = false) ∧
  (delivers E →
   (run E path ocr_engine w).1 = Ok tt ∧
   signals w' = signals w ++
     [Progress msg_start; Progress msg_convert; Error msg_no_pages] ∧
   trace w' = trace w ++ [Rasterize path]).
Proof.
  intros Hpdf Hras. rewrite pdf_to_images_eq in Hras. simpl in Hras.
  injection Hras as Hras. intros w'. split.
  - subst w'. unfold run, try_except, run_body. rewrite Hpdf.
    unfold bind at 1. unfold emit at 1.
    destruct (emit_ok E (Progress _)).
    2:{ unfold emit. destruct (emit_ok E (Error _)); simpl;
        exists []; by rewrite app_nil_r. }
    unfold bind at 1. unfold emit at 1. cbn [files signals trace].
    destruct (emit_ok E (Progress msg_convert)).
    2:{ unfold emit. destruct (emit_ok E (Error _)); simpl;
        exists []; by rewrite app_nil_r. }
    unfold bind at 1. rewrite pdf_to_images_eq, Hras.
    cbn [truthy negb files signals trace].
    unfold emit at 1.
    destruct (emit_ok E (Error msg_no_pages)).
    + simpl. by exists [Rasterize path].
    + unfold emit. cbn [files signals trace].
      destruct (emit_ok E (Error _)); simpl; by exists [Rasterize path].
  - intros Hd. subst w'.
    rewrite (run_empty_delivered E path ocr_engine w Hd Hpdf Hras).
    by cbn [fst snd signals trace].
Qed.

(** The theorem at a PDF that opens and has no page. *)
Lemma empty_rasterization_fails_witness :
  signals (run env_no_pages scan_pdf tesseract world0).2 =
    [Progress msg_start; Progress msg_convert; Error msg_no_pages] ∧
  trace (run env_no_pages scan_pdf tesseract world0).2 = [Rasterize scan_pdf].
Proof.
  pose proof (empty_rasterization_fails env_no_pages scan_pdf tesseract world0
                eq_refl eq_refl) as [_ H].
  destruct (H (λ _, eq_refl)) as (_ & Hs & Ht). split; assumption.
Defined.





(** ** Temporary page images *)


Definition on_disk (p : str) (w : world) : bool := bool_decide (p ∈ files w).

Definition removals (w : world) : list str :=
  flat_map (λ c, match c with Remove p => [p] | _ => [] end) (trace w).

(** C2 does not hold of the code.  The page images are removed at the
    end of the [try] block only: a run that ends with [finished]
    removes them, but a run that leaves through the early [return]
    (here after the first page was written and the second failed) or
    through the [except] handler (here when emitting [finished] raises)
    removes nothing, and the page images stay on disk. *)
Theorem temp_images_left_on_failure :
  let w1 := (run env_corrupt_page invoice_pdf tesseract world0).2 in
  let w2 := (run env_finished_lost invoice_pdf tesseract world0).2 in
  let w3 := (run env_sound invoice_pdf tesseract world0).2 in
  (last (signals w1) = Some (Error msg_no_pages) ∧
   on_disk (temp_path 0) w1 = true ∧ removals w1 = []) ∧
  (last (signals w2) = Some (Error (msg_failed RuntimeError)) ∧
   on_disk (temp_path 0) w2 = true ∧ on_disk (temp_path 1) w2 = true ∧
   removals w2 = []) ∧
  (on_disk (temp_path 0) w3 = false ∧ on_disk (temp_path 1) w3 = false ∧
   removals w3 = [temp_path 0; temp_path 1]).
Proof.
  repeat split; vm_compute; reflexivity.
Qed.
(** ** A single date *)

Definition date_csets : list cset := [[Digit]; sep_cs; [Space]; alpha_cs].

Lemma date_patterns_respect p :
  p ∈ date_patterns → respects (simc date_csets) p.
Proof.
  unfold date_patterns. rewrite !elem_of_cons, elem_of_nil.
  intros [-> | [-> | [-> | []]]]; cbn [respects]; repeat split;
    intros c c' Hc; apply (simc_in date_csets); try done;
    unfold date_csets; rewrite !elem_of_cons; auto.
Qed.

Lemma digit_cases d :
  is_decimal d = true →
  d ∈ ([48; 49; 50; 51; 52; 53; 54; 55; 56; 57] : list N).
Proof.
  unfold is_decimal, between. intros [H1 H2]%andb_prop.
  apply N.leb_le in H1, H2. rewrite !elem_of_cons. lia.
Qed.

Lemma digit_sim d : is_decimal d = true → simc date_csets d 48.
Proof.
  intros H%digit_cases. rewrite !elem_of_cons, elem_of_nil in H.
  repeat (destruct H as [-> | H];
          [by repeat (constructor; [vm_compute; reflexivity|])|]).
  done.
Qed.

Lemma sep_sim c : in_cset sep_cs c = true → simc date_csets c 47.
Proof.
  unfold in_cset, sep_cs. simpl. rewrite orb_false_r.
  intros H. repeat (apply orb_prop in H as [H|H]);
    apply N.eqb_eq in H; subst c;
    by repeat (constructor; [vm_compute; reflexivity|]).
Qed.

(** A date pattern has a match that starts at position [i]. *)
Definition date_shaped_at (text : str) (i : nat) : bool :=
  existsb (λ p, match match_at p (drop i text) with
                | Some _ => true
                | None => false
                end) date_patterns.

(** Every position where a date pattern has a match lies in [lo, hi). *)
Definition dates_only_within (text : str) (lo hi : nat) : bool :=
  forallb (λ i, negb (date_shaped_at text i) || ((lo <=? i) && (i <? hi)))%nat
          (seq 0 (S (length text))).

Lemma dates_only_within_spec text lo hi i p :
  dates_only_within text lo hi = true →
  (i ≤ length text)%nat → (i < lo ∨ hi ≤ i)%nat → p ∈ date_patterns →
  match_at p (drop i text) = None.
Proof.
  unfold dates_only_within. rewrite forallb_forall.
  intros H Hi Hout Hp. specialize (H i).
  rewrite in_seq in H. specialize (H ltac:(lia)).
  apply orb_prop in H as [H|H].
  - apply negb_true_iff in H. unfold date_shaped_at in H.
    destruct (match_at p (drop i text)) eqn:Hm; [|done].
    exfalso. apply not_true_iff_false in H. apply H.
    apply existsb_exists. exists p. split; [by apply list_elem_of_In|].
    by rewrite Hm.
  - apply andb_prop in H as [H1 H2].
    apply Nat.leb_le in H1. apply Nat.ltb_lt in H2. lia.
Qed.

Definition pat_dmy : regex := nth 0 date_patterns (Lit []).
Definition pat_textual : regex := nth 1 date_patterns (Lit []).
Definition pat_ymd : regex := nth 2 date_patterns (Lit []).

Lemma pat_dmy_in : pat_dmy ∈ date_patterns.
Proof. apply list_elem_of_here. Qed.
Lemma pat_textual_in : pat_textual ∈ date_patterns.
Proof. apply list_elem_of_further, list_elem_of_here. Qed.
Lemma pat_ymd_in : pat_ymd ∈ date_patterns.
Proof. do 2 apply list_elem_of_further. apply list_elem_of_here. Qed.

(** The scan of a text [pre ++ s] in which [s] begins with a date of
    [L] characters, given the shapes of the matches on a text [s0] that
    the date patterns cannot tell from [s]. *)
Lemma single_date_found (pre s s0 : str) (L : nat) :
  Forall2 (simc date_csets) s s0 →
  shape pat_dmy s0 = Some (L, Some L) →
  shape pat_ymd s0 = Some (L - 2, Some (L - 2))%nat →
  (∀ j, (j < L - 2)%nat → shape pat_textual (drop j s0) = None) →
  (2 < L ≤ length s)%nat →
  dates_only_within (pre ++ s) (length pre) (length pre + L - 2) = true →
  findall pat_dmy (pre ++ s) = [take L s] ∧
  findall pat_textual (pre ++ s) = [] ∧
  findall pat_ymd (pre ++ s) = [take (L - 2) s].
Proof.
  intros Hsim H1 H3 H2 HL Hout.
  assert (Hpre : ∀ p i, p ∈ date_patterns → (i < length pre)%nat →
                        match_at p (drop i (pre ++ s)) = None).
  { intros p i Hp Hi. eapply dates_only_within_spec; eauto.
    rewrite length_app. lia. }
  assert (Hpost : ∀ p i, p ∈ date_patterns → (L - 2 ≤ i ≤ length s)%nat →
                         match_at p (drop i s) = None).
  { intros p i Hp Hi. rewrite <- (drop_app_add pre s i).
    eapply dates_only_within_spec; eauto; [rewrite length_app|]; lia. }
  split; [|split].
  - rewrite (findall_single pat_dmy pre s L L); try done.
    + by rewrite Nat.sub_diag, drop_0.
    + intros i Hi. apply Hpre; [apply pat_dmy_in | done].
    + rewrite <- H1. apply (shape_sim (simc date_csets)); [|done].
      apply date_patterns_respect, pat_dmy_in.
    + lia.
    + intros i Hi. apply Hpost; [apply pat_dmy_in | lia].
  - apply findall_nowhere. intros i Hi.
    destruct (decide (i < length pre)%nat) as [Hlt|Hge].
    { apply Hpre; [apply pat_textual_in | done]. }
    rewrite drop_app_ge by lia. rewrite length_app in Hi.
    destruct (decide (i - length pre < L - 2)%nat) as [Hin|Hout'].
    + apply match_at_of_shape_none. rewrite <- (H2 _ Hin).
      apply (shape_sim (simc date_csets)).
      * apply date_patterns_respect, pat_textual_in.
      * by apply Forall2_drop.
    + apply Hpost; [apply pat_textual_in | lia].
  - rewrite (findall_single pat_ymd pre s (L - 2) (L - 2)); try done.
    + by rewrite Nat.sub_diag, drop_0.
    + intros i Hi. apply Hpre; [apply pat_ymd_in | done].
    + rewrite <- H3. apply (shape_sim (simc date_csets)); [|done].
      apply date_patterns_respect, pat_ymd_in.
    + lia.
    + intros i Hi. apply Hpost; [apply pat_ymd_in | lia].
Qed.

(** C9, as stated, fails for a day of one digit: the third pattern needs
    two digits before the first separator, the date list has one entry
    and due_date stays empty. *)
Lemma due_date_one_digit_day_counterexample :
  dates_found (lit "5/01/2024") = [lit "5/01/2024"] ∧
  extracted (lit "5/01/2024") "invoice_date" = Some (lit "5/01/2024") ∧
  extracted (lit "5/01/2024") "due_date" = Some [].
Proof. repeat split; vm_compute; reflexivity. Qed.

(** C9, amended.  Take a text of the alphabet with one date, written
    with a day of two
    digits, a month of one or two digits and a year of four digits, in
    which the date patterns have no match that starts before the date or
    from the third digit of its year on.  The first pattern finds the
    date, the second finds nothing, and the third finds the date cut
    after the second digit of the year: the date list has two entries,
    invoice_date is the date and due_date is its truncated copy. *)
Theorem due_date_truncated_duplicate
    (pre post m : str) (d1 d2 s1 s2 y1 y2 y3 y4 : char) :
  let date := [d1; d2; s1] ++ m ++ [s2; y1; y2; y3; y4] in
  let short := [d1; d2; s1] ++ m ++ [s2; y1; y2] in
  let text := pre ++ date ++ post in
  covered text = true →
  forallb is_decimal ([d1; d2] ++ m ++ [y1; y2; y3; y4]) = true →
  forallb (in_cset sep_cs) [s1; s2] = true →
  (length m = 1 ∨ length m = 2)%nat →
  dates_only_within text (length pre) (length pre + length date - 2) = true →
  findall pat_ymd text = [short] ∧
  dates_found text = [date; short] ∧
  extracted text "invoice_date" = Some date ∧
  extracted text "due_date" = Some short.
Proof.
  intros date short text _ Hdig Hsep Hm Hout.
  assert (Hfound : findall pat_dmy text = [date] ∧
                   findall pat_textual text = [] ∧
                   findall pat_ymd text = [short]).
  { subst date short text.
    cbn [forallb] in Hsep. rewrite andb_true_r in Hsep.
    apply andb_prop in Hsep as [Hs1%sep_sim Hs2%sep_sim].
    cbn [app forallb] in Hdig.
    apply andb_prop in Hdig as [Hd1%digit_sim Hdig].
    apply andb_prop in Hdig as [Hd2%digit_sim Hdig].
    rewrite forallb_app in Hdig. apply andb_prop in Hdig as [Hmd Hy].
    cbn [forallb] in Hy. rewrite andb_true_r in Hy.
    apply andb_prop in Hy as [Hy1%digit_sim Hy].
    apply andb_prop in Hy as [Hy2%digit_sim Hy].
    apply andb_prop in Hy as [Hy3%digit_sim Hy4%digit_sim].
    destruct m as [|m1 [|m2 [|m3 m]]]; simpl in Hm; try lia;
      destruct post as [|c post].
    - cbn [forallb] in Hmd. rewrite andb_true_r in Hmd.
      apply digit_sim in Hmd.
      cbn [app length] in *.
      apply (single_date_found pre
               (d1 :: d2 :: s1 :: m1 :: s2 :: y1 :: y2 :: y3 :: y4 :: [])
               ([48; 48; 47; 48; 47; 48; 48; 48; 48] ++ []) 9).
      + cbn [app]. repeat (constructor; [done|]). apply Forall2_simc_refl.
      + vm_compute. reflexivity.
      + vm_compute. reflexivity.
      + intros j Hj. do 7 (destruct j as [|j]; [vm_compute; reflexivity|]).
        lia.
      + cbn [length]. lia.
      + exact Hout.
    - cbn [forallb] in Hmd. rewrite andb_true_r in Hmd.
      apply digit_sim in Hmd.
      cbn [app length] in *.
      apply (single_date_found pre
               (d1 :: d2 :: s1 :: m1 :: s2 :: y1 :: y2 :: y3 :: y4 :: (c :: post))
               ([48; 48; 47; 48; 47; 48; 48; 48; 48] ++ (c :: post)) 9).
      + cbn [app]. repeat (constructor; [done|]). apply Forall2_simc_refl.
      + vm_compute. reflexivity.
      + vm_compute. reflexivity.
      + intros j Hj. do 7 (destruct j as [|j]; [vm_compute; reflexivity|]).
        lia.
      + cbn [length]. lia.
      + exact Hout.
    - cbn [forallb] in Hmd. rewrite andb_true_r in Hmd.
      apply andb_prop in Hmd as [Hm1%digit_sim Hm2%digit_sim].
      cbn [app length] in *.
      apply (single_date_found pre
               (d1 :: d2 :: s1 :: m1 :: m2 :: s2 :: y1 :: y2 :: y3 :: y4
                :: [])
               ([48; 48; 47; 48; 48; 47; 48; 48; 48; 48] ++ []) 10).
      + cbn [app]. repeat (constructor; [done|]). apply Forall2_simc_refl.
      + vm_compute. reflexivity.
      + vm_compute. reflexivity.
      + intros j Hj. do 8 (destruct j as [|j]; [vm_compute; reflexivity|]).
        lia.
      + cbn [length]. lia.
      + exact Hout.
    - cbn [forallb] in Hmd. rewrite andb_true_r in Hmd.
      apply andb_prop in Hmd as [Hm1%digit_sim Hm2%digit_sim].
      cbn [app length] in *.
      apply (single_date_found pre
               (d1 :: d2 :: s1 :: m1 :: m2 :: s2 :: y1 :: y2 :: y3 :: y4
                :: (c :: post))
               ([48; 48; 47; 48; 48; 47; 48; 48; 48; 48] ++ (c :: post)) 10).
      + cbn [app]. repeat (constructor; [done|]). apply Forall2_simc_refl.
      + vm_compute. reflexivity.
      + vm_compute. reflexivity.
      + intros j Hj. do 8 (destruct j as [|j]; [vm_compute; reflexivity|]).
        lia.
      + cbn [length]. lia.
      + exact Hout. }
  destruct Hfound as (Hf1 & Hf2 & Hf3).
  assert (Hdates : dates_found text = [date; short]).
  { rewrite dates_found_app. fold pat_dmy pat_textual pat_ymd.
    by rewrite Hf1, Hf2, Hf3. }
  split; [done|]. split; [done|].
  destruct (extracted_dates text) as [Hi Hd]. by rewrite Hi, Hd, Hdates.
Qed.

(** The theorem at the text Date: 10/01/2024 payable now. *)
Lemma due_date_truncated_duplicate_witness :
  extracted (lit "Date: 10/01/2024 payable now") "due_date"
    = Some (lit "10/01/20").
Proof.
  pose proof (due_date_truncated_duplicate
                (lit "Date: ") (lit " payable now") (lit "01")
                49 48 47 47 50 48 50 52) as H.
  cbv zeta in H.
  refine (proj2 (proj2 (proj2 (H _ _ _ _ _)))).
  - vm_compute. reflexivity.
  - vm_compute. reflexivity.
  - vm_compute. reflexivity.
  - right. reflexivity.
  - vm_compute. reflexivity.
Defined.

(** ** The invoice number *)

Definition pat_invoice : regex := nth 0 invoice_patterns (Lit []).


Definition hdr_invoice_date : str := Eval cbv in lit "INVOICE DATE:".
Definition str_DATE : str := Eval cbv in lit "DATE".
Definition str_INVOICE_DATE : str := Eval cbv in lit "INVOICE DATE".

Lemma first_token_invoice text_upper m :
  search pat_invoice text_upper = Some m →
  first_token invoice_patterns text_upper
    = Some (strip (default [] (group1 m))).
Proof.
  intros H. change invoice_patterns with (pat_invoice :: drop 1 invoice_patterns).
  cbn [first_token]. by rewrite H.
Qed.

(** C10. When, in a text of the alphabet, the first place where the
    first invoice pattern matches is a header INVOICE DATE: (in any
    letter case), the match is
    INVOICE DATE, the optional NO|NUMBER|# part is empty, the group holds
    the word DATE, and invoice_number is DATE. *)
Theorem invoice_date_header_read_as_number (text a b : str) :
  covered text = true →
  upper text = a ++ hdr_invoice_date ++ b →
  matches_before pat_invoice (upper text) (length a) = false →
  search pat_invoice (upper text)
    = Some (MatchObj str_INVOICE_DATE (Some str_DATE) (58 :: b)) ∧
  extracted text "invoice_number" = Some str_DATE.
Proof.
  intros _ Hup Hbefore.
  assert (Hs : search pat_invoice (upper text)
               = Some (MatchObj str_INVOICE_DATE (Some str_DATE) (58 :: b))).
  { rewrite Hup in *. apply search_at; [done|]. vm_compute. reflexivity. }
  split; [done|].
  rewrite extracted_invoice_number, (first_token_invoice _ _ Hs).
  reflexivity.
Qed.

(** The theorem at a text whose second line is the header and whose
    third line holds the invoice number. *)
Definition text_invoice_date : str := Eval cbv in
  lit "ACME LTD" ++ [nl] ++ lit "Invoice Date: 10/01/2024" ++ [nl] ++
  lit "Invoice No: A100".

Lemma invoice_date_header_read_as_number_witness :
  extracted text_invoice_date "invoice_number" = Some str_DATE.
Proof.
  refine (proj2 (invoice_date_header_read_as_number text_invoice_date
            (lit "ACME LTD" ++ [nl])
            (lit " 10/01/2024" ++ [nl] ++ lit "INVOICE NO: A100") _ _ _)).
  - vm_compute. reflexivity.
  - vm_compute. reflexivity.
  - vm_compute. reflexivity.
Defined.


Definition pat_invoice_head : regex := Eval cbv in
  L "INVOICE" ⋅ star [Space] ⋅ Opt (L "NO" <|> L "NUMBER" <|> L "#") ⋅
    star [Space] ⋅ Opt (L ":") ⋅ star [Space].

Lemma pat_invoice_split {R} s acc c (k : str → str → caps → option R) :
  rmatch pat_invoice s acc c k =
    rmatch pat_invoice_head s acc c
      (λ s1 a1 c1, rmatch (Grp (plus token_cs)) s1 a1 c1 k).
Proof. reflexivity. Qed.

Definition hdr_invoice_no : str := Eval cbv in lit "INVOICE NO: A100".
Definition str_A100 : str := Eval cbv in lit "A100".
Definition bare_A100 : str := Eval cbv in lit "#A100".

Lemma match_at_invoice_no b :
  ends_run token_cs b = true →
  match_at pat_invoice (hdr_invoice_no ++ b)
    = Some (MatchObj hdr_invoice_no (Some str_A100) b).
Proof.
  intros Hend. unfold match_at. rewrite pat_invoice_split.
  assert (HK : (λ s1 a1 c1,
                  rmatch (Grp (plus token_cs)) s1 a1 c1
                    (λ s' acc c, Some (MatchObj (rev acc) c s')))
                 (str_A100 ++ b) (rev (firstn 12 hdr_invoice_no)) None
               = Some (MatchObj hdr_invoice_no (Some str_A100) b)).
  { cbn beta. cbn [rmatch].
    apply rep_run; [reflexivity | simpl; lia | done | reflexivity]. }
  revert HK.
  generalize (λ s1 a1 c1,
                rmatch (Grp (plus token_cs)) s1 a1 c1
                  (λ s' acc c, Some (MatchObj (rev acc) c s'))).
  intros K HK. vm_compute. vm_compute in HK. by rewrite HK.
Qed.

Lemma first_token_priority patterns text_upper : ∀ i p m,
  patterns !! i = Some p →
  (∀ j q, (j < i)%nat → patterns !! j = Some q →
          search q text_upper = None) →
  search p text_upper = Some m →
  first_token patterns text_upper = Some (strip (default [] (group1 m))).
Proof.
  induction patterns as [|p0 ps IH]; intros i p m Hi Hbefore Hm; [done|].
  destruct i as [|i]; simpl in Hi.
  - injection Hi as ->. cbn [first_token]. by rewrite Hm.
  - cbn [first_token]. rewrite (Hbefore 0%nat p0) by (done || lia).
    apply (IH i p m); [done| |done].
    intros j q Hj Hq. apply (Hbefore (S j) q); [lia | done].
Qed.

Lemma first_token_none patterns text_upper :
  (∀ p, p ∈ patterns → search p text_upper = None) →
  first_token patterns text_upper = None.
Proof.
  induction patterns as [|p0 ps IH]; intros H; [done|].
  cbn [first_token]. rewrite (H p0) by apply list_elem_of_here.
  apply IH. intros p Hp. by apply H, list_elem_of_further.
Qed.

Definition text_two_invoice_lines : str := Eval cbv in
  lit "INVOICE" ++ [nl] ++ lit "INVOICE NO: A100 #A100".

Definition text_longer_token : str := Eval cbv in
  lit "INVOICE NO: A1000 #A100".

(** C5, as stated, fails: a text may hold both INVOICE NO: A100 and a
    bare #A100 and still begin with the word INVOICE, which the first
    pattern matches first; the token it captures is then the next
    word.  The token may also go on after A100. *)
Lemma invoice_no_both_counterexample :
  ¬ (∀ text : str,
       contains hdr_invoice_no text = true →
       contains bare_A100 text = true →
       extracted text "invoice_number" = Some str_A100) ∧
  contains hdr_invoice_no text_two_invoice_lines = true ∧
  contains bare_A100 text_two_invoice_lines = true ∧
  extracted text_two_invoice_lines "invoice_number" = Some (lit "INVOICE") ∧
  contains hdr_invoice_no text_longer_token = true ∧
  contains bare_A100 text_longer_token = true ∧
  extracted text_longer_token "invoice_number" = Some (lit "A1000").
Proof.
  split; [|repeat split; vm_compute; reflexivity].
  intros H. specialize (H text_two_invoice_lines eq_refl eq_refl).
  vm_compute in H. discriminate H.
Qed.

(** C5, amended.  For a text of the alphabet, the four patterns are tried
    in their order on the upper-cased text, and the first that has a
    match gives the invoice number (its group, trimmed); with no match
    the field stays empty.
    When the first place where the first pattern matches reads
    INVOICE NO: A100, and that token is followed by the end of the text
    or by a character that cannot continue it, invoice_number is A100
    by the first pattern, wherever a bare #A100 stands. *)
Theorem invoice_patterns_priority :
  length invoice_patterns = 4%nat ∧
  (∀ (text : str) (i : nat) (p : regex) (m : rmatch_obj),
     covered text = true →
     invoice_patterns !! i = Some p →
     (∀ j q, (j < i)%nat → invoice_patterns !! j = Some q →
             search q (upper text) = None) →
     search p (upper text) = Some m →
     extracted text "invoice_number"
       = Some (strip (default [] (group1 m)))) ∧
  (∀ text : str,
     covered text = true →
     (∀ p, p ∈ invoice_patterns → search p (upper text) = None) →
     extracted text "invoice_number" = Some []) ∧
  (∀ text a b : str,
     covered text = true →
     upper text = a ++ hdr_invoice_no ++ b →
     matches_before pat_invoice (upper text) (length a) = false →
     ends_run token_cs b = true →
     search pat_invoice (upper text)
       = Some (MatchObj hdr_invoice_no (Some str_A100) b) ∧
     extracted text "invoice_number" = Some str_A100) ∧
  extracted (lit "INVOICE NO: A100 #A100") "invoice_number"
    = Some str_A100 ∧
  extracted (lit "#B7 INVOICE NO: A100") "invoice_number" = Some str_A100.
Proof.
  split; [reflexivity|]. split; [|split; [|split]].
  - intros text i p m _ Hi Hbefore Hm. rewrite extracted_invoice_number.
    by rewrite (first_token_priority _ _ i p m).
  - intros text _ H. rewrite extracted_invoice_number.
    by rewrite first_token_none.
  - intros text a b _ Hup Hbefore Hend.
    assert (Hs : search pat_invoice (upper text)
                 = Some (MatchObj hdr_invoice_no (Some str_A100) b)).
    { rewrite Hup in *. apply search_at; [done|].
      by apply match_at_invoice_no. }
    split; [done|].
    rewrite extracted_invoice_number, (first_token_invoice _ _ Hs).
    reflexivity.
  - split; vm_compute; reflexivity.
Qed.

(** The theorem at a text where a bare #A100 comes first. *)
Definition text_hash_first : str := Eval cbv in
  lit "Ref #A100" ++ [nl] ++ lit "Invoice No: A100" ++ [nl] ++ lit "Total 5".

Lemma invoice_patterns_priority_witness :
  extracted text_hash_first "invoice_number" = Some str_A100.
Proof.
  refine (proj2 (proj1 (proj2 (proj2 (proj2 invoice_patterns_priority)))
                   text_hash_first (lit "REF #A100" ++ [nl])
                   ([nl] ++ lit "TOTAL 5") _ _ _ _)).
  - vm_compute. reflexivity.
  - vm_compute. reflexivity.
  - vm_compute. reflexivity.
  - vm_compute. reflexivity.
Defined.

(** ** A subtotal line read as the total *)

Definition pat_subtotal : regex := nth 2 amount_patterns (Lit []).


(** What follows the key word in both patterns: an optional colon,
    white space and the amount. *)
Definition amount_tail : regex := Eval cbv in
  Opt (L ":") ⋅ star [Space] ⋅ amount_grp.

Definition pat_total_head : regex := Eval cbv in
  L "TOTAL" ⋅ star [Space] ⋅ currency_opt.

Definition pat_subtotal_head : regex := Eval cbv in
  L "SUBTOTAL" ⋅ star [Space].

Lemma pat_total_split {R} s acc c (k : str → str → caps → option R) :
  rmatch pat_total s acc c k =
    rmatch pat_total_head s acc c (λ s1 a1 c1, rmatch amount_tail s1 a1 c1 k).
Proof. reflexivity. Qed.

Lemma pat_subtotal_split {R} s acc c (k : str → str → caps → option R) :
  rmatch pat_subtotal s acc c k =
    rmatch pat_subtotal_head s acc c
      (λ s1 a1 c1, rmatch amount_tail s1 a1 c1 k).
Proof. reflexivity. Qed.

Definition hdr_subtotal : str := Eval cbv in lit "SUBTOTAL:".
Definition hdr_total : str := Eval cbv in lit "TOTAL:".
Definition str_SUB : str := Eval cbv in lit "SUB".

(** On a line SUBTOTAL: the TOTAL pattern, begun at the fourth letter,
    captures what the SUBTOTAL pattern captures. *)
Lemma total_inside_subtotal rest :
  group1 <$> match_at pat_total (hdr_total ++ rest) =
  group1 <$> match_at pat_subtotal (hdr_subtotal ++ rest).
Proof.
  unfold match_at. rewrite <- !(rmatch_fmap group1).
  rewrite pat_total_split, pat_subtotal_split.
  set (K := λ acc0 (s1 a1 : str) (c1 : caps),
              rmatch amount_tail s1 (a1 ++ acc0) c1
                (λ s' acc c, group1 <$> Some (MatchObj (rev acc) c s'))).
  transitivity (K [] (58 :: rest) (rev (lit "TOTAL")) None).
  - assert (HK : ∀ s1 a1 c1,
      rmatch amount_tail s1 a1 c1
        (λ s' acc c, group1 <$> Some (MatchObj (rev acc) c s')) =
      K [] s1 a1 c1).
    { intros. unfold K. by rewrite app_nil_r. }
    rewrite (rmatch_ext _ _ _ _ _ _ HK). generalize (K []). intros K0.
    vm_compute. reflexivity.
  - transitivity (K [] (58 :: rest) (rev (lit "SUBTOTAL")) None).
    + unfold K. apply rmatch_acc. done.
    + assert (HK : ∀ s1 a1 c1,
        rmatch amount_tail s1 a1 c1
          (λ s' acc c, group1 <$> Some (MatchObj (rev acc) c s')) =
        K [] s1 a1 c1).
      { intros. unfold K. by rewrite app_nil_r. }
      rewrite (rmatch_ext _ _ _ _ _ _ HK). generalize (K []). intros K0.
      vm_compute. reflexivity.
Qed.

Lemma extracted_subtotal text :
  extracted text "subtotal" =
    Some (default [] (amount_of pat_subtotal (upper text))).
Proof.
  rewrite extracted_eq. unfold fields_of. fold pat_subtotal. peel;
    rewrite lookup_upd_eq; destruct (amount_of pat_subtotal _); try done;
    peel; done.
Qed.

(** A line SUBTOTAL: where the SUBTOTAL pattern has its first match,
    in a text where the TOTAL pattern matches nowhere before the letters
    TOTAL of that line: the TOTAL pattern matches inside the word
    SUBTOTAL and captures the same token, so any subtotal the line gives
    is the total amount as well. *)
Lemma subtotal_capture_shared (text a rest : str) :
  upper text = a ++ hdr_subtotal ++ rest →
  matches_before pat_subtotal (upper text) (length a) = false →
  matches_at pat_subtotal (upper text) (length a) = true →
  matches_before pat_total (upper text) (length a + 3) = false →
  amount_of pat_total (upper text) = amount_of pat_subtotal (upper text) ∧
  (∀ v, v ≠ [] → extracted text "subtotal" = Some v →
        extracted text "total_amount" = Some v).
Proof.
  intros Hup Hsub_before Hsub_at Htot_before.
  assert (Hamount : amount_of pat_total (upper text)
                    = amount_of pat_subtotal (upper text)).
  { rewrite Hup in *. unfold matches_at in Hsub_at.
    rewrite drop_app_length in Hsub_at.
    destruct (match_at pat_subtotal (hdr_subtotal ++ rest)) as [m|] eqn:Hm;
      [|done].
    pose proof (total_inside_subtotal rest) as Hin. rewrite Hm in Hin.
    destruct (match_at pat_total (hdr_total ++ rest)) as [m'|] eqn:Hm';
      [|done].
    injection Hin as Hgrp.
    unfold amount_of. rewrite (search_at _ _ _ m Hsub_before Hm).
    change (hdr_subtotal ++ rest) with (str_SUB ++ hdr_total ++ rest) in *.
    rewrite (assoc_L (++)) in *.
    rewrite (search_at pat_total (a ++ str_SUB) (hdr_total ++ rest) m').
    - by rewrite Hgrp.
    - rewrite length_app. exact Htot_before.
    - done. }
  split; [done|].
  intros v Hv. rewrite extracted_subtotal, extracted_total_amount.
  change (take 2 amount_patterns) with [pat_total; pat_amount_due].
  cbn [first_amount]. rewrite Hamount.
  destruct (amount_of pat_subtotal (upper text)) as [w|]; simpl.
  - by intros [= ->].
  - by intros [= <-].
Qed.

(** *** A number after the key word *)

Lemma digit_tests d :
  is_decimal d = true →
  in_cset sym_cs d = false ∧ in_cset [Space] d = false ∧
  in_cset num_cs d = true ∧ in_cset strip_cs d = false ∧
  is_digit d = true ∧ d ≠ 46.
Proof.
  intros H%digit_cases. rewrite !elem_of_cons, elem_of_nil in H.
  repeat (destruct H as [-> | H]; [by vm_compute|]). done.
Qed.

(** The characters of a number: digits, commas and the point. *)
Definition number_char (c : char) : bool :=
  is_decimal c || (c =? 44) || (c =? 46).

Lemma number_chars_digits (l : str) :
  forallb number_char l = true →
  forallb is_digit (remove_char 46 (sub_cset strip_cs l)) = true.
Proof.
  induction l as [|x l IH]; [done|]. cbn [forallb].
  intros [Hx Hl]%andb_prop. specialize (IH Hl).
  unfold number_char in Hx. unfold sub_cset, remove_char in *.
  apply orb_prop in Hx as [Hx|Hx]; [apply orb_prop in Hx as [Hx|Hx]|].
  - destruct (digit_tests x Hx) as (_ & _ & _ & Hstrip & Hdig & Hne).
    rewrite filter_cons_True by done. rewrite filter_cons_True by done.
    cbn [forallb]. by rewrite Hdig, IH.
  - apply N.eqb_eq in Hx as ->. by rewrite filter_cons_False by done.
  - apply N.eqb_eq in Hx as ->.
    rewrite filter_cons_True by done. by rewrite filter_cons_False by auto.
Qed.

Lemma accepted_number d (l : str) :
  is_decimal d = true → forallb number_char l = true →
  accepted (d :: l) = Some (sub_cset strip_cs (d :: l)).
Proof.
  intros Hd Hl. unfold accepted.
  destruct (digit_tests d Hd) as (_ & _ & _ & Hstrip & Hdig & Hne).
  pose proof (number_chars_digits l Hl) as Hall.
  unfold sub_cset, remove_char in *.
  rewrite filter_cons_True by done. rewrite filter_cons_True by done.
  unfold isdigit. cbn [forallb]. by rewrite Hdig, Hall.
Qed.

(** The amount group on a number: a digit, then digits and commas, then
    possibly a point and digits, followed by nothing that continues
    it. *)
Definition number (d : char) (ip ds : str) (frac : bool) : str :=
  d :: ip ++ (if frac then 46 :: ds else []).

Definition after_number_cs : cset := [Digit; One 44; One 46].

Lemma amount_grp_number {R} d ip ds frac tail acc c
    (k : str → str → caps → option R) res :
  is_decimal d = true → forallb (in_cset num_cs) ip = true →
  forallb is_decimal ds = true → ends_run after_number_cs tail = true →
  k tail (rev (number d ip ds frac) ++ acc) (Some (number d ip ds frac))
    = Some res →
  rmatch amount_grp (number d ip ds frac ++ tail) acc c k = Some res.
Proof.
  intros Hd Hip Hds Hend Hk.
  destruct (digit_tests d Hd) as (Hsym & Hsp & Hnum & _ & _ & _).
  assert (Htail : ends_run num_cs tail = true ∧ ends_run [Digit] tail = true ∧
                  strip_prefix [46] tail = None).
  { destruct tail as [|x tail]; [done|]. cbn [ends_run] in *.
    apply negb_true_iff in Hend. unfold after_number_cs, in_cset in Hend.
    cbn [existsb in_citem] in Hend. rewrite orb_false_r in Hend.
    apply orb_false_elim in Hend as [Hdig Hend].
    apply orb_false_elim in Hend as [Hcomma Hpoint].
    unfold num_cs, in_cset. cbn [existsb in_citem strip_prefix].
    rewrite Hdig, Hcomma, (N.eqb_sym 46 x), Hpoint. done. }
  destruct Htail as (Hend1 & Hend2 & Hend3).
  unfold amount_grp, number.
  replace (L ".") with (Lit [46]) by (vm_compute; reflexivity).
  cbn [rmatch app]. rewrite Hsym.
  cbn [rep can_take]. rewrite Hsp, Hnum. cbn [pred dec].
  rewrite <- (assoc_L (++)).
  rewrite (rep_run num_cs ip 0 ((if frac then 46 :: ds else []) ++ tail)
             [d] c _ res); [done | done | lia | |].
  - destruct frac; [done | exact Hend1].
  - destruct frac.
    + cbn [app strip_prefix rmatch]. change (46 =? 46) with true. cbn iota.
      rewrite (rep_run [Digit] ds 0 tail _ _ _ res); [done | | lia | done |].
      { rewrite forallb_forall in *. intros x Hx. unfold in_cset.
        cbn [existsb in_citem]. by rewrite (Hds x Hx). }
      rewrite <- Hk. unfold number.
      assert (Hrev : rev ds ++ rev [46] ++ rev ip ++ [d]
                     = rev (d :: ip ++ 46 :: ds)).
      { cbn [rev]. rewrite rev_app_distr. cbn [rev app].
        by rewrite <- !(assoc_L (++)). }
      by rewrite Hrev, rev_involutive.
    + cbn [app rmatch]. rewrite Hend3.
      rewrite (rep_run [Digit] [] 0 tail _ _ _ res);
        [done | done | simpl; lia | done |].
      rewrite <- Hk. unfold number. rewrite !app_nil_r.
      change (rev [] ++ rev ip ++ [d]) with (rev (d :: ip)).
      by rewrite rev_involutive.
Qed.

(** The two patterns, cut after the optional colon. *)
Definition pat_total_key : regex := Eval cbv in
  L "TOTAL" ⋅ star [Space] ⋅ currency_opt ⋅ Opt (L ":").

Definition pat_subtotal_key : regex := Eval cbv in
  L "SUBTOTAL" ⋅ star [Space] ⋅ Opt (L ":").

Lemma pat_total_key_split {R} s acc c (k : str → str → caps → option R) :
  rmatch pat_total s acc c k =
    rmatch pat_total_key s acc c
      (λ s1 a1 c1, rmatch (star [Space] ⋅ amount_grp) s1 a1 c1 k).
Proof. reflexivity. Qed.

Lemma pat_subtotal_key_split {R} s acc c (k : str → str → caps → option R) :
  rmatch pat_subtotal s acc c k =
    rmatch pat_subtotal_key s acc c
      (λ s1 a1 c1, rmatch (star [Space] ⋅ amount_grp) s1 a1 c1 k).
Proof. reflexivity. Qed.

(** One space and a number after the colon. *)
Lemma space_number {R} d ip ds frac tail acc c
    (k : str → str → caps → option R) res :
  is_decimal d = true → forallb (in_cset num_cs) ip = true →
  forallb is_decimal ds = true → ends_run after_number_cs tail = true →
  k tail (rev (number d ip ds frac) ++ 32 :: acc)
    (Some (number d ip ds frac)) = Some res →
  rmatch (star [Space] ⋅ amount_grp) (32 :: number d ip ds frac ++ tail)
    acc c k = Some res.
Proof.
  intros Hd Hip Hds Hend Hk. cbn [rmatch].
  destruct (digit_tests d Hd) as (_ & Hsp & _).
  apply (rep_run [Space] [32] 0 (number d ip ds frac ++ tail));
    [done | simpl; lia | unfold number; cbn [app ends_run]; by rewrite Hsp |].
  by apply amount_grp_number.
Qed.

Definition hdr_subtotal_sp : str := Eval cbv in lit "SUBTOTAL: ".
Definition hdr_total_sp : str := Eval cbv in lit "TOTAL: ".

Lemma match_at_subtotal_number d ip ds frac tail :
  is_decimal d = true → forallb (in_cset num_cs) ip = true →
  forallb is_decimal ds = true → ends_run after_number_cs tail = true →
  match_at pat_subtotal (hdr_subtotal_sp ++ number d ip ds frac ++ tail)
    = Some (MatchObj (hdr_subtotal_sp ++ number d ip ds frac)
                     (Some (number d ip ds frac)) tail).
Proof.
  intros Hd Hip Hds Hend. unfold match_at. rewrite pat_subtotal_key_split.
  assert (HK : (λ s1 a1 c1,
                  rmatch (star [Space] ⋅ amount_grp) s1 a1 c1
                    (λ s' acc c, Some (MatchObj (rev acc) c s')))
                 (32 :: number d ip ds frac ++ tail) (rev (lit "SUBTOTAL:")) None
               = Some (MatchObj (hdr_subtotal_sp ++ number d ip ds frac)
                                (Some (number d ip ds frac)) tail)).
  { cbn beta. apply space_number; try done.
    change (32 :: rev (lit "SUBTOTAL:")) with (rev hdr_subtotal_sp).
    by rewrite <- rev_app_distr, rev_involutive. }
  revert HK.
  generalize (λ s1 a1 c1,
                rmatch (star [Space] ⋅ amount_grp) s1 a1 c1
                  (λ s' acc c, Some (MatchObj (rev acc) c s'))).
  generalize (number d ip ds frac). intros num K HK.
  vm_compute. vm_compute in HK. by rewrite HK.
Qed.

Lemma match_at_total_number d ip ds frac tail :
  is_decimal d = true → forallb (in_cset num_cs) ip = true →
  forallb is_decimal ds = true → ends_run after_number_cs tail = true →
  match_at pat_total (hdr_total_sp ++ number d ip ds frac ++ tail)
    = Some (MatchObj (hdr_total_sp ++ number d ip ds frac)
                     (Some (number d ip ds frac)) tail).
Proof.
  intros Hd Hip Hds Hend. unfold match_at. rewrite pat_total_key_split.
  assert (HK : (λ s1 a1 c1,
                  rmatch (star [Space] ⋅ amount_grp) s1 a1 c1
                    (λ s' acc c, Some (MatchObj (rev acc) c s')))
                 (32 :: number d ip ds frac ++ tail) (rev (lit "TOTAL:")) None
               = Some (MatchObj (hdr_total_sp ++ number d ip ds frac)
                                (Some (number d ip ds frac)) tail)).
  { cbn beta. apply space_number; try done.
    change (32 :: rev (lit "TOTAL:")) with (rev hdr_total_sp).
    by rewrite <- rev_app_distr, rev_involutive. }
  revert HK.
  generalize (λ s1 a1 c1,
                rmatch (star [Space] ⋅ amount_grp) s1 a1 c1
                  (λ s' acc c, Some (MatchObj (rev acc) c s'))).
  generalize (number d ip ds frac). intros num K HK.
  vm_compute. vm_compute in HK. by rewrite HK.
Qed.

Lemma number_chars (ip ds : str) (frac : bool) :
  forallb (in_cset num_cs) ip = true → forallb is_decimal ds = true →
  forallb number_char (ip ++ (if frac then 46 :: ds else [])) = true.
Proof.
  intros Hip Hds. rewrite forallb_app. apply andb_true_intro. split.
  - rewrite forallb_forall in *. intros x Hx. specialize (Hip x Hx).
    unfold in_cset, num_cs in Hip. cbn [existsb in_citem] in Hip.
    rewrite orb_false_r in Hip. unfold number_char.
    apply orb_prop in Hip as [-> | ->]; [done|]. by rewrite orb_true_r.
  - destruct frac; [|done]. cbn [forallb]. apply andb_true_intro.
    split; [done|]. rewrite forallb_forall in *. intros x Hx.
    unfold number_char. by rewrite (Hds x Hx).
Qed.

Lemma number_char_strip x :
  number_char x = true → in_cset strip_cs x = in_cset [One 44] x.
Proof.
  unfold number_char. intros H.
  apply orb_prop in H as [H|H]; [apply orb_prop in H as [H|H]|].
  - apply digit_cases in H. rewrite !elem_of_cons, elem_of_nil in H.
    repeat (destruct H as [-> | H]; [by vm_compute|]). done.
  - apply N.eqb_eq in H. by subst x.
  - apply N.eqb_eq in H. by subst x.
Qed.

(** Stripping a number removes its commas and nothing else. *)
Lemma sub_cset_number (l : str) :
  forallb number_char l = true →
  sub_cset strip_cs l = sub_cset [One 44] l.
Proof.
  induction l as [|x l IH]; [done|]. cbn [forallb].
  intros [Hx Hl]%andb_prop. specialize (IH Hl).
  apply number_char_strip in Hx. unfold sub_cset in *.
  destruct (in_cset [One 44] x) eqn:Hc.
  - rewrite !filter_cons_False by (by rewrite ?Hx, ?Hc). exact IH.
  - rewrite !filter_cons_True by (by rewrite ?Hx, ?Hc). by rewrite IH.
Qed.

(** C8. Take a text of the alphabet whose upper-cased form has a line
    SUBTOTAL: followed
    by one space and a number (a digit, then digits and grouping commas,
    then possibly a point and digits) which nothing continues, where
    the SUBTOTAL pattern has no earlier match and the TOTAL pattern has
    no match before the letters TOTAL of that line.  The TOTAL pattern
    then matches inside the word SUBTOTAL and captures the number, and
    total_amount is the subtotal, the number without its commas, instead
    of staying empty. *)
Theorem subtotal_line_sets_total
    (text a ip ds tail : str) (d : char) (frac : bool) :
  let num := number d ip ds frac in
  covered text = true →
  upper text = a ++ hdr_subtotal_sp ++ num ++ tail →
  is_decimal d = true → forallb (in_cset num_cs) ip = true →
  forallb is_decimal ds = true → ends_run after_number_cs tail = true →
  matches_before pat_subtotal (upper text) (length a) = false →
  matches_before pat_total (upper text) (length a + 3) = false →
  search pat_total (upper text)
    = Some (MatchObj (hdr_total_sp ++ num) (Some num) tail) ∧
  extracted text "subtotal" = Some (sub_cset [One 44] num) ∧
  extracted text "total_amount" = Some (sub_cset [One 44] num) ∧
  sub_cset [One 44] num ≠ [].
Proof.
  intros num _ Hup Hd Hip Hds Hend Hsub Htot.
  assert (Hs_sub : search pat_subtotal (upper text)
            = Some (MatchObj (hdr_subtotal_sp ++ num) (Some num) tail)).
  { rewrite Hup in *. apply search_at; [done|].
    by apply match_at_subtotal_number. }
  assert (Hs_tot : search pat_total (upper text)
            = Some (MatchObj (hdr_total_sp ++ num) (Some num) tail)).
  { rewrite Hup in *.
    change (hdr_subtotal_sp ++ num ++ tail)
      with (str_SUB ++ hdr_total_sp ++ num ++ tail) in *.
    rewrite (assoc_L (++)) in *. apply search_at.
    - rewrite length_app. exact Htot.
    - by apply match_at_total_number. }
  assert (Hchars : forallb number_char num = true).
  { subst num. unfold number. cbn [forallb]. apply andb_true_intro.
    split; [unfold number_char; by rewrite Hd | by apply number_chars]. }
  assert (Hacc : accepted num = Some (sub_cset [One 44] num)).
  { rewrite <- (sub_cset_number num Hchars).
    apply accepted_number; [done|]. by apply number_chars. }
  split; [done|]. split; [|split].
  - rewrite extracted_subtotal. unfold amount_of. rewrite Hs_sub.
    cbn [group1 default from_option id]. by rewrite Hacc.
  - rewrite extracted_total_amount.
    change (take 2 amount_patterns) with [pat_total; pat_amount_due].
    cbn [first_amount]. unfold amount_of. rewrite Hs_tot.
    cbn [group1 default from_option id]. by rewrite Hacc.
  - subst num. unfold number, sub_cset.
    rewrite filter_cons_True; [done|].
    apply digit_cases in Hd. rewrite !elem_of_cons, elem_of_nil in Hd.
    repeat (destruct Hd as [-> | Hd]; [by vm_compute|]). done.
Qed.

(** The theorem at a text whose only amount line is
    Subtotal: 1,200.50. *)
Definition text_subtotal_only : str := Eval cbv in
  lit "Acme Ltd" ++ [nl] ++ lit "Subtotal: 1,200.50" ++ [nl] ++ lit "Thanks".

Lemma subtotal_line_sets_total_witness :
  extracted text_subtotal_only "total_amount" = Some (lit "1200.50").
Proof.
  pose proof (subtotal_line_sets_total text_subtotal_only
                (lit "ACME LTD" ++ [nl]) (lit ",200") (lit "50")
                ([nl] ++ lit "THANKS") 49 true) as H.
  cbv zeta in H. refine (proj1 (proj2 (proj2 (H _ _ _ _ _ _ _ _)))).
  - vm_compute. reflexivity.
  - vm_compute. reflexivity.
  - vm_compute. reflexivity.
  - vm_compute. reflexivity.
  - vm_compute. reflexivity.
  - vm_compute. reflexivity.
  - vm_compute. reflexivity.
  - vm_compute. reflexivity.
Defined.

(** * Further properties *)

(** ** What a pattern can match

    [matched r w c c'] : the pattern [r] can match the text [w], taking
    group 1 from state [c] to state [c']. *)
Fixpoint matched (r : regex) (w : str) (c c' : caps) : Prop :=
  match r with
  | Lit l => w = l ∧ c' = c
  | Cls cs => (∃ x, w = [x] ∧ in_cset cs x = true) ∧ c' = c
  | Rep cs lo hi =>
    (forallb (in_cset cs) w = true ∧ (lo ≤ length w)%nat ∧
     match hi with Some h => (length w ≤ h)%nat | None => True end) ∧ c' = c
  | Opt r1 => (w = [] ∧ c' = c) ∨ matched r1 w c c'
  | Alt r1 r2 => matched r1 w c c' ∨ matched r2 w c c'
  | Seq r1 r2 =>
    ∃ w1 w2 cm, w = w1 ++ w2 ∧ matched r1 w1 c cm ∧ matched r2 w2 cm c'
  | Grp r1 => (∃ ci, matched r1 w c ci) ∧ c' = Some w
  end.

Lemma rep_matched {R} cs s :
  ∀ lo hi acc c (k : str → str → caps → option R) res,
  rep cs lo hi s acc c k = Some res →
  ∃ w s1, s = w ++ s1 ∧ matched (Rep cs lo hi) w c c ∧
          k s1 (rev w ++ acc) c = Some res.
Proof.
  assert (Hstop : ∀ lo hi (s acc : str) c (k : str → str → caps → option R) res,
    match lo with O => k s acc c | S _ => None end = Some res →
    ∃ w s1, s = w ++ s1 ∧ matched (Rep cs lo hi) w c c ∧
            k s1 (rev w ++ acc) c = Some res).
  { intros lo hi s0 acc c k res H. destruct lo; [|discriminate].
    exists [], s0. repeat split; simpl; [lia | by destruct hi; [lia|] | done]. }
  induction s as [|x s IH]; intros lo hi acc c k res; simpl.
  - destruct (can_take hi); apply Hstop.
  - destruct (can_take hi) eqn:Hhi; [|apply Hstop].
    destruct (in_cset cs x) eqn:Hx; [|apply Hstop].
    destruct (rep cs (pred lo) (dec hi) s (x :: acc) c k) eqn:Hrec;
      [|apply Hstop].
    intros [= <-].
    apply IH in Hrec as (w & s1 & -> & [(Hall & Hlo & Hhi') _] & Hk).
    exists (x :: w), s1. split; [done|]. split.
    + split; [|done]. simpl. rewrite Hx, Hall. repeat split; [lia|].
      destruct hi as [[|h]|]; simpl in *; [discriminate | lia | done].
    + simpl. by rewrite <- (assoc_L (++)).
Qed.

Lemma rmatch_matched {R} r :
  ∀ s acc c (k : str → str → caps → option R) res,
  rmatch r s acc c k = Some res →
  ∃ w s1 c1, s = w ++ s1 ∧ matched r w c c1 ∧
             k s1 (rev w ++ acc) c1 = Some res.
Proof.
  induction r as [l|cs|cs lo hi|r1 IH1|r1 IH1 r2 IH2|r1 IH1 r2 IH2|r1 IH1];
    intros s acc c k res; simpl.
  - destruct (strip_prefix l s) as [s'|] eqn:Hl; [|discriminate].
    apply strip_prefix_app in Hl as ->. intros Hk. by exists l, s', c.
  - destruct s as [|x s']; [discriminate|].
    destruct (in_cset cs x) eqn:Hx; [|discriminate].
    intros Hk. exists [x], s', c. eauto 10.
  - intros H. apply rep_matched in H as (w & s1 & -> & Hm & Hk).
    by exists w, s1, c.
  - destruct (rmatch r1 s acc c k) eqn:H1.
    + intros [= <-]. apply IH1 in H1 as (w & s1 & c1 & -> & Hm & Hk).
      exists w, s1, c1. eauto.
    + intros Hk. exists [], s, c. eauto.
  - destruct (rmatch r1 s acc c k) eqn:H1.
    + intros [= <-]. apply IH1 in H1 as (w & s1 & c1 & -> & Hm & Hk).
      exists w, s1, c1. eauto.
    + intros H2. apply IH2 in H2 as (w & s1 & c1 & -> & Hm & Hk).
      exists w, s1, c1. eauto.
  - intros H. apply IH1 in H as (w1 & s1 & c1 & -> & Hm1 & H).
    apply IH2 in H as (w2 & s2 & c2 & -> & Hm2 & Hk).
    exists (w1 ++ w2), s2, c2. split; [by rewrite <- (assoc_L (++))|].
    split; [by exists w1, w2, c1|].
    by rewrite rev_app_distr, <- (assoc_L (++)).
  - intros H. apply IH1 in H as (w & s1 & c1 & -> & Hm & Hk).
    rewrite app_nil_r, rev_involutive in Hk.
    exists w, s1, (Some w). eauto.
Qed.

Lemma match_at_matched r s m :
  match_at r s = Some m →
  s = group0 m ++ after m ∧ matched r (group0 m) None (group1 m).
Proof.
  unfold match_at. intros H.
  apply rmatch_matched in H as (w & s1 & c1 & -> & Hm & [= <-]).
  simpl. by rewrite app_nil_r, rev_involutive.
Qed.

(** A match found by [search] lies somewhere in the text. *)
Lemma search_matched r s m :
  search r s = Some m →
  ∃ pre, s = pre ++ group0 m ++ after m ∧
         matched r (group0 m) None (group1 m).
Proof.
  induction s as [|x s IH]; simpl.
  - destruct (match_at r []) eqn:H; [|discriminate]. intros [= <-].
    apply match_at_matched in H as [? ?]. by exists [].
  - destruct (match_at r (x :: s)) eqn:H.
    + intros [= <-]. apply match_at_matched in H as [? ?]. by exists [].
    + intros Hs. apply IH in Hs as (pre & -> & Hm). by exists (x :: pre).
Qed.

(** ** Python strings *)

Lemma startswith_app (l s : str) : startswith l (l ++ s) = true.
Proof. induction l as [|x l IH]; simpl; [done|]. by rewrite N.eqb_refl. Qed.

Lemma startswith_prefix (l s : str) :
  startswith l s = true ↔ ∃ b, s = l ++ b.
Proof.
  split.
  - revert s. induction l as [|x l IH]; intros s; simpl; [by exists s|].
    destruct s as [|y s]; [done|].
    intros [->%N.eqb_eq [b ->]%IH]%andb_prop. by exists b.
  - intros [b ->]. apply startswith_app.
Qed.

Lemma contains_infix (l s : str) :
  contains l s = true ↔ ∃ a b, s = a ++ l ++ b.
Proof.
  split.
  - induction s as [|x s IH]; simpl.
    + rewrite orb_false_r. intros [b ->]%startswith_prefix. by exists [], b.
    + intros [[b ->]%startswith_prefix | (a & b & ->)%IH]%orb_prop.
      * by exists [], b.
      * by exists (x :: a), b.
  - intros (a & b & ->). induction a as [|x a IH]; simpl.
    + pose proof (startswith_app l b) as H.
      destruct (l ++ b); simpl; by rewrite H.
    + by rewrite IH, orb_true_r.
Qed.

Lemma contains_false_infix (l a b s : str) :
  contains l s = false → s = a ++ l ++ b → False.
Proof.
  intros H Hs. assert (contains l s = true) by (apply contains_infix; eauto).
  congruence.
Qed.

Lemma upper_app (a b : str) : upper (a ++ b) = upper a ++ upper b.
Proof. apply flat_map_app. Qed.

(** [strip] removes white space at both ends and nothing else. *)
Lemma lstrip_spec (s : str) :
  ∃ a, s = a ++ lstrip s ∧ forallb is_space a = true ∧
       (∀ x t, lstrip s = x :: t → is_space x = false).
Proof.
  induction s as [|x s (a & Hs & Ha & Hhd)]; simpl.
  - exists []. done.
  - destruct (is_space x) eqn:Hx.
    + exists (x :: a). simpl. rewrite Hx, Ha. split; [by f_equal|done].
    + exists []. split; [done|]. split; [done|]. by intros ? ? [= <- <-].
Qed.

Lemma lstrip_id (s : str) :
  (∀ x t, s = x :: t → is_space x = false) → lstrip s = s.
Proof.
  destruct s as [|x s]; [done|]. intros H. simpl. by rewrite (H x s eq_refl).
Qed.

Lemma forallb_rev {A} (f : A → bool) (l : list A) :
  forallb f (rev l) = forallb f l.
Proof.
  induction l as [|x l IH]; simpl; [done|].
  rewrite forallb_app, IH. simpl. rewrite andb_true_r. apply andb_comm.
Qed.

Lemma strip_spec (s : str) :
  ∃ a b, s = a ++ strip s ++ b ∧
         forallb is_space a = true ∧ forallb is_space b = true ∧
         (∀ x t, strip s = x :: t → is_space x = false) ∧
         (∀ x t, rev (strip s) = x :: t → is_space x = false).
Proof.
  unfold strip.
  destruct (lstrip_spec s) as (a & Hs & Ha & Hhd).
  destruct (lstrip_spec (rev (lstrip s))) as (b & Hr & Hb & Hlast).
  exists a, (rev b). rewrite rev_involutive.
  assert (Hmid : lstrip s = rev (lstrip (rev (lstrip s))) ++ rev b).
  { rewrite <- rev_app_distr, <- Hr. by rewrite rev_involutive. }
  split; [by rewrite <- Hmid|].
  split; [done|]. split; [by rewrite forallb_rev|]. split; [|done].
  intros x t Hx. rewrite Hx in Hmid. apply (Hhd x (t ++ rev b)).
  by rewrite Hmid.
Qed.

Lemma strip_id (s : str) :
  (∀ x t, s = x :: t → is_space x = false) →
  (∀ x t, rev s = x :: t → is_space x = false) →
  strip s = s.
Proof.
  intros H1 H2. unfold strip. rewrite (lstrip_id s H1), (lstrip_id _ H2).
  apply rev_involutive.
Qed.

Lemma strip_idemp (s : str) : strip (strip s) = strip s.
Proof.
  destruct (strip_spec s) as (a & b & _ & _ & _ & H1 & H2).
  by apply strip_id.
Qed.

Lemma strip_nospace (s : str) :
  forallb (λ x, negb (is_space x)) s = true → strip s = s.
Proof.
  intros H. apply strip_id.
  - intros x t ->. simpl in H. by destruct (is_space x).
  - intros x t Hr. rewrite <- forallb_rev, Hr in H. simpl in H.
    by destruct (is_space x).
Qed.

Lemma strip_elem (s : str) x : x ∈ strip s → x ∈ s.
Proof.
  destruct (strip_spec s) as (a & b & Hs & _). intros Hx.
  rewrite Hs, !elem_of_app. auto.
Qed.

(** The parts [split] returns hold no separator, and [join] puts them
    back together. *)
Lemma split_cons sep s : ∃ l ls, split sep s = l :: ls.
Proof.
  induction s as [|c s (l & ls & IH)]; simpl; [eauto|].
  destruct (c =? sep); [eauto|]. rewrite IH. eauto.
Qed.

Lemma split_no_sep sep s : Forall (λ l : str, sep ∉ l) (split sep s).
Proof.
  induction s as [|c s IH]; simpl.
  - repeat constructor. apply not_elem_of_nil.
  - destruct (c =? sep) eqn:Hc.
    + constructor; [apply not_elem_of_nil | done].
    + apply N.eqb_neq in Hc.
      destruct (split sep s) as [|l ls].
      * repeat constructor. rewrite list_elem_of_singleton. congruence.
      * inversion_clear IH as [|? ? Hl Hls]. constructor; [|done].
        rewrite elem_of_cons. intros [->|?]; done.
Qed.

Lemma join_cons (sep l l' : str) ls :
  join sep (l :: l' :: ls) = l ++ sep ++ join sep (l' :: ls).
Proof. done. Qed.

Lemma join_split sep s : join [sep] (split sep s) = s.
Proof.
  induction s as [|c s IH]; [done|].
  simpl split. destruct (split_cons sep s) as (l & ls & Hs).
  rewrite Hs in IH |- *.
  destruct (c =? sep) eqn:Hc.
  - apply N.eqb_eq in Hc as ->. rewrite join_cons. by rewrite IH.
  - destruct ls as [|l' ls].
    + simpl in *. by rewrite IH.
    + rewrite join_cons in *. by rewrite <- IH.
Qed.




Lemma join_elem (sep : str) (ls : list str) x :
  x ∈ join sep ls → x ∈ sep ∨ ∃ l, l ∈ ls ∧ x ∈ l.
Proof.
  induction ls as [|l ls IH]; [by intros ?%elem_of_nil|].
  destruct ls as [|l' ls'].
  - intros Hx. right. exists l. split; [apply list_elem_of_here | done].
  - rewrite join_cons, !elem_of_app. intros [Hx|[Hx|Hx]].
    + right. exists l. split; [apply list_elem_of_here | done].
    + by left.
    + destruct (IH Hx) as [?|(l0 & Hl0 & Hx0)]; [by left|].
      right. exists l0. split; [by apply list_elem_of_further | done].
Qed.

(** ** The remaining fields *)

Definition pat_tax : regex := nth 3 amount_patterns (Lit []).

Lemma extracted_tax_amount text :
  extracted text "tax_amount" =
    Some (default [] (amount_of pat_tax (upper text))).
Proof.
  rewrite extracted_eq. unfold fields_of. fold pat_tax.
  rewrite lookup_upd_eq. destruct (amount_of pat_tax _); [done|].
  peel; done.
Qed.

Lemma extracted_currency text :
  extracted text "currency" = Some (default [] (currency_of (upper text))).
Proof.
  rewrite extracted_eq. unfold fields_of. peel;
    rewrite lookup_upd_eq; destruct (currency_of _); try done; peel; done.
Qed.

Lemma extracted_bill_to text :
  extracted text "bill_to" = Some (default [] (bill_to_of (split nl text))).
Proof.
  rewrite extracted_eq. unfold fields_of. peel;
    rewrite lookup_upd_eq; destruct (bill_to_of _); try done; peel; done.
Qed.

Lemma extracted_vendor text :
  let vendor_lines := vendor_loop (take 10 (split nl text)) [] in
  extracted text "vendor_name" = Some (nth 0 vendor_lines []) ∧
  extracted text "vendor_address" = Some (join space_str (drop 1 vendor_lines)).
Proof.
  intros vendor_lines. rewrite !extracted_eq. unfold fields_of.
  fold vendor_lines. destruct vendor_lines as [|name rest]; split; peel;
    rewrite ?lookup_insert_eq; try done;
    rewrite ?lookup_upd_ne by done; try done; peel; done.
Qed.

(** Comparisons of code points as arithmetic. *)
Ltac char_prop :=
  unfold in_cset, in_citem, is_space, is_decimal, is_digit, between,
    pound, euro;
  cbn [existsb]; rewrite ?orb_false_r;
  repeat first
    [ rewrite orb_true_iff | rewrite andb_true_iff
    | rewrite orb_false_iff | rewrite andb_false_iff
    | rewrite negb_true_iff | rewrite negb_false_iff
    | rewrite N.leb_le | rewrite N.eqb_eq
    | rewrite N.leb_gt | rewrite N.eqb_neq ].

(** ** The group of a pattern *)

Fixpoint group_body (r : regex) : option regex :=
  match r with
  | Grp b => Some b
  | Seq _ r2 => group_body r2
  | _ => None
  end.

Lemma matched_group r : ∀ b w c c',
  group_body r = Some b → matched r w c c' →
  ∃ u g cm ci, w = u ++ g ∧ c' = Some g ∧ matched b g cm ci.
Proof.
  induction r as [| | | | |r1 _ r2 IH2|r1 _]; intros b w c c'; simpl;
    try discriminate.
  - intros Hb (w1 & w2 & cm & -> & _ & H2).
    destruct (IH2 _ _ _ _ Hb H2) as (u & g & cm' & ci & -> & -> & Hg).
    exists (w1 ++ u), g, cm', ci. by rewrite (assoc_L (++)).
  - intros [= <-] [[ci Hm] ->]. by exists [], w, c, ci.
Qed.

(** What [search] captures with a pattern whose last item is the group. *)
Lemma search_group r b s m :
  group_body r = Some b → search r s = Some m →
  ∃ pre u g cm ci,
    s = pre ++ u ++ g ++ after m ∧ group0 m = u ++ g ∧ group1 m = Some g ∧
    matched r (u ++ g) None (Some g) ∧ matched b g cm ci.
Proof.
  intros Hb (pre & Hs & Hm)%search_matched.
  destruct (matched_group _ _ _ _ _ Hb Hm) as (u & g & cm & ci & Hw & Hc & Hg).
  exists pre, u, g, cm, ci. rewrite Hw, Hc in *.
  by rewrite <- (assoc_L (++)) in Hs.
Qed.

Lemma first_token_found patterns text_upper v :
  first_token patterns text_upper = Some v →
  ∃ p m, p ∈ patterns ∧ search p text_upper = Some m ∧
         v = strip (default [] (group1 m)).
Proof.
  induction patterns as [|p rest IH]; simpl; [discriminate|].
  destruct (search p text_upper) as [m|] eqn:Hs.
  - intros [= <-]. exists p, m. split; [apply list_elem_of_here | done].
  - intros (q & m & Hq & Hm & Hv)%IH. exists q, m.
    split; [by apply list_elem_of_further | done].
Qed.

Lemma token_not_space x : in_cset token_cs x = true → is_space x = false.
Proof. unfold token_cs. char_prop. lia. Qed.

Lemma invoice_patterns_body p :
  p ∈ invoice_patterns → group_body p = Some (plus token_cs).
Proof.
  unfold invoice_patterns. rewrite !elem_of_cons, elem_of_nil.
  intros [->|[->|[->|[->|[]]]]]; reflexivity.
Qed.

Lemma forallb_weaken {A} (f g : A → bool) (l : list A) :
  (∀ x, f x = true → g x = true) → forallb f l = true → forallb g l = true.
Proof.
  intros Hfg. induction l as [|x l IH]; simpl; [done|].
  intros [Hx Hl]%andb_prop. by rewrite (Hfg x Hx), IH.
Qed.

(** X1.  For every text of the alphabet, invoice_number is made only of
    the characters of the class of the patterns, capital letters, digits and
    hyphens, whatever the case of the letters in the text; when it is not
    empty it is group 1 of a match of one of the four patterns in the
    upper-cased text. *)
Theorem invoice_number_alphabet (text : str) :
  covered text = true →
  ∃ v, extracted text "invoice_number" = Some v ∧
       forallb (in_cset token_cs) v = true ∧
       (v ≠ [] → ∃ p m, p ∈ invoice_patterns ∧
                        search p (upper text) = Some m ∧ group1 m = Some v).
Proof.
  intros _. rewrite extracted_invoice_number.
  destruct (first_token invoice_patterns (upper text)) as [v|] eqn:Hv;
    [|by exists []].
  exists v. split; [done|].
  apply first_token_found in Hv as (p & m & Hp & Hs & ->).
  destruct (search_group _ _ _ _ (invoice_patterns_body p Hp) Hs)
    as (pre & u & g & cm & ci & _ & _ & Hg & _ & [(Hall & _) _]).
  rewrite Hg. simpl.
  rewrite strip_nospace.
  - split; [done|]. intros _. by exists p, m.
  - revert Hall. apply forallb_weaken. intros x Hx.
    by rewrite (token_not_space x Hx).
Qed.

(** The theorem at a text whose number is written in small letters. *)
Definition text_small_number : str := Eval cbv in
  lit "Invoice no: ab-12/x" ++ [nl] ++ lit "Total: 5".

Lemma invoice_number_alphabet_witness :
  covered text_small_number = true ∧
  ∃ v, extracted text_small_number "invoice_number" = Some v ∧
       forallb (in_cset token_cs) v = true ∧
       (v ≠ [] → ∃ p m, p ∈ invoice_patterns ∧
                        search p (upper text_small_number) = Some m ∧
                        group1 m = Some v).
Proof.
  split; [reflexivity|].
  apply (invoice_number_alphabet text_small_number). reflexivity.
Defined.

(** ** Currency *)



Lemma strip_prefix_startswith (l s : str) :
  is_Some (strip_prefix l s) ↔ startswith l s = true.
Proof.
  revert s. induction l as [|x l IH]; intros s; simpl; [by split; eauto|].
  destruct s as [|y s]; [split; [by intros [? ?]|done]|].
  destruct (x =? y); simpl; [apply IH|]. split; [by intros [? ?]|done].
Qed.


Lemma contains_cons (l : str) x s :
  contains l (x :: s) = startswith l (x :: s) || contains l s.
Proof. done. Qed.

Lemma contains_nil (l : str) : contains l [] = startswith l [].
Proof. simpl. apply orb_false_r. Qed.





(** ** Amounts *)

(** The body of the group of the four amount patterns. *)
Definition amount_body : regex := Eval cbv in
  Opt (Cls sym_cs) ⋅ star [Space] ⋅ plus num_cs ⋅ Opt (L ".") ⋅ star [Digit].

Lemma amount_patterns_body p :
  p ∈ amount_patterns → group_body p = Some amount_body.
Proof.
  unfold amount_patterns. rewrite !elem_of_cons, elem_of_nil.
  intros [->|[->|[->|[->|[]]]]]; reflexivity.
Qed.

(** Digits, possibly a decimal point, digits; at least one digit. *)
Definition plain_number (v : str) : Prop :=
  ∃ (ip fp : str) (pt : bool),
    v = ip ++ (if pt then [46] else []) ++ fp ∧
    forallb is_decimal (ip ++ fp) = true ∧ ip ++ fp ≠ [].

Lemma sub_cset_app cs (a b : str) :
  sub_cset cs (a ++ b) = sub_cset cs a ++ sub_cset cs b.
Proof. apply filter_app. Qed.

Lemma sub_cset_all cs (w : str) :
  forallb (in_cset cs) w = true → sub_cset cs w = [].
Proof.
  induction w as [|x w IH]; [done|]. cbn [forallb].
  intros [Hx Hw]%andb_prop. unfold sub_cset in *.
  rewrite filter_cons_False by (by rewrite Hx). auto.
Qed.

Lemma sub_cset_none cs (w : str) :
  forallb (λ x, negb (in_cset cs x)) w = true → sub_cset cs w = w.
Proof.
  induction w as [|x w IH]; [done|]. cbn [forallb].
  intros [Hx%negb_true_iff Hw]%andb_prop. unfold sub_cset in *.
  rewrite filter_cons_True by done. by rewrite IH.
Qed.

Lemma remove_char_none c (w : str) : c ∉ w → remove_char c w = w.
Proof.
  induction w as [|x w IH]; [done|]. rewrite not_elem_of_cons.
  intros [Hx Hw]. unfold remove_char in *.
  rewrite filter_cons_True by done. by rewrite IH.
Qed.

Lemma decimal_not_stripped x : is_decimal x = true → in_cset strip_cs x = false.
Proof. unfold strip_cs. char_prop. lia. Qed.

Lemma sym_stripped x : in_cset sym_cs x = true → in_cset strip_cs x = true.
Proof. unfold sym_cs, strip_cs. char_prop. lia. Qed.

Lemma space_stripped x : in_cset [Space] x = true → in_cset strip_cs x = true.
Proof. unfold strip_cs. char_prop. lia. Qed.

Lemma digit_cs_decimal x : in_cset [Digit] x = true → is_decimal x = true.
Proof. char_prop. lia. Qed.

Lemma decimal_not_point (w : str) : forallb is_decimal w = true → 46 ∉ w.
Proof.
  induction w as [|x w IH]; [intros _; apply not_elem_of_nil|].
  cbn [forallb]. intros [Hx Hw]%andb_prop. rewrite not_elem_of_cons.
  split; [|auto]. revert Hx. char_prop. lia.
Qed.

(** Stripping a run of digits and commas leaves its digits. *)
Lemma sub_cset_num (w : str) :
  forallb (in_cset num_cs) w = true →
  forallb is_decimal (sub_cset strip_cs w) = true.
Proof.
  induction w as [|x w IH]; [done|]. cbn [forallb].
  intros [Hx Hw]%andb_prop. unfold sub_cset in *.
  destruct (in_cset strip_cs x) eqn:Hs.
  - rewrite filter_cons_False by (by rewrite Hs). auto.
  - rewrite filter_cons_True by done. cbn [forallb]. rewrite IH by done.
    rewrite andb_true_r. revert Hx Hs. unfold num_cs, strip_cs.
    char_prop. lia.
Qed.

Lemma accepted_plain g cm ci a :
  matched amount_body g cm ci → accepted g = Some a → plain_number a.
Proof.
  unfold amount_body. cbn [matched].
  intros (w1 & r1 & c1 & -> & Hw1 & w2 & r2 & c2 & -> & [(Hw2 & _) _] &
          w3 & r3 & c3 & -> & [(Hw3 & _) _] &
          w4 & w5 & c4 & -> & Hw4 & [(Hw5 & _) _]).
  unfold accepted. rewrite !sub_cset_app.
  assert (sub_cset strip_cs w1 = []) as ->.
  { destruct Hw1 as [[-> _]|[(x & -> & Hx) _]]; [done|].
    apply sub_cset_all. cbn [forallb]. by rewrite (sym_stripped x Hx). }
  rewrite (sub_cset_all strip_cs w2)
    by (revert Hw2; apply forallb_weaken, space_stripped).
  assert (Hw5' : forallb is_decimal w5 = true).
  { revert Hw5. apply forallb_weaken, digit_cs_decimal. }
  rewrite (sub_cset_none strip_cs w5)
    by (revert Hw5'; apply forallb_weaken; intros x Hx;
        by rewrite decimal_not_stripped).
  pose proof (sub_cset_num w3 Hw3) as Hip.
  set (ip := sub_cset strip_cs w3) in *. simpl app.
  assert (∃ pt : bool, sub_cset strip_cs w4 = if pt then [46] else [])
    as [pt ->].
  { destruct Hw4 as [[-> _]|[-> _]]; [by exists false | by exists true]. }
  destruct (isdigit _) eqn:Hd; [|discriminate]. intros [= <-].
  exists ip, w5, pt. split; [done|].
  split; [by rewrite forallb_app, Hip, Hw5'|].
  intros Hnil. apply app_eq_nil in Hnil as [Hi ->]. rewrite Hi in Hd.
  by destruct pt.
Qed.

Lemma first_amount_found patterns text_upper a :
  first_amount patterns text_upper = Some a →
  ∃ p, p ∈ patterns ∧ amount_of p text_upper = Some a.
Proof.
  induction patterns as [|p rest IH]; simpl; [discriminate|].
  destruct (amount_of p text_upper) as [a'|] eqn:Ha.
  - intros [= <-]. exists p. split; [apply list_elem_of_here | done].
  - intros (q & Hq & Hm)%IH. exists q.
    split; [by apply list_elem_of_further | done].
Qed.

Lemma amount_of_plain p text_upper a :
  p ∈ amount_patterns → amount_of p text_upper = Some a → plain_number a.
Proof.
  intros Hp. unfold amount_of.
  destruct (search p text_upper) as [m|] eqn:Hs; [|discriminate].
  destruct (search_group _ _ _ _ (amount_patterns_body p Hp) Hs)
    as (pre & u & g & cm & ci & _ & _ & Hg & _ & Hm).
  rewrite Hg. simpl. by apply accepted_plain with cm ci.
Qed.

Lemma amount_field_plain (text : str) (k : string) :
  k ∈ ["total_amount"; "subtotal"; "tax_amount"]%string →
  ∃ v, extracted text k = Some v ∧ (v = [] ∨ plain_number v).
Proof.
  rewrite !elem_of_cons, elem_of_nil. intros [->|[->|[->|[]]]].
  - rewrite extracted_total_amount.
    destruct (first_amount _ _) as [a|] eqn:Ha; [|by exists []; auto].
    exists a. split; [done|]. right.
    apply first_amount_found in Ha as (p & Hp & Ha).
    apply (amount_of_plain p (upper text)); [|done].
    apply (subseteq_take 2). done.
  - rewrite extracted_subtotal.
    destruct (amount_of _ _) as [a|] eqn:Ha; [|by exists []; auto].
    exists a. split; [done|]. right.
    apply (amount_of_plain pat_subtotal (upper text)); [|done].
    unfold pat_subtotal, amount_patterns. simpl. rewrite !elem_of_cons. tauto.
  - rewrite extracted_tax_amount.
    destruct (amount_of _ _) as [a|] eqn:Ha; [|by exists []; auto].
    exists a. split; [done|]. right.
    apply (amount_of_plain pat_tax (upper text)); [|done].
    unfold pat_tax, amount_patterns. simpl. rewrite !elem_of_cons. tauto.
Qed.

(** X3.  For every text of the alphabet, each of total_amount, subtotal and
    tax_amount is empty or a plain number: decimal digits with at most one
    decimal point and at least one digit, without currency symbol, comma or
    white space. *)
Theorem amounts_are_plain_numbers (text : str) :
  covered text = true →
  Forall (λ k, ∃ v, extracted text k = Some v ∧ (v = [] ∨ plain_number v))
         ["total_amount"; "subtotal"; "tax_amount"]%string.
Proof.
  intros _. apply Forall_forall. intros k Hk. by apply amount_field_plain.
Qed.

(** The theorem at a text with the three amounts, written with currency
    signs and grouping commas. *)
Definition text_three_amounts : str := Eval cbv in
  lit "Subtotal: £1,000.00" ++ [nl] ++ lit "Tax 20%: £ 200.00" ++ [nl] ++
  lit "Total: £1,200.00".

Lemma amounts_are_plain_numbers_witness :
  covered text_three_amounts = true ∧
  Forall (λ k, ∃ v, extracted text_three_amounts k = Some v ∧
                    (v = [] ∨ plain_number v))
         ["total_amount"; "subtotal"; "tax_amount"]%string.
Proof.
  split; [reflexivity|].
  apply (amounts_are_plain_numbers text_three_amounts). reflexivity.
Defined.

(** ** Keywords *)

(** The literal a pattern begins with. *)
Fixpoint head_lit (r : regex) : option str :=
  match r with
  | Lit l => Some l
  | Seq r1 _ => head_lit r1
  | Grp r1 => head_lit r1
  | _ => None
  end.

Lemma matched_head r : ∀ l w c c',
  head_lit r = Some l → matched r w c c' → ∃ b, w = l ++ b.
Proof.
  induction r as [l0| | | | |r1 IH1 r2 _|r1 IH1]; intros l w c c'; simpl;
    try discriminate.
  - intros [= <-] [-> _]. exists []. by rewrite app_nil_r.
  - intros Hl (w1 & w2 & cm & -> & H1 & _).
    destruct (IH1 _ _ _ _ Hl H1) as [b ->]. exists (b ++ w2).
    by rewrite (assoc_L (++)).
  - intros Hl [[ci Hm] _]. eauto.
Qed.

Definition absent (text_upper : str) (p : regex) : Prop :=
  ∃ l, head_lit p = Some l ∧ contains l text_upper = false.

Lemma search_absent p text_upper :
  absent text_upper p → search p text_upper = None.
Proof.
  intros (l & Hl & Hc). destruct (search p text_upper) as [m|] eqn:Hs; [|done].
  apply search_matched in Hs as (pre & Hs & Hm).
  destruct (matched_head _ _ _ _ _ Hl Hm) as [b Hb]. rewrite Hb in Hs.
  exfalso. apply (contains_false_infix l pre (b ++ after m) text_upper Hc).
  by rewrite Hs, <- (assoc_L (++)).
Qed.

Lemma first_amount_none patterns text_upper :
  Forall (λ p, search p text_upper = None) patterns →
  first_amount patterns text_upper = None.
Proof.
  induction 1 as [|p rest Hp _ IH]; simpl; [done|].
  unfold amount_of. by rewrite Hp.
Qed.

(** X4.  In a text of the alphabet a field is read only where its keyword
    stands: when the upper-cased text holds the leading literal of none of
    the invoice patterns, invoice_number is empty; likewise total_amount for
    the literals TOTAL and AMOUNT, subtotal for SUBTOTAL and tax_amount for
    TAX. *)
Theorem fields_need_keywords (text : str) :
  covered text = true →
  (Forall (absent (upper text)) invoice_patterns →
   extracted text "invoice_number" = Some []) ∧
  (Forall (absent (upper text)) (take 2 amount_patterns) →
   extracted text "total_amount" = Some []) ∧
  (absent (upper text) pat_subtotal → extracted text "subtotal" = Some []) ∧
  (absent (upper text) pat_tax → extracted text "tax_amount" = Some []).
Proof.
  intros _. repeat split.
  - intros H. rewrite extracted_invoice_number, first_token_none; [done|].
    intros p Hp. apply search_absent. by apply (proj1 (Forall_forall _ _) H).
  - intros H. rewrite extracted_total_amount, first_amount_none; [done|].
    apply (Forall_impl _ _ _ H). intros p. apply search_absent.
  - intros H%search_absent. rewrite extracted_subtotal. unfold amount_of.
    by rewrite H.
  - intros H%search_absent. rewrite extracted_tax_amount. unfold amount_of.
    by rewrite H.
Qed.

Definition text_rechnung : str := Eval cbv in
  lit "Rechnung Nr. 4711" ++ [nl] ++ lit "Summe 120,00".

Lemma fields_need_keywords_witness :
  extracted text_rechnung "invoice_number" = Some [] ∧
  extracted text_rechnung "total_amount" = Some [] ∧
  extracted text_rechnung "subtotal" = Some [] ∧
  extracted text_rechnung "tax_amount" = Some [].
Proof.
  destruct (fields_need_keywords text_rechnung eq_refl)
    as (H1 & H2 & H3 & H4).
  split; [|split; [|split]].
  - apply H1. repeat constructor; eexists; (split; [reflexivity|]);
      vm_compute; reflexivity.
  - apply H2. repeat constructor; eexists; (split; [reflexivity|]);
      vm_compute; reflexivity.
  - apply H3. eexists. split; [reflexivity|]. vm_compute. reflexivity.
  - apply H4. eexists. split; [reflexivity|]. vm_compute. reflexivity.
Defined.

(** ** Dates *)

Lemma findall_from_elem r : ∀ s n d,
  d ∈ findall_from r n s →
  ∃ i m, match_at r (drop i s) = Some m ∧ d = default [] (group1 m).
Proof.
  induction s as [|x s IH]; intros n d; simpl.
  - destruct n; [|by intros ?%elem_of_nil].
    destruct (match_at r []) as [m|] eqn:Hm; [|by intros ?%elem_of_nil].
    rewrite list_elem_of_singleton. intros ->. by exists 0%nat, m.
  - destruct n as [|n].
    + destruct (match_at r (x :: s)) as [m|] eqn:Hm.
      * rewrite elem_of_cons. intros [->|Hd]; [by exists 0%nat, m|].
        apply IH in Hd as (i & m' & Hm' & ->). by exists (S i), m'.
      * intros (i & m' & Hm' & ->)%IH. by exists (S i), m'.
    + intros (i & m' & Hm' & ->)%IH. by exists (S i), m'.
Qed.

(** The least number of characters a pattern takes. *)
Fixpoint min_len (r : regex) : nat :=
  match r with
  | Lit l => length l
  | Cls _ => 1
  | Rep _ lo _ => lo
  | Opt _ => 0
  | Alt r1 r2 => min_len r1 `min` min_len r2
  | Seq r1 r2 => min_len r1 + min_len r2
  | Grp r1 => min_len r1
  end.

Lemma matched_min_len r : ∀ w c c',
  matched r w c c' → (min_len r ≤ length w)%nat.
Proof.
  induction r as [l|cs|cs lo hi|r1 IH1|r1 IH1 r2 IH2|r1 IH1 r2 IH2|r1 IH1];
    intros w c c'; simpl.
  - by intros [-> _].
  - by intros [(x & -> & _) _].
  - by intros [(_ & ? & _) _].
  - lia.
  - intros [H%IH1|H%IH2]; lia.
  - intros (w1 & w2 & cm & -> & H1%IH1 & H2%IH2). rewrite length_app. lia.
  - intros [[ci H%IH1] _]. done.
Qed.

Lemma date_found (text d : str) :
  d ∈ dates_found text → contains d text = true ∧ (6 ≤ length d)%nat.
Proof.
  unfold dates_found. rewrite list_elem_of_In, in_flat_map.
  intros (p & Hp%list_elem_of_In & Hd%list_elem_of_In).
  apply findall_from_elem in Hd as (i & m & Hm & ->).
  apply match_at_matched in Hm as [Hs Hm].
  assert (∃ b, p = Grp b ∧ (6 ≤ min_len b)%nat) as (b & -> & Hlen).
  { unfold date_patterns in Hp. rewrite !elem_of_cons, elem_of_nil in Hp.
    destruct Hp as [->|[->|[->|[]]]]; eexists; (split; [reflexivity|]);
      simpl; lia. }
  destruct Hm as [[ci Hm] ->]. simpl. split.
  - apply contains_infix. exists (take i text), (after m).
    by rewrite <- Hs, take_drop.
  - apply matched_min_len in Hm. lia.
Qed.

(** X5.  For every text, invoice_date and due_date are empty or stand in the
    text as they are returned, with at least six characters; due_date is
    empty whenever invoice_date is. *)
Theorem dates_are_quoted (text : str) :
  ∃ d1 d2,
    extracted text "invoice_date" = Some d1 ∧
    extracted text "due_date" = Some d2 ∧
    (d1 = [] → d2 = []) ∧
    Forall (λ d, d = [] ∨ contains d text = true ∧ (6 ≤ length d)%nat)
           [d1; d2].
Proof.
  destruct (extracted_dates text) as [-> ->].
  eexists _, _. split; [done|]. split; [done|].
  pose proof (date_found text) as H.
  destruct (dates_found text) as [|d1 [|d2 rest]]; simpl.
  - split; [done|]. constructor; [by left|]. constructor; [by left|done].
  - split; [done|]. constructor; [right|constructor; [by left|done]].
    apply H, list_elem_of_here.
  - split.
    + intros ->. destruct (H [] (list_elem_of_here _ _)) as [_ Hl].
      simpl in Hl. lia.
    + constructor; [right|constructor; [right|done]]; apply H.
      * apply list_elem_of_here.
      * apply list_elem_of_further, list_elem_of_here.
Qed.

(** ** Vendor lines *)

(** The test of line 149. *)
Definition vendor_line (line : str) : bool :=
  truthy (strip line) &&
  negb (existsb (λ keyword, contains keyword (upper line)) vendor_keywords).

(** The loop of lines 147-152 keeps the first three lines that pass. *)
Lemma vendor_loop_eq lines : ∀ acc,
  (length acc < 3)%nat →
  vendor_loop lines acc =
    take 3 (acc ++ map strip (filter (λ l, vendor_line l = true) lines)).
Proof.
  induction lines as [|line rest IH]; intros acc Hacc.
  - simpl. rewrite app_nil_r, take_ge by lia. done.
  - cbn [vendor_loop]. fold (vendor_line line).
    destruct (vendor_line line) eqn:Hline.
    + rewrite filter_cons_True by done.
      destruct (3 <=? length (acc ++ [strip line]))%nat eqn:Hlen.
      * apply Nat.leb_le in Hlen. rewrite length_app in Hlen. simpl in Hlen.
        cbn [map]. rewrite (cons_middle (strip line) acc (map strip _)).
        rewrite (assoc_L (++)), take_app_length'; [done|].
        rewrite length_app. simpl. lia.
      * apply Nat.leb_gt in Hlen. rewrite IH by done.
        cbn [map]. rewrite (cons_middle (strip line) acc (map strip _)).
        by rewrite (assoc_L (++)).
    + rewrite filter_cons_False by (by rewrite Hline). by apply IH.
Qed.

(** The lines that can name the vendor: of the first ten lines, those
    that pass the test, stripped. *)
Definition vendor_candidates (text : str) : list str :=
  map strip (filter (λ l, vendor_line l = true) (take 10 (split nl text))).

(** X6.  For every text of the alphabet, vendor_name is the first vendor
    candidate (or empty) and vendor_address the next two joined by a space:
    the loop keeps the first three of the first ten lines that pass the test
    of line 149. *)
Theorem vendor_is_first_three_candidates (text : str) :
  covered text = true →
  extracted text "vendor_name" = Some (nth 0 (vendor_candidates text) []) ∧
  extracted text "vendor_address" =
    Some (join space_str (take 2 (drop 1 (vendor_candidates text)))).
Proof.
  intros _. destruct (extracted_vendor text) as [-> ->].
  rewrite vendor_loop_eq by (simpl; lia). simpl app.
  fold (vendor_candidates text).
  destruct (vendor_candidates text) as [|c1 [|c2 [|c3 rest]]]; done.
Qed.

(** The theorem at a text that begins with a title line and names the
    vendor on four lines. *)
Definition text_vendor_block : str := Eval cbv in
  lit "INVOICE" ++ [nl] ++ lit "  Acme Ltd " ++ [nl] ++ [nl] ++
  lit "1 High Street" ++ [nl] ++ lit "Date: 01/02/2024" ++ [nl] ++
  lit "Leeds" ++ [nl] ++ lit "LS1 1AA".

Lemma vendor_is_first_three_candidates_witness :
  covered text_vendor_block = true ∧
  extracted text_vendor_block "vendor_name" = Some (lit "Acme Ltd") ∧
  extracted text_vendor_block "vendor_address"
    = Some (lit "1 High Street Leeds").
Proof.
  split; [reflexivity|].
  destruct (vendor_is_first_three_candidates text_vendor_block eq_refl)
    as [H1 H2].
  split.
  - rewrite H1. vm_compute. reflexivity.
  - rewrite H2. vm_compute. reflexivity.
Defined.

Lemma upper_strip_infix (line : str) :
  ∃ a b, upper line = a ++ upper (strip line) ++ b.
Proof.
  destruct (strip_spec line) as (a & b & Hs & _).
  exists (upper a), (upper b). rewrite Hs at 1. by rewrite !upper_app.
Qed.

Lemma contains_mono (l a s b : str) :
  contains l s = true → contains l (a ++ s ++ b) = true.
Proof.
  intros (a' & b' & ->)%contains_infix. apply contains_infix.
  exists (a ++ a'), (b' ++ b). by rewrite <- !(assoc_L (++)).
Qed.

Lemma vendor_candidate_spec (text v : str) :
  v ∈ vendor_candidates text →
  v ≠ [] ∧ strip v = v ∧
  Forall (λ kw, contains kw (upper v) = false) vendor_keywords.
Proof.
  unfold vendor_candidates. rewrite list_elem_of_fmap.
  intros (line & -> & [Hline _]%list_elem_of_filter).
  unfold vendor_line in Hline.
  apply andb_prop in Hline as [Hne Hkw%negb_true_iff].
  split; [by destruct (strip line)|]. split; [apply strip_idemp|].
  apply Forall_forall. intros kw Hin.
  destruct (contains kw (upper (strip line))) eqn:Hc; [exfalso|done].
  destruct (upper_strip_infix line) as (a & b & Hu).
  apply (contains_mono kw a _ b) in Hc. rewrite <- Hu in Hc.
  assert (existsb (λ keyword, contains keyword (upper line)) vendor_keywords
          = true); [|congruence].
  apply existsb_exists. exists kw. by rewrite <- list_elem_of_In.
Qed.

(** X7.  For every text, vendor_name holds none of INVOICE, BILL TO and
    DATE, in any case of the letters, and has no white space at either end. *)
Theorem vendor_name_has_no_keyword (text : str) :
  ∃ v, extracted text "vendor_name" = Some v ∧ strip v = v ∧
       Forall (λ kw, contains kw (upper v) = false) vendor_keywords.
Proof.
  destruct (extracted_vendor text) as [-> _].
  rewrite vendor_loop_eq by (simpl; lia). simpl app.
  fold (vendor_candidates text). eexists. split; [done|].
  pose proof (vendor_candidate_spec text) as H.
  destruct (vendor_candidates text) as [|v rest]; simpl.
  - split; [done|]. by repeat constructor.
  - destruct (H v (list_elem_of_here _ _)) as (_ & ? & ?). done.
Qed.

(** ** The block after BILL TO *)

(** The lines up to the first blank one, stripped. *)
Fixpoint until_blank (lines : list str) : list str :=
  match lines with
  | line :: rest =>
    if truthy (strip line) then strip line :: until_blank rest else []
  | [] => []
  end.

Lemma bill_to_collect_eq (text_lines : list str) : ∀ n start acc,
  (start + n ≤ length text_lines)%nat →
  bill_to_collect text_lines (seq start n) acc =
    acc ++ until_blank (take n (drop start text_lines)).
Proof.
  induction n as [|n IH]; intros start acc Hlen.
  - simpl. by rewrite app_nil_r.
  - cbn [seq bill_to_collect].
    destruct (text_lines !! start) as [line|] eqn:Hline.
    2: { apply lookup_ge_None in Hline. lia. }
    rewrite (drop_S _ _ _ Hline).
    cbn [default from_option id take until_blank].
    destruct (truthy (strip line)); [|by rewrite app_nil_r].
    rewrite IH by lia. by rewrite <- (assoc_L (++)).
Qed.

Lemma bill_to_start_from_spec (lines : list str) : ∀ i0,
  match bill_to_start_from i0 lines with
  | Some i =>
    ∃ j line, i = (i0 + j)%nat ∧ lines !! j = Some line ∧
      contains bill_to_kw (upper line) = true ∧
      ∀ j' l, (j' < j)%nat → lines !! j' = Some l →
              contains bill_to_kw (upper l) = false
  | None => ∀ l, l ∈ lines → contains bill_to_kw (upper l) = false
  end.
Proof.
  induction lines as [|line rest IH]; intros i0; simpl.
  - by intros l ?%elem_of_nil.
  - destruct (contains bill_to_kw (upper line)) eqn:Hline.
    + exists 0%nat, line. split; [lia|]. split; [done|]. split; [done|]. lia.
    + specialize (IH (S i0)).
      destruct (bill_to_start_from (S i0) rest) as [i|].
      * destruct IH as (j & l & -> & Hl & Hc & Hbefore).
        exists (S j), l. split; [lia|]. split; [done|]. split; [done|].
        intros [|j'] l' Hlt; simpl; [by intros [= <-]|].
        apply Hbefore. lia.
      * intros l [->|Hl]%elem_of_cons; auto.
Qed.

(** X8.  When some line of a text of the alphabet holds BILL TO, in any case
    of the letters, bill_to is made of the lines after the first such line:
    at most five, up to the first blank one, stripped and joined by a space;
    with no such line it stays empty. *)
Theorem bill_to_is_block_after_heading (text : str) :
  covered text = true →
  let text_lines := split nl text in
  match bill_to_start_from 0 text_lines with
  | Some i =>
    (∃ line, text_lines !! i = Some line ∧
             contains bill_to_kw (upper line) = true) ∧
    (∀ j l, (j < i)%nat → text_lines !! j = Some l →
            contains bill_to_kw (upper l) = false) ∧
    extracted text "bill_to" =
      Some (join space_str (until_blank (take 5 (drop (S i) text_lines))))
  | None =>
    (∀ l, l ∈ text_lines → contains bill_to_kw (upper l) = false) ∧
    extracted text "bill_to" = Some []
  end.
Proof.
  intros _ text_lines. rewrite extracted_bill_to. fold text_lines.
  unfold bill_to_of.
  pose proof (bill_to_start_from_spec text_lines 0) as H.
  destruct (bill_to_start_from 0 text_lines) as [i|]; [|done].
  destruct H as (j & line & -> & Hline & Hc & Hbefore). simpl.
  split; [by exists line|]. split; [done|].
  apply lookup_lt_Some in Hline.
  unfold range. rewrite bill_to_collect_eq by lia. simpl app.
  replace (j + 1)%nat with (S j) by lia.
  do 3 f_equal.
  rewrite <- (take_ge (drop (S j) text_lines) (length text_lines - S j))
    at 2 by (rewrite length_drop; lia).
  rewrite take_take. f_equal. lia.
Qed.

(** The theorem at a text whose second line is the heading, followed by
    two lines and a blank one. *)
Definition text_bill_to : str := Eval cbv in
  lit "Acme Ltd" ++ [nl] ++ lit "Bill to:" ++ [nl] ++ lit " John Smith" ++
  [nl] ++ lit "2 Low Road " ++ [nl] ++ lit "  " ++ [nl] ++ lit "Total: 5".

Lemma bill_to_is_block_after_heading_witness :
  covered text_bill_to = true ∧
  extracted text_bill_to "bill_to" = Some (lit "John Smith 2 Low Road").
Proof.
  split; [reflexivity|].
  pose proof (bill_to_is_block_after_heading text_bill_to eq_refl) as H.
  cbv zeta in H.
  replace (bill_to_start_from 0 (split nl text_bill_to)) with (Some 1%nat)
    in H by (vm_compute; reflexivity).
  destruct H as (_ & _ & H). rewrite H. vm_compute. reflexivity.
Defined.

(** ** Fields made of lines *)

Lemma until_blank_elem (lines : list str) v :
  v ∈ until_blank lines → ∃ l, l ∈ lines ∧ v = strip l.
Proof.
  induction lines as [|line rest IH]; simpl; [by intros ?%elem_of_nil|].
  destruct (truthy (strip line)); [|by intros ?%elem_of_nil].
  intros [->|(l & Hl & ->)%IH]%elem_of_cons.
  - exists line. split; [apply list_elem_of_here | done].
  - exists l. split; [by apply list_elem_of_further | done].
Qed.

(** Stripped lines joined by a space hold no line break. *)
Lemma join_stripped_lines (text : str) (parts : list str) :
  (∀ v, v ∈ parts → ∃ l, l ∈ split nl text ∧ v = strip l) →
  nl ∉ join space_str parts.
Proof.
  intros Hparts [Hx|(v & Hv & Hx)]%join_elem.
  - revert Hx. unfold space_str, nl. rewrite list_elem_of_singleton. done.
  - destruct (Hparts v Hv) as (l & Hl & ->). apply strip_elem in Hx.
    by apply (proj1 (Forall_forall _ _) (split_no_sep nl text) l Hl).
Qed.

Lemma vendor_candidates_lines (text v : str) :
  v ∈ vendor_candidates text → ∃ l, l ∈ split nl text ∧ v = strip l.
Proof.
  unfold vendor_candidates. rewrite list_elem_of_fmap.
  intros (l & -> & [_ Hl]%list_elem_of_filter). exists l. split; [|done].
  by apply (subseteq_take 10).
Qed.

(** X9.  For every text, vendor_name, vendor_address and bill_to hold no
    line break. *)
Theorem line_fields_hold_no_line_break (text : str) :
  Forall (λ k, ∃ v, extracted text k = Some v ∧ nl ∉ v)
         ["vendor_name"; "vendor_address"; "bill_to"]%string.
Proof.
  destruct (extracted_vendor text) as [Hname Haddr].
  rewrite vendor_loop_eq in Hname, Haddr by (simpl; lia).
  simpl app in Hname, Haddr. fold (vendor_candidates text) in Hname, Haddr.
  pose proof (vendor_candidates_lines text) as Hc.
  constructor; [|constructor; [|constructor; [|done]]].
  - eexists. split; [done|].
    destruct (vendor_candidates text) as [|v rest]; simpl;
      [apply not_elem_of_nil|].
    change (nl ∉ join space_str [v]).
    apply (join_stripped_lines text). intros v' ->%list_elem_of_singleton.
    apply Hc, list_elem_of_here.
  - eexists. split; [done|]. apply (join_stripped_lines text).
    intros v Hv%(subseteq_drop 1)%(subseteq_take 3). by apply Hc.
  - rewrite extracted_bill_to. eexists. split; [done|]. unfold bill_to_of.
    destruct (bill_to_start_from 0 (split nl text)) as [i|];
      [|apply not_elem_of_nil].
    simpl. apply (join_stripped_lines text). intros v Hv.
    set (lines := split nl text) in *.
    assert (∃ n, bill_to_collect lines
              (range (i + 1) ((i + 6) `min` length lines)) [] =
              until_blank (take n (drop (i + 1) lines))) as [n Hn].
    { unfold range. destruct (decide (i + 1 ≤ length lines)%nat).
      - eexists. rewrite bill_to_collect_eq by lia. done.
      - exists 0%nat. replace (_ - _)%nat with 0%nat by lia. done. }
    rewrite Hn in Hv. apply until_blank_elem in Hv as (l & Hl & ->).
    exists l. split; [|done].
    by apply (subseteq_drop (i + 1)), (subseteq_take n).
Qed.

(** ** Blank text *)

Definition space_chars : list char :=
  [9; 10; 11; 12; 13; 28; 29; 30; 31; 32; 133; 160].

Lemma is_space_cases x : is_space x = true → x ∈ space_chars.
Proof.
  unfold space_chars. rewrite !elem_of_cons, elem_of_nil. char_prop. lia.
Qed.

Definition cs_nonspace (cs : cset) : bool :=
  forallb (λ x, negb (in_cset cs x)) space_chars.

Lemma cs_nonspace_spec cs x :
  cs_nonspace cs = true → in_cset cs x = true → is_space x = false.
Proof.
  intros Hcs Hx. destruct (is_space x) eqn:Hsp; [|done].
  apply is_space_cases in Hsp. unfold cs_nonspace in Hcs.
  rewrite forallb_forall in Hcs. apply list_elem_of_In, Hcs in Hsp.
  by rewrite Hx in Hsp.
Qed.

(** Every text the pattern matches holds a character that is not white
    space. *)
Fixpoint needs_nonspace (r : regex) : bool :=
  match r with
  | Lit l => existsb (λ x, negb (is_space x)) l
  | Cls cs => cs_nonspace cs
  | Rep cs lo _ => (1 <=? lo)%nat && cs_nonspace cs
  | Opt _ => false
  | Alt r1 r2 => needs_nonspace r1 && needs_nonspace r2
  | Seq r1 r2 => needs_nonspace r1 || needs_nonspace r2
  | Grp r1 => needs_nonspace r1
  end.

Lemma matched_nonspace r : ∀ w c c',
  needs_nonspace r = true → matched r w c c' →
  ∃ x, x ∈ w ∧ is_space x = false.
Proof.
  induction r as [l|cs|cs lo hi|r1 IH1|r1 IH1 r2 IH2|r1 IH1 r2 IH2|r1 IH1];
    intros w c c'; simpl.
  - intros (x & Hx%list_elem_of_In & Hsp%negb_true_iff)%existsb_exists [-> _].
    eauto.
  - intros Hcs [(x & -> & Hx) _]. exists x.
    split; [apply list_elem_of_here | by apply (cs_nonspace_spec cs)].
  - intros [Hlo Hcs]%andb_prop [(Hall & Hlen & _) _].
    destruct lo; [discriminate|].
    destruct w as [|x w]; [simpl in Hlen; lia|]. exists x.
    split; [apply list_elem_of_here|]. apply (cs_nonspace_spec cs x Hcs).
    simpl in Hall. by apply andb_prop in Hall as [? _].
  - discriminate.
  - intros [H1 H2]%andb_prop [H|H]; eauto.
  - intros H (w1 & w2 & cm & -> & Hm1 & Hm2).
    apply orb_prop in H as [H|H].
    + destruct (IH1 _ _ _ H Hm1) as (x & Hx & Hsp). exists x.
      split; [|done]. rewrite elem_of_app. by left.
    + destruct (IH2 _ _ _ H Hm2) as (x & Hx & Hsp). exists x.
      split; [|done]. rewrite elem_of_app. by right.
  - intros H [[ci Hm] _]. eauto.
Qed.

Lemma forallb_elem {A} (f : A → bool) (l : list A) x :
  forallb f l = true → x ∈ l → f x = true.
Proof. rewrite forallb_forall. intros H Hx%list_elem_of_In. auto. Qed.

Lemma blank_match_at r s :
  needs_nonspace r = true → forallb is_space s = true → match_at r s = None.
Proof.
  intros Hr Hs. destruct (match_at r s) as [m|] eqn:Hm; [exfalso|done].
  apply match_at_matched in Hm as [Heq Hm].
  destruct (matched_nonspace _ _ _ _ Hr Hm) as (x & Hx & Hsp).
  assert (is_space x = true); [|congruence].
  apply (forallb_elem _ s); [done|]. rewrite Heq, elem_of_app. by left.
Qed.

Lemma blank_search r s :
  needs_nonspace r = true → forallb is_space s = true → search r s = None.
Proof.
  intros Hr. induction s as [|x s IH]; intros Hs; cbn [search];
    rewrite blank_match_at by done; [done|].
  simpl in Hs. apply andb_prop in Hs as [_ Hs]. auto.
Qed.

Lemma blank_findall r s :
  needs_nonspace r = true → forallb is_space s = true → findall r s = [].
Proof.
  intros Hr Hs. apply findall_nowhere. intros i _.
  apply blank_match_at; [done|].
  apply forallb_forall. intros x Hx%list_elem_of_In%(subseteq_drop i).
  by apply (forallb_elem _ s).
Qed.

Lemma upper_blank (s : str) : forallb is_space s = true → upper s = s.
Proof.
  induction s as [|x s IH]; [done|]. cbn [forallb].
  intros [Hx Hs]%andb_prop. unfold upper in *. cbn [flat_map].
  rewrite IH by done. apply is_space_cases in Hx. unfold space_chars in Hx.
  rewrite !elem_of_cons, elem_of_nil in Hx.
  repeat (destruct Hx as [->|Hx]; [reflexivity|]). done.
Qed.

Lemma lstrip_blank (s : str) : forallb is_space s = true → lstrip s = [].
Proof.
  induction s as [|x s IH]; [done|]. cbn [forallb].
  intros [Hx Hs]%andb_prop. simpl. rewrite Hx. auto.
Qed.

Lemma strip_blank (s : str) : forallb is_space s = true → strip s = [].
Proof. intros H. unfold strip. by rewrite (lstrip_blank s H). Qed.

Lemma split_elem sep s : ∀ l x, l ∈ split sep s → x ∈ l → x ∈ s.
Proof.
  induction s as [|c s IH]; intros l x; simpl.
  - intros Hl Hx. apply list_elem_of_singleton in Hl as ->.
    by apply elem_of_nil in Hx.
  - destruct (c =? sep).
    + intros [->|Hl]%elem_of_cons Hx; [by apply elem_of_nil in Hx|].
      apply list_elem_of_further. eauto.
    + destruct (split sep s) as [|l0 ls] eqn:Hsp.
      * intros ->%list_elem_of_singleton ->%list_elem_of_singleton.
        apply list_elem_of_here.
      * intros [->|Hl]%elem_of_cons Hx.
        -- apply elem_of_cons in Hx as [->|Hx]; [apply list_elem_of_here|].
           apply list_elem_of_further, (IH l0); [apply list_elem_of_here|done].
        -- apply list_elem_of_further, (IH l); [|done].
           by apply list_elem_of_further.
Qed.

Lemma blank_lines sep (s l : str) :
  forallb is_space s = true → l ∈ split sep s → forallb is_space l = true.
Proof.
  intros Hs Hl. apply forallb_forall. intros x Hx%list_elem_of_In.
  apply (forallb_elem _ s); [done|]. by apply (split_elem sep s l).
Qed.

Lemma filter_none {A} (P : A → Prop) `{∀ x, Decision (P x)} (l : list A) :
  Forall (λ x, ¬ P x) l → filter P l = [].
Proof.
  induction 1 as [|x l Hx _ IH]; [done|]. by rewrite filter_cons_False.
Qed.

Lemma patterns_need_nonspace :
  forallb needs_nonspace
    (invoice_patterns ++ date_patterns ++ amount_patterns ++ [currency_pattern])
  = true.
Proof. reflexivity. Qed.

Lemma bill_to_start_none (lines : list str) :
  (∀ l, l ∈ lines → contains bill_to_kw (upper l) = false) →
  bill_to_start_from 0 lines = None.
Proof.
  intros H. pose proof (bill_to_start_from_spec lines 0) as Hs.
  destruct (bill_to_start_from 0 lines) as [i|]; [exfalso|done].
  destruct Hs as (j & line & _ & Hl%list_elem_of_lookup_2 & Hc & _).
  rewrite H in Hc; done.
Qed.

(** X10.  A text of white space only gives the dictionary of the ten empty
    fields, as the empty text does. *)
Theorem blank_text_gives_empty_fields (text : str) :
  forallb is_space text = true →
  extract_invoice_fields text = Ok fields_init.
Proof.
  intros Hblank. rewrite extract_invoice_fields_eq. f_equal.
  pose proof patterns_need_nonspace as Hp. rewrite forallb_forall in Hp.
  assert (Hsearch : ∀ p,
    p ∈ invoice_patterns ++ date_patterns ++ amount_patterns ++
        [currency_pattern] → search p (upper text) = None).
  { intros p Hin%list_elem_of_In%Hp. rewrite upper_blank by done.
    by apply blank_search. }
  unfold fields_of.
  rewrite first_token_none
    by (intros p Hin; apply Hsearch; rewrite elem_of_app; by left).
  assert (dates_found text = []) as ->.
  { rewrite dates_found_app.
    rewrite !blank_findall; [done|..|done| |done| |done]; apply Hp;
      apply list_elem_of_In; rewrite !elem_of_app; right; left;
      unfold date_patterns; simpl; rewrite !elem_of_cons; tauto. }
  rewrite vendor_loop_eq by (simpl; lia).
  assert (filter (λ l, vendor_line l = true) (take 10 (split nl text)) = [])
    as ->.
  { apply filter_none, Forall_forall.
    intros l Hl%(subseteq_take 10). unfold vendor_line.
    by rewrite (strip_blank l (blank_lines nl text l Hblank Hl)). }
  unfold bill_to_of. rewrite bill_to_start_none.
  2: { intros l Hl. pose proof (blank_lines nl text l Hblank Hl) as Hb.
       rewrite upper_blank by done.
       destruct (contains bill_to_kw l) eqn:Hc; [exfalso|done].
       apply contains_infix in Hc as (a & b & ->).
       assert (is_space 66 = true); [|done].
       apply (forallb_elem _ _ _ Hb). rewrite elem_of_app. right.
       unfold bill_to_kw. apply list_elem_of_here. }
  unfold currency_of. rewrite Hsearch
    by (rewrite !elem_of_app, list_elem_of_singleton; tauto).
  rewrite first_amount_none.
  2: { apply Forall_forall. intros p Hin%(subseteq_take 2). apply Hsearch.
       rewrite !elem_of_app. tauto. }
  unfold amount_of. rewrite !Hsearch; [done|..];
    rewrite !elem_of_app; right; right; left;
    unfold amount_patterns; simpl; rewrite !elem_of_cons; tauto.
Qed.

Definition text_blank : str := [32; 32; 10; 9; 13; 10; 160].

Lemma blank_text_gives_empty_fields_witness :
  extract_invoice_fields text_blank = Ok fields_init.
Proof. apply blank_text_gives_empty_fields. reflexivity. Defined.

(** ** Letter case *)

(** X11.  Two texts with the same upper-casing give the same invoice_number,
    currency, total_amount, subtotal and tax_amount. *)
Theorem upper_cased_fields_ignore_case (text1 text2 : str) :
  upper text1 = upper text2 →
  Forall (λ k, extracted text1 k = extracted text2 k)
    [ "invoice_number"; "currency"; "total_amount"; "subtotal";
      "tax_amount" ]%string.
Proof.
  intros Hu. repeat (constructor; [|]); [..|done].
  - by rewrite !extracted_invoice_number, Hu.
  - by rewrite !extracted_currency, Hu.
  - by rewrite !extracted_total_amount, Hu.
  - by rewrite !extracted_subtotal, Hu.
  - by rewrite !extracted_tax_amount, Hu.
Qed.

Definition text_lower_case : str := Eval cbv in
  lit "invoice no: ab-12" ++ [nl] ++ lit "total: usd 1,250.00".
Definition text_upper_case : str := Eval cbv in
  lit "INVOICE NO: AB-12" ++ [nl] ++ lit "TOTAL: USD 1,250.00".

Lemma upper_cased_fields_ignore_case_witness :
  Forall (λ k, extracted text_lower_case k = extracted text_upper_case k)
    [ "invoice_number"; "currency"; "total_amount"; "subtotal";
      "tax_amount" ]%string.
Proof. apply upper_cased_fields_ignore_case. reflexivity. Defined.

(** ** The third invoice pattern *)

Lemma rep_zero_some {R} cs hi s acc c (k : str → str → caps → option R) :
  is_Some (k s acc c) → is_Some (rep cs 0 hi s acc c k).
Proof.
  intros Hk. destruct s as [|x s]; simpl.
  - by destruct (can_take hi).
  - destruct (can_take hi); [|done]. destruct (in_cset cs x); [|done].
    by destruct (rep cs 0 (dec hi) s (x :: acc) c k).
Qed.

(** A quantifier without upper bound succeeds when what follows it
    succeeds after some run of the class. *)
Lemma rep_some {R} cs run : ∀ lo rest acc c (k : str → str → caps → option R),
  forallb (in_cset cs) run = true → (lo ≤ length run)%nat →
  is_Some (k rest (rev run ++ acc) c) →
  is_Some (rep cs lo None (run ++ rest) acc c k).
Proof.
  induction run as [|x run IH]; intros lo rest acc c k Hall Hlo Hk.
  - simpl in Hlo. assert (lo = 0%nat) as -> by lia. by apply rep_zero_some.
  - cbn [forallb] in Hall. apply andb_prop in Hall as [Hx Hall].
    simpl app. cbn [rep can_take dec]. rewrite Hx.
    destruct (IH (pred lo) rest (x :: acc) c k Hall) as [res ->]; [| |done].
    + simpl in Hlo. lia.
    + simpl in Hk. by rewrite <- (assoc_L (++)) in Hk.
Qed.

Lemma strip_prefix_same (l s : str) : strip_prefix l (l ++ s) = Some s.
Proof. induction l as [|x l IH]; simpl; [done|]. by rewrite N.eqb_refl. Qed.

Lemma opt_some {R} r s acc c (k : str → str → caps → option R) :
  is_Some (k s acc c) → is_Some (rmatch (Opt r) s acc c k).
Proof. intros Hk. simpl. by destruct (rmatch r s acc c k). Qed.

Lemma search_some_at r (pre t : str) :
  is_Some (match_at r t) → is_Some (search r (pre ++ t)).
Proof.
  intros Ht. induction pre as [|x pre IH].
  - destruct t; simpl; by destruct (match_at r _).
  - simpl. by destruct (match_at r (x :: pre ++ t)).
Qed.

Definition pat_invoice_spaced : regex := nth 2 invoice_patterns (Lit []).
Definition str_INVOICE : str := Eval cbv in lit "INVOICE".

Lemma seq_some {R} r1 r2 s acc c (k : str → str → caps → option R) :
  is_Some (rmatch r1 s acc c (λ s1 a1 c1, rmatch r2 s1 a1 c1 k)) →
  is_Some (rmatch (r1 ⋅ r2) s acc c k).
Proof. done. Qed.

Lemma lit_some {R} l s acc c (k : str → str → caps → option R) :
  is_Some (k s (rev l ++ acc) c) → is_Some (rmatch (Lit l) (l ++ s) acc c k).
Proof. intros Hk. simpl. by rewrite strip_prefix_same. Qed.

Lemma star_some {R} cs lo run rest acc c (k : str → str → caps → option R) :
  forallb (in_cset cs) run = true → (lo ≤ length run)%nat →
  is_Some (k rest (rev run ++ acc) c) →
  is_Some (rmatch (Rep cs lo None) (run ++ rest) acc c k).
Proof. apply rep_some. Qed.

Lemma grp_some {R} r s acc c (k : str → str → caps → option R) :
  is_Some (rmatch r s [] c
             (λ s1 acc1 _, k s1 (acc1 ++ acc) (Some (rev acc1)))) →
  is_Some (rmatch (Grp r) s acc c k).
Proof. done. Qed.

Lemma invoice_spaced_also_first (sp tok rest : str) :
  forallb (in_cset [Space]) sp = true →
  forallb (in_cset token_cs) tok = true → (1 ≤ length tok)%nat →
  is_Some (match_at pat_invoice (str_INVOICE ++ sp ++ tok ++ rest)).
Proof.
  intros Hsp Htok Hlen. unfold match_at, pat_invoice.
  cbn [nth invoice_patterns].
  apply seq_some, (lit_some str_INVOICE). cbv beta.
  apply seq_some, star_some; [done|lia|]. cbv beta.
  apply seq_some, opt_some.
  apply seq_some, (star_some _ _ []); [done|simpl; lia|]. cbv beta.
  apply seq_some, opt_some.
  apply seq_some, (star_some _ _ []); [done|simpl; lia|]. cbv beta.
  apply grp_some, star_some; [done|done|]. done.
Qed.

Lemma search_invoice_spaced text_upper :
  search pat_invoice text_upper = None →
  search pat_invoice_spaced text_upper = None.
Proof.
  intros H1. destruct (search pat_invoice_spaced text_upper) as [m|] eqn:H3;
    [exfalso|done].
  apply search_matched in H3 as (pre & Hs & Hm).
  unfold pat_invoice_spaced in Hm. cbn [nth invoice_patterns matched] in Hm.
  destruct Hm as (w1 & r1 & c1 & Hw & [-> _] & sp & g & c2 & -> &
                  [(Hsp & _) _] & [[ci [(Htok & Hlen & _) _]] _]).
  rewrite Hw in Hs.
  pose proof (invoice_spaced_also_first sp g (after m) Hsp Htok Hlen) as Hsome.
  apply (search_some_at _ pre) in Hsome.
  rewrite <- !(assoc_L (++)) in Hs. unfold str_INVOICE in Hsome.
  rewrite <- Hs, H1 in Hsome. by destruct Hsome.
Qed.

Lemma first_token_without_third text_upper :
  first_token invoice_patterns text_upper =
    first_token (delete 2%nat invoice_patterns) text_upper.
Proof.
  set (p2 := nth 1 invoice_patterns (Lit [])).
  set (p4 := nth 3 invoice_patterns (Lit [])).
  change invoice_patterns with [pat_invoice; p2; pat_invoice_spaced; p4].
  cbn [delete list_delete first_token].
  destruct (search pat_invoice text_upper) eqn:H1; [done|].
  destruct (search p2 text_upper); [done|].
  by rewrite (search_invoice_spaced _ H1).
Qed.

(** X12.  The third invoice pattern never decides: where the first pattern
    has no match the third has none, so for a text of the alphabet
    invoice_number is what the list without the third pattern gives. *)
Theorem third_invoice_pattern_is_redundant :
  (∀ text_upper,
     search (nth 0 invoice_patterns (Lit [])) text_upper = None →
     search (nth 2 invoice_patterns (Lit [])) text_upper = None) ∧
  (∀ text,
     covered text = true →
     extracted text "invoice_number" =
       Some (default []
               (first_token (delete 2%nat invoice_patterns) (upper text)))).
Proof.
  split.
  - apply search_invoice_spaced.
  - intros text _.
    by rewrite extracted_invoice_number, first_token_without_third.
Qed.

(** The theorem at a text in which white space alone separates the word
    INVOICE from the number. *)
Definition text_invoice_spaces : str := Eval cbv in lit "Invoice   77-a".

Lemma third_invoice_pattern_is_redundant_witness :
  covered text_invoice_spaces = true ∧
  extracted text_invoice_spaces "invoice_number" = Some (lit "77-A").
Proof.
  split; [reflexivity|].
  rewrite (proj2 third_invoice_pattern_is_redundant text_invoice_spaces
             eq_refl).
  vm_compute. reflexivity.
Defined.

(** ** The word INVOICE alone *)

Definition pat_inv : regex := nth 1 invoice_patterns (Lit []).
Definition str_OICE : str := Eval cbv in lit "OICE".
Definition str_INV : str := Eval cbv in lit "INV".

Definition pat_inv_head : regex := Eval cbv in
  L "INV" ⋅ star [Space] ⋅ Opt (L "NO" <|> L "#") ⋅
    star [Space] ⋅ Opt (L ":") ⋅ star [Space].

Lemma pat_inv_split {R} s acc c (k : str → str → caps → option R) :
  rmatch pat_inv s acc c k =
    rmatch pat_inv_head s acc c
      (λ s1 a1 c1, rmatch (Grp (plus token_cs)) s1 a1 c1 k).
Proof. reflexivity. Qed.

(** The second pattern reads the letters after INV as the number. *)
Lemma match_at_inv_oice b :
  ends_run token_cs b = true →
  match_at pat_inv (str_INVOICE ++ b)
    = Some (MatchObj str_INVOICE (Some str_OICE) b).
Proof.
  intros Hend. unfold match_at. rewrite pat_inv_split.
  assert (HK : (λ s1 a1 c1,
                  rmatch (Grp (plus token_cs)) s1 a1 c1
                    (λ s' acc c, Some (MatchObj (rev acc) c s')))
                 (str_OICE ++ b) (rev str_INV) None
               = Some (MatchObj str_INVOICE (Some str_OICE) b)).
  { cbn beta. cbn [rmatch].
    apply rep_run; [reflexivity | simpl; lia | done | reflexivity]. }
  revert HK.
  generalize (λ s1 a1 c1,
                rmatch (Grp (plus token_cs)) s1 a1 c1
                  (λ s' acc c, Some (MatchObj (rev acc) c s'))).
  intros K HK. vm_compute. vm_compute in HK. by rewrite HK.
Qed.

(** X13.  In a text of the alphabet where the first invoice pattern finds
    nothing and the second one first matches at a word INVOICE that no token
    character follows, invoice_number is OICE, the letters after INV. *)
Theorem bare_invoice_word_gives_oice (text a b : str) :
  covered text = true →
  upper text = a ++ str_INVOICE ++ b →
  ends_run token_cs b = true →
  search pat_invoice (upper text) = None →
  matches_before pat_inv (upper text) (length a) = false →
  extracted text "invoice_number" = Some str_OICE.
Proof.
  intros _ Hu Hend H1 Hbefore. rewrite extracted_invoice_number.
  rewrite (first_token_priority invoice_patterns (upper text) 1 pat_inv
             (MatchObj str_INVOICE (Some str_OICE) b)); [done|done| |].
  - intros [|j] q Hj; [|lia]. by intros [= <-].
  - rewrite Hu in Hbefore |- *. apply search_at; [done|].
    by apply match_at_inv_oice.
Qed.

Definition text_invoice_copy : str := Eval cbv in
  lit "Invoice" ++ [nl] ++ lit "(copy)".

Definition line_COPY : str := Eval cbv in [nl] ++ lit "(COPY)".

Lemma bare_invoice_word_gives_oice_witness :
  extracted text_invoice_copy "invoice_number" = Some str_OICE.
Proof.
  apply (bare_invoice_word_gives_oice text_invoice_copy [] line_COPY);
    reflexivity.
Defined.

(** ** A tax rate without an amount *)

(** A continuation that succeeds wherever another one does. *)
Lemma rep_mono {R T} cs s :
  ∀ lo hi acc acc' c c' (k : str → str → caps → option R)
    (k' : str → str → caps → option T),
  (∀ s1 a1 c1 a1' c1', is_Some (k s1 a1 c1) → is_Some (k' s1 a1' c1')) →
  is_Some (rep cs lo hi s acc c k) → is_Some (rep cs lo hi s acc' c' k').
Proof.
  induction s as [|x s IH]; intros lo hi acc acc' c c' k k' Hk; simpl.
  - destruct (can_take hi), lo; try done; apply Hk.
  - destruct (can_take hi); [|destruct lo; try done; apply Hk].
    destruct (in_cset cs x); [|destruct lo; try done; apply Hk].
    destruct (rep cs (pred lo) (dec hi) s (x :: acc) c k) eqn:Hrec.
    + intros _.
      destruct (IH (pred lo) (dec hi) (x :: acc) (x :: acc') c c' k k' Hk)
        as [res ->]; [by rewrite Hrec|done].
    + destruct (rep cs (pred lo) (dec hi) s (x :: acc') c' k'); [done|].
      destruct lo; try done; apply Hk.
Qed.

Lemma rmatch_mono {R T} r :
  ∀ s acc acc' c c' (k : str → str → caps → option R)
    (k' : str → str → caps → option T),
  (∀ s1 a1 c1 a1' c1', is_Some (k s1 a1 c1) → is_Some (k' s1 a1' c1')) →
  is_Some (rmatch r s acc c k) → is_Some (rmatch r s acc' c' k').
Proof.
  induction r as [l|cs|cs lo hi|r1 IH1|r1 IH1 r2 IH2|r1 IH1 r2 IH2|r1 IH1];
    intros s acc acc' c c' k k' Hk; simpl.
  - destruct (strip_prefix l s); [apply Hk | done].
  - destruct s as [|x s]; [done|]. destruct (in_cset cs x); [apply Hk | done].
  - by apply rep_mono.
  - destruct (rmatch r1 s acc c k) eqn:H1.
    + intros _. destruct (IH1 s acc acc' c c' k k' Hk) as [res ->];
        [by rewrite H1 | done].
    + intros H%(Hk _ _ _ acc' c').
      by destruct (rmatch r1 s acc' c' k').
  - destruct (rmatch r1 s acc c k) eqn:H1.
    + intros _. destruct (IH1 s acc acc' c c' k k' Hk) as [res ->];
        [by rewrite H1 | done].
    + intros H%(IH2 _ _ acc' _ c' _ k' Hk).
      by destruct (rmatch r1 s acc' c' k').
  - apply IH1. intros s1 a1 c1 a1' c1'. by apply IH2.
  - apply IH1. intros s1 a1 c1 a1' c1'. apply Hk.
Qed.

(** Where [match] finds nothing, the pattern fails whatever follows. *)
Lemma rmatch_none {R} r s acc c (k : str → str → caps → option R) :
  match_at r s = None → rmatch r s acc c k = None.
Proof.
  intros Hnone. destruct (rmatch r s acc c k) as [res|] eqn:Hres; [|done].
  assert (is_Some (match_at r s)) as [m Hm]; [|congruence].
  unfold match_at. apply (rmatch_mono r s acc [] c None k); [by eauto|].
  by rewrite Hres.
Qed.

Lemma opt_none {R} r s acc c (k : str → str → caps → option R) :
  rmatch r s acc c k = None → rmatch (Opt r) s acc c k = k s acc c.
Proof. intros H. simpl. by rewrite H. Qed.

Lemma rep_zero {R} cs hi s acc c (k : str → str → caps → option R) :
  ends_run cs s = true → rep cs 0 hi s acc c k = k s acc c.
Proof.
  destruct s as [|x s]; simpl.
  - by destruct (can_take hi).
  - intros ->%negb_true_iff. by destruct (can_take hi).
Qed.

(** A run of digits that ends at a percent sign is read in one way. *)
Lemma digits_percent_unique (ds w s1 rest : str) :
  forallb is_decimal ds = true → forallb (in_cset [Digit]) w = true →
  ds ++ 37 :: rest = w ++ 37 :: s1 → w = ds ∧ s1 = rest.
Proof.
  revert w. induction ds as [|d ds IH]; intros [|x w] Hds Hw Heq;
    cbn [forallb app] in *.
  - by injection Heq as <-.
  - injection Heq as <- _. by vm_compute in Hw.
  - injection Heq as -> _. by vm_compute in Hds.
  - injection Heq as <- Heq. apply andb_prop in Hds as [_ Hds].
    apply andb_prop in Hw as [_ Hw]. by destruct (IH w Hds Hw Heq) as [-> ->].
Qed.

Definition pat_tax_rate : regex := Eval cbv in plus [Digit] ⋅ L "%".
Definition str_TAX : str := Eval cbv in lit "TAX".

Lemma pat_tax_split {R} s acc c (k : str → str → caps → option R) :
  rmatch pat_tax s acc c k =
    rmatch (Lit str_TAX) s acc c (λ s1 a1 c1,
      rmatch (star [Space]) s1 a1 c1 (λ s2 a2 c2,
        rmatch (Opt pat_tax_rate) s2 a2 c2 (λ s3 a3 c3,
          rmatch amount_tail s3 a3 c3 k))).
Proof. reflexivity. Qed.

(** The rate cannot be taken when no amount follows it. *)
Lemma tax_rate_fails {R} (ds rest acc : str) c
    (k : str → str → caps → option R) :
  forallb is_decimal ds = true → match_at amount_tail rest = None →
  rmatch pat_tax_rate (ds ++ 37 :: rest) acc c
    (λ s3 a3 c3, rmatch amount_tail s3 a3 c3 k) = None.
Proof.
  intros Hds Hrest.
  destruct (rmatch pat_tax_rate _ acc c _) as [res|] eqn:Hres; [exfalso|done].
  apply rmatch_matched in Hres as (w & s1 & c1 & Heq & Hm & Hk).
  unfold pat_tax_rate in Hm. cbn [matched] in Hm.
  destruct Hm as (w1 & w2 & cm & -> & [(Hw1 & _) _] & [-> _]).
  rewrite <- (assoc_L (++)) in Heq. simpl in Heq.
  destruct (digits_percent_unique ds w1 s1 rest Hds Hw1 Heq) as [-> ->].
  by rewrite rmatch_none in Hk.
Qed.

Lemma amount_tail_digits {R} (d : char) (ds tail acc : str) c
    (k : str → str → caps → option R) res :
  is_decimal d = true → forallb is_decimal ds = true →
  ends_run after_number_cs tail = true →
  k tail (rev (d :: ds) ++ acc) (Some (d :: ds)) = Some res →
  rmatch amount_tail (d :: ds ++ tail) acc c k = Some res.
Proof.
  intros Hd Hds Hend Hk. unfold amount_tail.
  change (rmatch (?r1 ⋅ ?r2) ?s ?a ?c0 ?k0) with
    (rmatch r1 s a c0 (λ s1 a1 c1, rmatch r2 s1 a1 c1 k0)).
  rewrite opt_none.
  2: { cbn [rmatch strip_prefix].
       assert ((58 =? d) = false) as ->; [|done].
       apply N.eqb_neq. revert Hd. unfold is_decimal, between.
       rewrite andb_true_iff, !N.leb_le. lia. }
  change (rmatch (?r1 ⋅ ?r2) ?s ?a ?c0 ?k0) with
    (rmatch r1 s a c0 (λ s1 a1 c1, rmatch r2 s1 a1 c1 k0)).
  cbn [rmatch]. rewrite rep_zero.
  2: { cbn [ends_run]. by destruct (digit_tests d Hd) as (_ & -> & _). }
  pose proof (amount_grp_number d ds [] false tail acc c k res Hd) as H.
  unfold number in H. rewrite app_nil_r in H. apply H; [|done..].
  revert Hds. apply forallb_weaken. intros x Hx.
  by destruct (digit_tests x Hx) as (_ & _ & -> & _).
Qed.

Lemma match_at_tax_rate (sp ds rest : str) :
  forallb (in_cset [Space]) sp = true →
  forallb is_decimal ds = true → ds ≠ [] →
  match_at amount_tail rest = None →
  match_at pat_tax (str_TAX ++ sp ++ ds ++ 37 :: rest)
    = Some (MatchObj (str_TAX ++ sp ++ ds) (Some ds) (37 :: rest)).
Proof.
  intros Hsp Hds Hne Hrest. destruct ds as [|d ds]; [done|].
  cbn [forallb] in Hds. apply andb_prop in Hds as [Hd Hds].
  unfold match_at. rewrite pat_tax_split.
  cbn [rmatch]. rewrite strip_prefix_same.
  apply rep_run; [done | lia | |].
  { cbn [ends_run app]. by destruct (digit_tests d Hd) as (_ & -> & _). }
  change (match rmatch pat_tax_rate ?s ?a ?c0 ?k0 with
          | Some res => Some res
          | None => ?e
          end) with (rmatch (Opt pat_tax_rate) s a c0 k0).
  rewrite opt_none
    by (apply (tax_rate_fails (d :: ds));
        [cbn [forallb]; by rewrite Hd, Hds | done]).
  apply amount_tail_digits; [done..| |].
  - reflexivity.
  - f_equal. f_equal. rewrite app_nil_r.
    rewrite <- !rev_app_distr, rev_involutive.
    by rewrite <- !(assoc_L (++)).
Qed.

Lemma accepted_digits (ds : str) :
  forallb is_decimal ds = true → ds ≠ [] → accepted ds = Some ds.
Proof.
  intros Hds Hne. unfold accepted.
  rewrite sub_cset_none
    by (revert Hds; apply forallb_weaken; intros x Hx;
        by rewrite decimal_not_stripped).
  rewrite remove_char_none by by apply decimal_not_point.
  unfold isdigit. destruct ds as [|d ds]; [done|].
  assert (forallb is_digit (d :: ds) = true) as ->; [|done].
  revert Hds. apply forallb_weaken. intros x Hx. unfold is_digit.
  by rewrite Hx.
Qed.

(** X14.  A tax rate that no amount follows is read as the tax amount: where,
    in a text of the alphabet, the TAX pattern first matches at TAX, white
    space, digits and a percent sign, and the text after the sign does not
    go on as an amount, tax_amount is the digits of the rate. *)
Theorem tax_rate_read_as_amount (text a sp ds rest : str) :
  covered text = true →
  upper text = a ++ str_TAX ++ sp ++ ds ++ 37 :: rest →
  forallb (in_cset [Space]) sp = true →
  forallb is_decimal ds = true → ds ≠ [] →
  match_at amount_tail rest = None →
  matches_before pat_tax (upper text) (length a) = false →
  search pat_tax (upper text)
    = Some (MatchObj (str_TAX ++ sp ++ ds) (Some ds) (37 :: rest)) ∧
  extracted text "tax_amount" = Some ds.
Proof.
  intros _ Hu Hsp Hds Hne Hrest Hbefore.
  assert (Hs : search pat_tax (upper text)
               = Some (MatchObj (str_TAX ++ sp ++ ds) (Some ds) (37 :: rest))).
  { rewrite Hu in Hbefore |- *. apply search_at; [done|].
    by apply match_at_tax_rate. }
  split; [done|]. rewrite extracted_tax_amount. unfold amount_of.
  rewrite Hs. cbn [group1 default from_option id].
  by rewrite accepted_digits.
Qed.

Definition text_tax_rate : str := Eval cbv in
  lit "Subtotal: 200.00" ++ [nl] ++ lit "Tax 20% GBP 40.00".
Definition before_tax : str := Eval cbv in lit "SUBTOTAL: 200.00" ++ [nl].
Definition after_rate : str := Eval cbv in lit " GBP 40.00".

Lemma tax_rate_read_as_amount_witness :
  extracted text_tax_rate "tax_amount" = Some (lit "20").
Proof.
  apply (tax_rate_read_as_amount text_tax_rate before_tax [32] (lit "20")
           after_rate); reflexivity || discriminate.
Defined.

(** ** Line ends *)

(** The text with each line break preceded by a carriage return. *)
Definition crlf (text : str) : str :=
  flat_map (λ c, if c =? nl then [13; nl] else [c]) text.

(** A line, or the line with a carriage return at its end. *)
Definition same_line (l l' : str) : Prop := l' = l ∨ l' = l ++ [13].

Lemma split_crlf (text : str) :
  Forall2 same_line (split nl text) (split nl (crlf text)).
Proof.
  induction text as [|c text IH].
  - repeat constructor.
  - cbn [crlf flat_map]. fold (crlf text). cbn [split].
    destruct (c =? nl) eqn:Hc.
    + cbn [app split]. rewrite N.eqb_refl.
      change (13 =? nl) with false. cbn iota.
      constructor; [by right | done].
    + cbn [app split]. rewrite Hc.
      destruct (split_cons nl text) as (l & ls & Hl).
      destruct (split_cons nl (crlf text)) as (l' & ls' & Hl').
      rewrite Hl, Hl' in *. inversion_clear IH as [|? ? ? ? Hll Hls].
      constructor; [|done]. destruct Hll as [->| ->]; [by left | by right].
Qed.

Lemma lstrip_snoc_cr (l : str) :
  lstrip (l ++ [13]) = if truthy (lstrip l) then lstrip l ++ [13] else [].
Proof.
  induction l as [|x l IH]; [done|]. cbn [app lstrip].
  destruct (is_space x); [done|]. done.
Qed.

Lemma strip_snoc_cr (l : str) : strip (l ++ [13]) = strip l.
Proof.
  unfold strip. rewrite lstrip_snoc_cr.
  destruct (lstrip l) as [|x t] eqn:Hl; [done|]. cbn [truthy].
  by rewrite rev_app_distr.
Qed.

Lemma upper_snoc_cr (l : str) : upper (l ++ [13]) = upper l ++ [13].
Proof. by rewrite upper_app. Qed.

Lemma startswith_snoc (kw s : str) x :
  x ∉ kw → kw ≠ [] → startswith kw (s ++ [x]) = startswith kw s.
Proof.
  revert s. induction kw as [|k kw IH]; intros s Hx Hne; [done|].
  apply not_elem_of_cons in Hx as [Hxk Hx].
  destruct s as [|y s]; cbn [app startswith].
  - assert ((k =? x) = false) as -> by (apply N.eqb_neq; congruence). done.
  - destruct (k =? y); [|done]. cbn [andb].
    destruct kw as [|k' kw']; [by destruct (s ++ [x]), s|]. by apply IH.
Qed.

Lemma contains_snoc (kw s : str) x :
  x ∉ kw → kw ≠ [] → contains kw (s ++ [x]) = contains kw s.
Proof.
  intros Hx Hne. induction s as [|y s IH].
  - cbn [app]. rewrite contains_cons, !contains_nil.
    destruct kw as [|k kw]; [done|].
    apply not_elem_of_cons in Hx as [Hxk _]. cbn [startswith].
    by assert ((k =? x) = false) as -> by (apply N.eqb_neq; congruence).
  - cbn [app]. rewrite !contains_cons, IH.
    change (y :: s ++ [x]) with ((y :: s) ++ [x]).
    by rewrite startswith_snoc.
Qed.

Lemma same_line_strip l l' : same_line l l' → strip l' = strip l.
Proof. intros [->| ->]; [done | apply strip_snoc_cr]. Qed.

Lemma same_line_contains (kw l l' : str) :
  13 ∉ kw → kw ≠ [] → same_line l l' →
  contains kw (upper l') = contains kw (upper l).
Proof.
  intros Hkw Hne [->| ->]; [done|]. rewrite upper_snoc_cr.
  by apply contains_snoc.
Qed.

Lemma keywords_plain (kw : str) :
  kw ∈ bill_to_kw :: vendor_keywords → (13 ∉ kw) ∧ kw ≠ [].
Proof.
  unfold vendor_keywords. rewrite !elem_of_cons, elem_of_nil.
  intros [->|[->|[->|[->|[]]]]]; (split; [|done]);
    by apply (bool_decide_unpack _).
Qed.

Lemma existsb_eq_in {A} (f g : A → bool) (l : list A) :
  (∀ x, x ∈ l → f x = g x) → existsb f l = existsb g l.
Proof.
  induction l as [|x l IH]; intros H; [done|]. cbn [existsb].
  rewrite (H x) by apply list_elem_of_here. rewrite IH; [done|].
  intros y Hy. by apply H, list_elem_of_further.
Qed.

Lemma same_line_vendor_line l l' :
  same_line l l' → vendor_line l' = vendor_line l.
Proof.
  intros Hl. unfold vendor_line. rewrite (same_line_strip l l' Hl).
  do 2 f_equal. apply existsb_eq_in. intros kw Hkw.
  destruct (keywords_plain kw) as [H13 Hne]; [by apply list_elem_of_further|].
  by apply same_line_contains.
Qed.

Lemma vendor_loop_same (lines lines' : list str) :
  Forall2 same_line lines lines' →
  ∀ acc, vendor_loop lines' acc = vendor_loop lines acc.
Proof.
  induction 1 as [|l l' ls ls' Hl _ IH]; intros acc; [done|].
  cbn [vendor_loop]. fold (vendor_line l) (vendor_line l').
  rewrite (same_line_vendor_line l l' Hl), (same_line_strip l l' Hl).
  destruct (vendor_line l); [|apply IH].
  destruct (3 <=? length (acc ++ [strip l]))%nat; [done | apply IH].
Qed.

Lemma bill_to_start_same (lines lines' : list str) :
  Forall2 same_line lines lines' →
  ∀ i, bill_to_start_from i lines' = bill_to_start_from i lines.
Proof.
  induction 1 as [|l l' ls ls' Hl _ IH]; intros i; [done|].
  cbn [bill_to_start_from].
  destruct (keywords_plain bill_to_kw) as [H13 Hne];
    [apply list_elem_of_here|].
  rewrite (same_line_contains bill_to_kw l l') by done.
  destruct (contains bill_to_kw (upper l)); [done | apply IH].
Qed.

Lemma bill_to_collect_same (lines lines' : list str) (idxs : list nat) :
  Forall2 same_line lines lines' →
  ∀ acc, bill_to_collect lines' idxs acc = bill_to_collect lines idxs acc.
Proof.
  intros Hlines. induction idxs as [|i idxs IH]; intros acc; [done|].
  cbn [bill_to_collect].
  assert (strip (default ([] : str) (lines' !! i)) =
          strip (default ([] : str) (lines !! i))) as ->.
  { destruct (lines !! i) as [l|] eqn:Hl.
    - destruct (Forall2_lookup_l _ _ _ _ _ Hlines Hl) as (l' & -> & Hll).
      by apply same_line_strip.
    - apply lookup_ge_None in Hl. rewrite (Forall2_length _ _ _ Hlines) in Hl.
      apply lookup_ge_None in Hl. by rewrite Hl. }
  destruct (truthy _); [apply IH | done].
Qed.

(** X15.  A carriage return before each line break changes nothing in
    vendor_name, vendor_address and bill_to. *)
Theorem line_fields_ignore_carriage_returns (text : str) :
  Forall (λ k, extracted (crlf text) k = extracted text k)
         ["vendor_name"; "vendor_address"; "bill_to"]%string.
Proof.
  pose proof (split_crlf text) as Hlines.
  destruct (extracted_vendor text) as [Hn Ha].
  destruct (extracted_vendor (crlf text)) as [Hn' Ha'].
  rewrite (vendor_loop_same (take 10 (split nl text))) in Hn', Ha'
    by by apply Forall2_take.
  constructor; [congruence|]. constructor; [congruence|].
  constructor; [|done]. rewrite !extracted_bill_to. unfold bill_to_of.
  rewrite (bill_to_start_same _ _ Hlines).
  destruct (bill_to_start_from 0 (split nl text)) as [i|]; [|done].
  rewrite <- (Forall2_length _ _ _ Hlines).
  by rewrite (bill_to_collect_same _ _ _ Hlines).
Qed.

(** ** Page images *)









(** ** The adapters *)



(** ** Runs in which every signal is delivered *)



















Definition env_no_file : env :=
  Env (λ _, None) (λ _, Written) (λ _, false) (λ _, None) (λ _, None)
      (λ _, false) (λ _, true).



(** ** Runs in any environment

    A signal may fail to be delivered, in which case [emit] raises. *)

Section AnyEnvironment.
Variable E : env.

(** [m] leaves the signals alone and does not raise. *)
Definition quiet {A} (m : M A) : Prop :=
  ∀ w, ∃ a, (m w).1 = Ok a ∧ signals (m w).2 = signals w.

(** From a state where only progress signals were added to [sigs], [m]
    ends with one closing signal as the last one, or raises with none. *)
Definition closing (s : signal) : Prop :=
  match s with Progress _ => False | _ => True end.

Definition concluded (sigs : list signal) (r : result unit * world) : Prop :=
  ∃ msgs tail,
    signals r.2 = sigs ++ map Progress msgs ++ tail ∧
    match r.1 with
    | Ok _ => ∃ s, tail = [s] ∧ closing s
    | Raise _ => tail = []
    end.

Definition concludes (sigs : list signal) (m : M unit) : Prop :=
  ∀ w msgs, signals w = sigs ++ map Progress msgs → concluded sigs (m w).

Lemma concludes_progress sigs msg m :
  concludes sigs m → concludes sigs (emit E (Progress msg) >> m).
Proof.
  intros Hm w msgs Hw. unfold bind, emit.
  destruct (emit_ok E (Progress msg)).
  - apply (Hm _ (msgs ++ [msg])). cbn [signals].
    by rewrite Hw, map_app, <- !(assoc_L (++)).
  - exists msgs, []. by rewrite app_nil_r.
Qed.

Lemma concludes_quiet {A} sigs (q : M A) (f : A → M unit) :
  quiet q → (∀ a, concludes sigs (f a)) → concludes sigs (bind q f).
Proof.
  intros Hq Hf w msgs Hw. unfold bind.
  destruct (Hq w) as (a & Ha & Hs). destruct (q w) as [r w1].
  simpl in Ha, Hs. subst r. apply (Hf a w1 msgs). by rewrite Hs.
Qed.

Lemma concludes_closing sigs s (q : M unit) :
  closing s → quiet q → concludes sigs (emit E s >> q).
Proof.
  intros Hs Hq w msgs Hw. unfold bind, emit.
  destruct (emit_ok E s).
  - destruct (Hq (World (files w) (signals w ++ [s]) (trace w)))
      as ([] & Ha & Hsig).
    exists msgs, [s]. rewrite Ha, Hsig. cbn [signals].
    split; [by rewrite Hw, <- !(assoc_L (++))|]. by exists s.
  - exists msgs, []. by rewrite app_nil_r.
Qed.

Lemma concludes_closing_last sigs s : closing s → concludes sigs (emit E s).
Proof.
  intros Hs w msgs Hw. unfold emit. destruct (emit_ok E s).
  - exists msgs, [s]. cbn [fst snd signals].
    split; [by rewrite Hw, <- !(assoc_L (++))|]. by exists s.
  - exists msgs, []. by rewrite app_nil_r.
Qed.

Lemma quiet_ret {A} (a : A) : quiet (ret a).
Proof. intros w. by exists a. Qed.

Lemma quiet_record c : quiet (record c).
Proof. intros w. by exists tt. Qed.

Lemma quiet_cleanup images : quiet (cleanup E images).
Proof. intros w. exists tt. by rewrite cleanup_eq. Qed.

Lemma quiet_pdf_to_images pdf_path : quiet (pdf_to_images E pdf_path).
Proof. intros w. eexists. by rewrite pdf_to_images_eq. Qed.

Lemma quiet_recognize ocr_engine image_path :
  quiet (if str_eqb ocr_engine tesseract
         then extract_text_tesseract E image_path
         else extract_text_easyocr E image_path).
Proof. intros w. eexists. by rewrite recognize_eq. Qed.

Lemma quiet_extract text : quiet (lift (extract_invoice_fields text)).
Proof.
  intros w. exists (fields_of text). unfold lift.
  by rewrite extract_invoice_fields_eq.
Qed.

Lemma concludes_recognize_and_extract sigs path ocr_engine image_path images :
  concludes sigs (recognize_and_extract E path ocr_engine image_path images).
Proof.
  unfold recognize_and_extract.
  apply concludes_progress, concludes_quiet; [apply quiet_recognize|].
  intros text. apply concludes_progress.
  apply concludes_quiet; [apply quiet_record|]. intros _.
  apply concludes_quiet; [apply quiet_extract|]. intros flds.
  apply concludes_progress, concludes_closing; [done|].
  destruct (is_pdf path); [apply quiet_cleanup | apply quiet_ret].
Qed.

Lemma concludes_run_body sigs path ocr_engine :
  concludes sigs (run_body E path ocr_engine).
Proof.
  unfold run_body. apply concludes_progress.
  destruct (is_pdf path); [|apply concludes_recognize_and_extract].
  apply concludes_progress, concludes_quiet; [apply quiet_pdf_to_images|].
  intros [|image_path rest]; cbn [truthy negb].
  - by apply concludes_closing_last.
  - apply concludes_quiet; [|intros ?; apply concludes_recognize_and_extract].
    intros w. by eexists.
Qed.

End AnyEnvironment.

Lemma run_concluded (E : env) (path ocr_engine : str) (w : world) :
  concluded (signals w) (run E path ocr_engine w).
Proof.
  unfold run, try_except.
  destruct (concludes_run_body E (signals w) path ocr_engine w [])
    as (msgs & tail & Hsig & Hres); [by rewrite app_nil_r|].
  destruct (run_body E path ocr_engine w) as [[[]|e] w1];
    cbn [fst snd] in *.
  - by exists msgs, tail.
  - subst tail. unfold emit. destruct (emit_ok E _).
    + exists msgs, [Error (msg_failed e)]. cbn [fst snd signals].
      rewrite Hsig, app_nil_r. split; [by rewrite <- (assoc_L (++))|].
      by eexists.
    + by exists msgs, [].
Qed.

(** X23.  Whatever is delivered, a run adds progress signals and then at
    most one closing signal, [finished] or [error], after which it adds
    nothing; it ends normally exactly when it has emitted the closing
    signal. *)
Theorem run_emits_one_closing_signal (E : env) (path ocr_engine : str)
    (w : world) :
  let r := run E path ocr_engine w in
  ∃ msgs tail,
    signals r.2 = signals w ++ map Progress msgs ++ tail ∧
    match r.1 with
    | Ok _ => ∃ s, tail = [s] ∧ closing s
    | Raise _ => tail = []
    end.
Proof. apply run_concluded. Qed.

(** *** Files *)

Section Keeps.
Variable E : env.

(** [m] keeps a property of the files on disk. *)
Definition keeps (J : gset str → Prop) {A} (m : M A) : Prop :=
  ∀ w, J (files w) → J (files (m w).2).

Lemma keeps_bind J {A B} (m : M A) (f : A → M B) (V : A → Prop) :
  keeps J m → (∀ w a, (m w).1 = Ok a → V a) →
  (∀ a, V a → keeps J (f a)) → keeps J (bind m f).
Proof.
  intros Hm HV Hf w Hw. unfold bind. specialize (Hm w Hw).
  specialize (HV w). destruct (m w) as [[a|e] w1]; [|done].
  apply (Hf a); [by apply HV | done].
Qed.

Lemma keeps_seq J {A B} (m : M A) (f : A → M B) :
  keeps J m → (∀ a, keeps J (f a)) → keeps J (bind m f).
Proof. intros Hm Hf. apply (keeps_bind J m f (λ _, True)); auto. Qed.

Lemma keeps_try J {A} (body : M A) (handler : exn → M A) :
  keeps J body → (∀ e, keeps J (handler e)) → keeps J (try_except body handler).
Proof.
  intros Hb Hh w Hw. unfold try_except. specialize (Hb w Hw).
  destruct (body w) as [[a|e] w1]; [done|]. by apply Hh.
Qed.

Lemma keeps_emit J s : keeps J (emit E s).
Proof. intros w Hw. unfold emit. by destruct (emit_ok E s). Qed.

Lemma keeps_record J c : keeps J (record c).
Proof. by intros w Hw. Qed.

Lemma keeps_lift J {A} (r : result A) : keeps J (lift r).
Proof. by intros w Hw. Qed.

Lemma keeps_ret J {A} (a : A) : keeps J (ret a).
Proof. by intros w Hw. Qed.

Lemma keeps_recognize J ocr_engine image_path :
  keeps J (if str_eqb ocr_engine tesseract
           then extract_text_tesseract E image_path
           else extract_text_easyocr E image_path).
Proof. intros w Hw. by rewrite recognize_eq. Qed.

Lemma keeps_recognize_and_extract J path ocr_engine image_path images :
  (is_pdf path = true → keeps J (cleanup E images)) →
  keeps J (recognize_and_extract E path ocr_engine image_path images).
Proof.
  intros Hc. unfold recognize_and_extract.
  apply keeps_seq; [apply keeps_emit|]. intros _.
  apply keeps_seq; [apply keeps_recognize|]. intros text.
  apply keeps_seq; [apply keeps_emit|]. intros _.
  apply keeps_seq; [apply keeps_record|]. intros _.
  apply keeps_seq; [apply keeps_lift|]. intros flds.
  apply keeps_seq; [apply keeps_emit|]. intros _.
  apply keeps_seq; [apply keeps_emit|]. intros _.
  destruct (is_pdf path); [by apply Hc | apply keeps_ret].
Qed.

(** The names [pdf_to_images] gives to page images. *)
Definition page_image (p : str) : Prop := ∃ n, p = temp_path n.

Lemma temp_paths_page_images first count p :
  p ∈ temp_paths first count → page_image p.
Proof.
  unfold temp_paths. rewrite list_elem_of_fmap. intros (n & -> & _).
  by exists n.
Qed.

Lemma rasterized_page_images pdf_path :
  Forall page_image (rasterized E pdf_path).
Proof.
  apply Forall_forall. intros p. unfold rasterized.
  destruct (fitz_open E pdf_path) as [pages|]; [|by intros ?%elem_of_nil].
  destruct (all_done E pages 0); [|by intros ?%elem_of_nil].
  apply temp_paths_page_images.
Qed.

Lemma created_page_images pages p : ∀ n,
  p ∈ created E pages n → page_image p.
Proof.
  induction pages as [|[] pages IH]; intros n; cbn [created];
    [by intros ?%elem_of_nil| |by intros ?%elem_of_nil].
  destruct (file_write E (temp_path n)).
  - intros [->|Hin]%elem_of_cons; [by exists n | by apply (IH (S n))].
  - by intros ?%elem_of_nil.
  - intros ->%list_elem_of_singleton. by exists n.
Qed.

Lemma written_page_images pdf_path p :
  p ∈ written E pdf_path → page_image p.
Proof.
  unfold written. destruct (fitz_open E pdf_path) as [pages|];
    [|by intros ?%elem_of_empty].
  rewrite elem_of_list_to_set. apply created_page_images.
Qed.

Variable p : str.
Hypothesis Hp : ¬ page_image p.
Variable fs : gset str.

(** Whether [p] is on disk is as it was. *)
Definition same_at : gset str → Prop := λ fs', p ∈ fs' ↔ p ∈ fs.

Lemma keeps_pdf_to_images pdf_path : keeps same_at (pdf_to_images E pdf_path).
Proof.
  intros w Hw. rewrite pdf_to_images_eq. cbn [snd files]. unfold same_at in *.
  rewrite elem_of_union, <- Hw. split; [|by right].
  intros [Hin%written_page_images|?]; done.
Qed.

Lemma keeps_cleanup images :
  Forall page_image images → keeps same_at (cleanup E images).
Proof.
  intros Himg w Hw. rewrite cleanup_eq. cbn [snd files]. unfold same_at in *.
  rewrite elem_of_difference, elem_of_list_to_set, <- Hw.
  split; [by intros [? _]|]. intros Hin. split; [done|].
  intros [_ Hpi]%list_elem_of_filter.
  by apply Hp, (proj1 (Forall_forall _ _) Himg).
Qed.

Lemma keeps_run path ocr_engine : keeps same_at (run E path ocr_engine).
Proof.
  unfold run. apply keeps_try; [|intros e; apply keeps_emit].
  unfold run_body. apply keeps_seq; [apply keeps_emit|]. intros _.
  destruct (is_pdf path) eqn:Hpdf.
  - apply keeps_seq; [apply keeps_emit|]. intros _.
    apply (keeps_bind _ _ _ (Forall page_image));
      [apply keeps_pdf_to_images | |].
    + intros w images. rewrite pdf_to_images_eq. intros [= <-].
      apply rasterized_page_images.
    + intros images Himg. destruct (negb (truthy images));
        [apply keeps_emit|].
      apply keeps_seq; [apply keeps_lift|]. intros image_path.
      apply keeps_recognize_and_extract. intros _. by apply keeps_cleanup.
  - apply keeps_recognize_and_extract. by rewrite Hpdf.
Qed.

End Keeps.

Lemma keeps_run_image (E : env) (fs : gset str) (path ocr_engine : str) :
  is_pdf path = false → keeps (λ fs', fs' = fs) (run E path ocr_engine).
Proof.
  intros Hpdf. unfold run, run_body. rewrite Hpdf.
  apply keeps_try; [|intros e; apply keeps_emit].
  apply keeps_seq; [apply keeps_emit|]. intros _.
  apply keeps_recognize_and_extract. by rewrite Hpdf.
Qed.

(** X24.  Whatever happens, a run neither creates nor removes a file other
    than a page image, and touches no file at all when the input is not a
    PDF. *)
Theorem run_touches_only_page_images (E : env) (path ocr_engine : str)
    (w : world) :
  let w' := (run E path ocr_engine w).2 in
  (∀ p, (∀ n, p ≠ temp_path n) → p ∈ files w' ↔ p ∈ files w) ∧
  (is_pdf path = false → files w' = files w).
Proof.
  intros w'. subst w'. split.
  - intros p Hp. apply (keeps_run E p); [|done]. intros [n ->]. by apply (Hp n).
  - intros Hpdf. by apply (keeps_run_image E (files w)).
Qed.

Import InvoiceOCRApp.

(** ** The window *)

Section WindowFacts.
Variable G : gui_env.

(** The row of the table for a result, lines 582-593. *)
Definition table_row (result : ocr_result) : list str :=
  [ basename G (file_path result);
    get (fields result) "invoice_number"; get (fields result) "invoice_date";
    get (fields result) "vendor_name"; get (fields result) "bill_to";
    get (fields result) "currency"; get (fields result) "subtotal";
    get (fields result) "tax_amount"; get (fields result) "total_amount";
    txt_processed ].

Definition preview_of (result : ocr_result) : preview_data :=
  PreviewData (basename G (file_path result)) (fields result).

(** What the table, the preview and the inputs show agrees with the
    results kept. *)
Definition in_step (a : app) : Prop :=
  results_table a = map table_row (processed_invoices a) ∧
  export_preview a = preview_of <$> last (processed_invoices a) ∧
  dom (field_inputs a) = list_to_set field_input_keys.

Lemma dom_show_fields (fields inputs : gmap string str) :
  dom (show_fields fields inputs) = dom inputs.
Proof.
  unfold show_fields. apply set_eq. intros k.
  rewrite dom_union, elem_of_union, !elem_of_dom.
  split; [|by right]. intros [[v Hv]|?]; [|done].
  apply map_lookup_filter_Some in Hv as [_ Hk]. by apply elem_of_dom.
Qed.

Lemma in_step_init : in_step init.
Proof.
  split; [done|]. split; [done|]. unfold init. cbn [field_inputs].
  by rewrite dom_list_to_map_L, <- list_fmap_compose, list_fmap_id.
Qed.

Lemma in_step_handle a ev : in_step a → in_step (handle G a ev).
Proof.
  intros (Htab & Hprev & Hdom).
  destruct ev as [chosen|eng|[msg|r|msg]| |chosen];
    cbn [handle slot].
  - unfold select_file. by destruct (truthy chosen).
  - unfold process_invoice. by destruct (selected_file a).
  - done.
  - unfold on_ocr_finished, update_export_preview, add_to_results_table.
    cbn -[show_fields]. rewrite last_snoc. unfold in_step.
    cbn -[show_fields]. rewrite last_snoc.
    split; [by rewrite Htab, map_app|]. split; [done|].
    by rewrite dom_show_fields.
  - done.
  - unfold clear_results, in_step. cbn. split; [done|]. split; [done|].
    by rewrite dom_fmap_L.
  - unfold export_csv. destruct (negb (truthy (processed_invoices a))); [done|].
    destruct (truthy chosen); [|done].
    destruct (open_error G chosen); [done|].
    by destruct (write_rows G (processed_invoices a) [header]) as [? []].
Qed.

Lemma in_step_reachable evs : in_step (foldl (handle G) init evs).
Proof.
  induction evs as [|ev evs IH] using rev_ind; [apply in_step_init|].
  rewrite foldl_app. by apply in_step_handle.
Qed.

End WindowFacts.

(** X25.  After any sequence of events, the table has one row per result
    kept, in order, the export preview shows the last of them (nothing when
    there is none), and the field inputs are the ten of the form. *)
Theorem window_shows_results_kept (G : gui_env) (evs : list event) :
  let a := foldl (handle G) init evs in
  results_table a = map (table_row G) (processed_invoices a) ∧
  export_preview a = preview_of G <$> last (processed_invoices a) ∧
  dom (field_inputs a) = list_to_set field_input_keys.
Proof. apply in_step_reachable. Qed.

Lemma keys_of_form_and_extractor :
  list_to_set field_input_keys =@{gset string} list_to_set field_names.
Proof.
  apply set_eq. intros k. unfold field_input_keys, field_names.
  rewrite !elem_of_list_to_set, !elem_of_cons, !elem_of_nil. tauto.
Qed.

(** A dictionary with the ten keys of the extractor fills the ten
    inputs and leaves none as it was. *)
Lemma show_fields_all (flds inputs : gmap string str) :
  dom flds = list_to_set field_names →
  dom inputs = list_to_set field_input_keys →
  show_fields flds inputs = flds.
Proof.
  intros Hf Hi. rewrite keys_of_form_and_extractor, <- Hf in Hi.
  apply map_eq. intros k. unfold show_fields.
  destruct (flds !! k) as [v|] eqn:Hk.
  - apply lookup_union_Some_l, map_lookup_filter_Some. split; [done|].
    cbn. rewrite Hi. by apply elem_of_dom.
  - apply lookup_union_None. split.
    + apply map_lookup_filter_None. by left.
    + apply not_elem_of_dom. rewrite Hi. by apply not_elem_of_dom.
Qed.

Lemma extracted_dom text flds :
  extract_invoice_fields text = Ok flds → dom flds = list_to_set field_names.
Proof.
  rewrite extract_invoice_fields_eq. intros [= <-]. apply dom_fields_of.
Qed.

Lemma on_ocr_finished_shown (G : gui_env) (result : ocr_result) (a : app) :
  field_inputs (on_ocr_finished G result a) =
    show_fields (fields result) (field_inputs a) ∧
  full_text_display (on_ocr_finished G result a) = full_text result.
Proof.
  unfold on_ocr_finished, update_export_preview, add_to_results_table.
  cbn -[show_fields]. by rewrite last_snoc.
Qed.

(** X26.  When a result of the extractor arrives, the ten field inputs show
    exactly its ten fields, none being left as it was, and the text display
    shows its text. *)
Theorem finished_result_fills_inputs (G : gui_env) (evs : list event)
    (text path : str) (flds : gmap string str) :
  extract_invoice_fields text = Ok flds →
  let a := foldl (handle G) init evs in
  let a' := on_ocr_finished G (OcrResult text flds path) a in
  field_inputs a' = flds ∧
  (∀ k, k ∈ field_input_keys → ∃ v, field_inputs a' !! k = Some v) ∧
  full_text_display a' = text.
Proof.
  intros Hflds%extracted_dom a a'. subst a'.
  destruct (in_step_reachable G evs) as (_ & _ & Hdom). fold a in Hdom.
  destruct (on_ocr_finished_shown G (OcrResult text flds path) a) as [-> ->].
  cbn [fields full_text]. rewrite show_fields_all by done.
  split; [done|]. split; [|done]. intros k Hk.
  apply elem_of_dom. rewrite Hflds, <- keys_of_form_and_extractor.
  by apply elem_of_list_to_set.
Qed.

(** The theorem at the result of a blank image, in the window as
    built. *)
Definition gui_plain : gui_env := GuiEnv (λ p, p) (λ _, None) (λ _, []).

Definition blank_png : str := Eval cbv in lit "blank.png".

Definition blank_result : ocr_result := OcrResult [] fields_init blank_png.

Lemma finished_result_fills_inputs_witness :
  let a' := on_ocr_finished gui_plain blank_result init in
  field_inputs a' = fields_init ∧
  (∀ k, k ∈ field_input_keys → ∃ v, field_inputs a' !! k = Some v) ∧
  full_text_display a' = [].
Proof.
  apply (finished_result_fills_inputs gui_plain [] [] blank_png fields_init).
  reflexivity.
Defined.

(** ** The CSV export *)

Section ExportFacts.
Variable G : gui_env.

(** The record of a result: the file name, then the ten fields in the
    order of the field names. *)
Definition csv_record (result : ocr_result) : list str :=
  basename G (file_path result) ::
  map (get (fields result)) field_input_keys.

Lemma dict_to_list_extracted (flds : gmap string str) (b : str) :
  dom flds = list_to_set field_names →
  dict_to_list (<["file_name" := b]> flds) =
    inl (b :: map (get flds) field_input_keys).
Proof.
  intros Hdom. unfold dict_to_list. rewrite decide_True.
  - f_equal. unfold fieldnames, field_input_keys, get. cbn [map].
    rewrite lookup_insert_eq. by rewrite !lookup_insert_ne by done.
  - rewrite dom_insert_L, Hdom. apply set_eq. intros k.
    rewrite elem_of_difference, elem_of_union, elem_of_singleton.
    unfold fieldnames, field_names.
    rewrite !elem_of_list_to_set, !elem_of_cons, !elem_of_nil.
    rewrite elem_of_empty. tauto.
Qed.

(** The result comes from the extractor. *)
Definition extracted_result (result : ocr_result) : Prop :=
  extract_invoice_fields (full_text result) = Ok (fields result).

Lemma write_rows_extracted (invoices : list ocr_result) : ∀ records,
  Forall extracted_result invoices →
  write_rows G invoices records = (records ++ map csv_record invoices, None).
Proof.
  induction invoices as [|r rest IH]; intros records Hall.
  - simpl. by rewrite app_nil_r.
  - inversion_clear Hall as [|? ? Hr Hrest]. cbn [write_rows].
    rewrite dict_to_list_extracted by (by apply (extracted_dom (full_text r))).
    rewrite IH by done. cbn [map]. fold (csv_record r).
    by rewrite <- (assoc_L (++)).
Qed.

(** The events in which every [finished] signal carries a result of the
    extractor, as those of the worker do. *)
Definition from_worker (ev : event) : Prop :=
  match ev with
  | Signal (Finished result) => extracted_result result
  | _ => True
  end.

Lemma kept_handle a ev :
  from_worker ev → Forall extracted_result (processed_invoices a) →
  Forall extracted_result (processed_invoices (handle G a ev)).
Proof.
  intros Hev Ha. destruct ev as [chosen|eng|[msg|r|msg]| |chosen];
    cbn [handle slot].
  - unfold select_file. by destruct (truthy chosen).
  - unfold process_invoice. by destruct (selected_file a).
  - done.
  - unfold on_ocr_finished, update_export_preview, add_to_results_table.
    cbn -[show_fields]. rewrite last_snoc. cbn -[show_fields].
    apply Forall_app. split; [done|]. by constructor.
  - done.
  - by constructor.
  - unfold export_csv. destruct (negb (truthy (processed_invoices a))); [done|].
    destruct (truthy chosen); [|done].
    destruct (open_error G chosen); [done|].
    by destruct (write_rows G (processed_invoices a) [header]) as [? []].
Qed.

Lemma kept_reachable evs :
  Forall from_worker evs →
  Forall extracted_result (processed_invoices (foldl (handle G) init evs)).
Proof.
  induction evs as [|ev evs IH] using rev_ind; intros Hevs; [by constructor|].
  apply Forall_app in Hevs as [Hevs Hev]. inversion_clear Hev.
  rewrite foldl_app. apply kept_handle; auto.
Qed.

End ExportFacts.

(** X27.  An export of results that came from the extractor never stops on a
    key: the file holds the header and one record per result kept, in order,
    each with the file name and the ten fields, and the success box is
    shown. *)
Theorem csv_export_is_complete (G : gui_env) (evs : list event) (chosen : str) :
  Forall from_worker evs →
  let a := foldl (handle G) init evs in
  processed_invoices a ≠ [] → chosen ≠ [] → open_error G chosen = None →
  let a' := export_csv G chosen a in
  saved a' =
    saved a ++ [(chosen, header :: map (csv_record G) (processed_invoices a))] ∧
  dialogs a' =
    dialogs a ++ [Information txt_success (txt_exported_to ++ chosen)] ∧
  Forall (λ record, length record = length fieldnames)
         (map (csv_record G) (processed_invoices a)).
Proof.
  intros Hevs a Hne Hchosen Hopen a'. subst a'. unfold export_csv.
  destruct (processed_invoices a) as [|r rest] eqn:Hinv; [done|].
  destruct chosen as [|c chosen]; [done|]. cbn [truthy negb]. rewrite Hopen.
  rewrite <- Hinv. rewrite write_rows_extracted by by apply kept_reachable.
  split; [done|]. split; [done|].
  apply Forall_forall. intros record (r0 & -> & _)%list_elem_of_fmap. done.
Qed.

(** The theorem after one file was chosen, processed and finished. *)
Definition out_csv : str := Eval cbv in lit "out.csv".

Definition one_invoice : list event :=
  [ SelectFile blank_png; ProcessInvoice tesseract;
    Signal (Progress msg_start); Signal (Finished blank_result) ].

Lemma csv_export_is_complete_witness :
  let a := foldl (handle gui_plain) init one_invoice in
  let a' := export_csv gui_plain out_csv a in
  saved a' =
    saved a ++
    [(out_csv, header :: map (csv_record gui_plain) (processed_invoices a))] ∧
  dialogs a' =
    dialogs a ++ [Information txt_success (txt_exported_to ++ out_csv)] ∧
  Forall (λ record, length record = length fieldnames)
         (map (csv_record gui_plain) (processed_invoices a)).
Proof.
  apply (csv_export_is_complete gui_plain one_invoice out_csv).
  - repeat constructor.
  - discriminate.
  - discriminate.
  - reflexivity.
Defined.

(** ** A run seen from the window *)

Lemma foldl_progress (G : gui_env) (msgs : list str) : ∀ a,
  let a' := foldl (λ a s, slot G s a) a (map Progress msgs) in
  process_btn a' = process_btn a ∧ progress_bar a' = progress_bar a.
Proof.
  induction msgs as [|msg msgs IH]; intros a; [done|].
  cbn [map foldl slot]. by destruct (IH (update_status msg a)) as [-> ->].
Qed.

Lemma slot_closing (G : gui_env) (s : signal) (a : app) :
  closing s →
  process_btn (slot G s a) = true ∧ progress_bar (slot G s a) = false ∧
  (status_label (slot G s a) = txt_completed ∨
   status_label (slot G s a) = txt_failed).
Proof.
  destruct s as [msg|r|msg]; [done| |]; intros _; cbn [slot].
  - unfold on_ocr_finished. cbn -[update_export_preview]. auto.
  - cbn. auto.
Qed.

(** X28.  When the run started by the button ends normally, its signals
    leave the window ready for the next file: the button, disabled at the
    start, is enabled again, the progress bar is hidden, and the status says
    completed or failed. *)
Theorem window_is_ready_after_run (E : env) (G : gui_env)
    (path ocr_engine : str) (w : world) (a : app) :
  selected_file a = Some path →
  let started := process_invoice ocr_engine a in
  let r := run E path ocr_engine w in
  let emitted := drop (length (signals w)) (signals r.2) in
  let a' := foldl (λ a s, slot G s a) started emitted in
  r.1 = Ok tt →
  worker started = Some (path, ocr_engine) ∧
  process_btn started = false ∧ progress_bar started = true ∧
  process_btn a' = true ∧ progress_bar a' = false ∧
  (status_label a' = txt_completed ∨ status_label a' = txt_failed).
Proof.
  intros Hsel started r emitted a' Hok.
  assert (Hstarted : worker started = Some (path, ocr_engine) ∧
                     process_btn started = false ∧
                     progress_bar started = true).
  { subst started. unfold process_invoice. by rewrite Hsel. }
  destruct Hstarted as (Hw & Hb & Hp). split; [done|]. split; [done|].
  split; [done|].
  destruct (run_concluded E path ocr_engine w) as (msgs & tail & Hsig & Hres).
  fold r in Hsig, Hres. rewrite Hok in Hres. destruct Hres as (s & -> & Hs).
  subst a' emitted. rewrite Hsig, drop_app_length, foldl_app. cbn [foldl].
  by apply slot_closing.
Qed.

(** The theorem at a file that cannot be read. *)
Lemma window_is_ready_after_run_witness :
  let a := select_file gui_plain blank_png init in
  let started := process_invoice easyocr a in
  let r := run env_no_file blank_png easyocr (World ∅ [] []) in
  let emitted := drop (length (signals (World ∅ [] []))) (signals r.2) in
  let a' := foldl (λ a s, slot gui_plain s a) started emitted in
  worker started = Some (blank_png, easyocr) ∧
  process_btn started = false ∧ progress_bar started = true ∧
  process_btn a' = true ∧ progress_bar a' = false ∧
  (status_label a' = txt_completed ∨ status_label a' = txt_failed).
Proof.
  apply (window_is_ready_after_run env_no_file gui_plain blank_png easyocr
           (World ∅ [] []) (select_file gui_plain blank_png init)).
  - reflexivity.
  - reflexivity.
Defined.
